(** * Cross-asset correlation dashboard: merge pipeline and metrics engine

    A shallow embedding of [data_fetching.py] and [app.py].

    The program is glue around pandas.  The pandas operations it calls
    ([concat], [sort_index], [ffill], [bfill], [dropna], [pct_change],
    [cummax], [min], [std], [corr], [rolling(30).corr], [round]) are
    modelled here by executable functions on a column-oriented table;
    the two data providers (yfinance and the FRED reader) and the wall
    clock are parameters of the pipeline.

    Numbers: a float64 cell is modelled as a rational, one of the two
    infinities, or NaN ([None]).  The arithmetic of module [Float] is
    exact; it serves the worked scenarios and the shape of the tables.
    Module [Binary64] rounds every division and subtraction to the
    nearest float64, ties to even, with gradual underflow and overflow
    to infinity; the range of the drawdown is proved there.  The sign
    of zero is not modelled.  Square roots (standard deviation and
    Pearson correlation) are taken in the real numbers; what is proved
    of the rolling correlation holds for any arithmetic on the window. *)

From Stdlib Require Import String Ascii Bool ZArith QArith Qabs Qround Qpower Lia.
From Stdlib Require Import Reals Qreals Psatz.
From Stdlib Require Import List Sorting.Sorted Permutation.
Import ListNotations.

Local Open Scope string_scope.
Local Open Scope list_scope.
Local Open Scope Z_scope.

(** ** Exceptions as [option] *)

Definition bind {A B : Type} (m : option A) (k : A -> option B) : option B :=
  match m with
  | Some a => k a
  | None => None
  end.

Notation "x <- m ;; k" := (bind m (fun x => k))
  (at level 61, m at next level, right associativity).

Fixpoint mapM {A B : Type} (f : A -> option B) (l : list A) : option (list B) :=
  match l with
  | [] => Some []
  | a :: r => b <- f a ;; bs <- mapM f r ;; Some (b :: bs)
  end.

(** ** Python built-ins used by the program *)

Module Py.

(** [c in s] for a one-character [c]. *)
Fixpoint contains (c : ascii) (s : string) : bool :=
  match s with
  | EmptyString => false
  | String a r => Ascii.eqb a c || contains c r
  end.

(** [s.replace(c, "")] for a one-character [c]. *)
Fixpoint remove_char (c : ascii) (s : string) : string :=
  match s with
  | EmptyString => EmptyString
  | String a r => if Ascii.eqb a c then remove_char c r
                  else String a (remove_char c r)
  end.

Definition is_space (c : ascii) : bool :=
  let n := nat_of_ascii c in
  ((9 <=? n)%nat && (n <=? 13)%nat) || ((28 <=? n)%nat && (n <=? 32)%nat).

Definition is_digit (c : ascii) : bool :=
  let n := nat_of_ascii c in (48 <=? n)%nat && (n <=? 57)%nat.

Definition digit_value (c : ascii) : Z := Z.of_nat (nat_of_ascii c) - 48.

Fixpoint lstrip (l : list ascii) : list ascii :=
  match l with
  | [] => []
  | c :: r => if is_space c then lstrip r else l
  end.

Definition strip (l : list ascii) : list ascii :=
  rev (lstrip (rev (lstrip l))).

(** Decimal digits, with single underscores allowed between digits. *)
Fixpoint digits (acc : Z) (after_digit : bool) (l : list ascii) : option Z :=
  match l with
  | [] => if after_digit then Some acc else None
  | c :: r =>
      if is_digit c then digits (10 * acc + digit_value c) true r
      else if Ascii.eqb c "_" && after_digit then digits acc false r
      else None
  end.

(** The strings of ASCII characters. *)
Definition is_ascii (s : string) : bool :=
  forallb (fun c => (nat_of_ascii c <? 128)%nat) (list_ascii_of_string s).

(** The default of [sys.get_int_max_str_digits()]. *)
Definition max_str_digits : Z := 4300.

(** [int(s)] on an ASCII string: [None] stands for [ValueError], also
    the one for a literal of more digits than the interpreter
    converts. *)
Definition int (s : string) : option Z :=
  let l := strip (list_ascii_of_string s) in
  if max_str_digits <? Z.of_nat (length (filter is_digit l)) then None
  else
    match l with
    | "+"%char :: r => digits 0 false r
    | "-"%char :: r => n <- digits 0 false r ;; Some (- n)
    | _ => digits 0 false l
    end.

(** [max(items, key=key)]: the first item whose key is greatest;
    [None] stands for the [ValueError] on an empty sequence. *)
Fixpoint max_from {A : Type} (key : A -> Z) (best : A) (l : list A) : A :=
  match l with
  | [] => best
  | a :: r => if key best <? key a then max_from key a r
              else max_from key best r
  end.

Definition max_by {A : Type} (key : A -> Z) (l : list A) : option A :=
  match l with
  | [] => None
  | a :: r => Some (max_from key a r)
  end.

(** A [dict] with insertion order, as the program iterates over it. *)
Definition dict (K V : Type) := list (K * V).
Definition keys {K V : Type} (d : dict K V) : list K := map fst d.
Definition values {K V : Type} (d : dict K V) : list V := map snd d.

Fixpoint get {V : Type} (k : string) (d : dict string V) : option V :=
  match d with
  | [] => None
  | (k', v) :: r => if String.eqb k' k then Some v else get k r
  end.

(** [datetime] as microseconds since 0001-01-01T00:00:00. *)
Definition datetime := Z.
Definition us_per_day : Z := 86400 * 1000000.
Definition datetime_max : Z := 3652059 * us_per_day - 1.

(** [timedelta(days=n)]; [None] stands for [OverflowError]. *)
Definition timedelta_days (n : Z) : option Z :=
  if Z.abs n <=? 999999999 then Some (n * us_per_day) else None.

(** [t - delta]; [None] stands for [OverflowError]. *)
Definition datetime_sub (t : datetime) (delta : Z) : option datetime :=
  let r := t - delta in
  if (0 <=? r) && (r <=? datetime_max) then Some r else None.

End Py.

(** ** pandas tables *)

Module Pd.

(** Row labels: the dates of a [DatetimeIndex] without time zone, as
    day numbers (0001-01-01 is day 1). *)
Definition date := Z.

Section Frames.

Context {V : Type}.

(** A cell holds a value or is missing (NaN). *)
Definition cell := option V.

Definition notna (c : cell) : bool :=
  match c with Some _ => true | None => false end.

(** A column without a missing cell, and a column of missing cells
    only. *)
Definition no_na (c : list cell) : Prop := Forall (fun x => x <> None) c.
Definition all_na (c : list cell) : Prop := Forall (fun x => x = None) c.

(** Missing cells only at the top. *)
Fixpoint leading_na (c : list cell) : Prop :=
  match c with
  | None :: r => leading_na r
  | l => no_na l
  end.

Record Series := mkSeries {
  s_index : list date;
  s_values : list cell
}.

(** A table: the row labels and, for each column label, one cell per
    row. *)
Record DataFrame := mkFrame {
  index : list date;
  data : list (string * list cell)
}.

Definition columns (df : DataFrame) : list string := map fst (data df).

Definition n_rows (df : DataFrame) : nat := length (index df).

(** Every column has one cell per row. *)
Definition rectangular (df : DataFrame) : Prop :=
  Forall (fun lc => length (snd lc) = n_rows df) (data df).

(** [df.empty]: some axis has length 0. *)
Definition empty (df : DataFrame) : bool :=
  (n_rows df =? 0)%nat || (length (data df) =? 0)%nat.

(** [df.columns = labels]; [None] stands for the [ValueError] on a
    length mismatch. *)
Definition set_columns (labels : list string) (df : DataFrame)
  : option DataFrame :=
  if (length labels =? length (data df))%nat
  then Some (mkFrame (index df) (combine labels (map snd (data df))))
  else None.

(** [df[label]]; [None] stands for [KeyError]. *)
Definition getitem (label : string) (df : DataFrame) : option Series :=
  c <- Py.get label (data df) ;; Some (mkSeries (index df) c).

(** [df[labels]]. *)
Definition select (labels : list string) (df : DataFrame)
  : option DataFrame :=
  cs <- mapM (fun l => c <- Py.get l (data df) ;; Some (l, c)) labels ;;
  Some (mkFrame (index df) cs).

(** [df.take(positions)]: the rows at the given positions. *)
Definition take_col (pos : list nat) (c : list cell) : list cell :=
  map (fun i => nth i c None) pos.

Definition take (pos : list nat) (df : DataFrame) : DataFrame :=
  mkFrame (map (fun i => nth i (index df) 0) pos)
          (map (fun lc => (fst lc, take_col pos (snd lc))) (data df)).

(** Order of (label, position) pairs by label. *)
Definition key_le (x y : date * nat) : Prop := fst x <= fst y.

(** Stable insertion sort of (label, position) pairs by label. *)
Fixpoint insert_by_date (x : date * nat) (l : list (date * nat))
  : list (date * nat) :=
  match l with
  | [] => [x]
  | y :: r => if fst x <=? fst y then x :: y :: r
              else y :: insert_by_date x r
  end.

Fixpoint sort_by_date (l : list (date * nat)) : list (date * nat) :=
  match l with
  | [] => []
  | x :: r => insert_by_date x (sort_by_date r)
  end.

Definition argsort (idx : list date) : list nat :=
  map snd (sort_by_date (combine idx (seq 0 (length idx)))).

(** The labels in sorted order. *)
Definition sort_dates (idx : list date) : list date :=
  map fst (sort_by_date (combine idx (seq 0 (length idx)))).

(** [df.sort_index()]. *)
Definition sort_index (df : DataFrame) : DataFrame :=
  take (argsort (index df)) df.

(** [df.dropna()]: keep the rows without a missing cell. *)
Definition row_complete (df : DataFrame) (i : nat) : bool :=
  forallb (fun lc => notna (nth i (snd lc) None)) (data df).

Definition dropna (df : DataFrame) : DataFrame :=
  take (filter (row_complete df) (seq 0 (n_rows df))) df.

Definition dropna_series (s : Series) : Series :=
  let keep := filter (fun i => notna (nth i (s_values s) None))
                     (seq 0 (length (s_index s))) in
  mkSeries (map (fun i => nth i (s_index s) 0) keep)
           (take_col keep (s_values s)).

(** [ffill]: a missing cell takes the last value seen above it. *)
Fixpoint ffill_from (last : cell) (c : list cell) : list cell :=
  match c with
  | [] => []
  | Some v :: r => Some v :: ffill_from (Some v) r
  | None :: r => last :: ffill_from last r
  end.

Definition ffill_col (c : list cell) : list cell := ffill_from None c.

(** [bfill]: a missing cell takes the next value below it. *)
Fixpoint bfill_col (c : list cell) : list cell :=
  match c with
  | [] => []
  | Some v :: r => Some v :: bfill_col r
  | None :: r => let r' := bfill_col r in hd None r' :: r'
  end.

Definition map_cols (f : list cell -> list cell) (df : DataFrame)
  : DataFrame :=
  mkFrame (index df) (map (fun lc => (fst lc, f (snd lc))) (data df)).

Definition ffill (df : DataFrame) : DataFrame := map_cols ffill_col df.
Definition bfill (df : DataFrame) : DataFrame := map_cols bfill_col df.

(** Union of two indexes, in order of first appearance. *)
Definition mem (d : date) (l : list date) : bool := existsb (Z.eqb d) l.

Definition union_index (a b : list date) : list date :=
  a ++ filter (fun d => negb (mem d a)) b.

(** The cell of column [c] at label [d], NaN when [d] is not a row. *)
Fixpoint lookup (d : date) (idx : list date) (c : list cell) : cell :=
  match idx, c with
  | k :: idx', v :: c' => if k =? d then v else lookup d idx' c'
  | _, _ => None
  end.

Definition reindex (new : list date) (df : DataFrame) : DataFrame :=
  mkFrame new
    (map (fun lc => (fst lc, map (fun d => lookup d (index df) (snd lc)) new))
         (data df)).

(** [a.equals(b)]: the same labels in the same order. *)
Fixpoint same_index (a b : list date) : bool :=
  match a, b with
  | [], [] => true
  | x :: a', y :: b' => (x =? y) && same_index a' b'
  | _, _ => false
  end.

(** [index.is_unique]: no label twice. *)
Fixpoint is_unique (l : list date) : bool :=
  match l with
  | [] => true
  | d :: r => negb (mem d r) && is_unique r
  end.

Fixpoint remove_one (d : date) (l : list date) : list date :=
  match l with
  | [] => []
  | x :: r => if x =? d then r else x :: remove_one d r
  end.

(** What [b] holds beyond [a], occurrence by occurrence. *)
Definition beyond (a b : list date) : list date :=
  fold_left (fun rest d => remove_one d rest) a b.

(** [a.union(b)] of two [DatetimeIndex] without a frequency, as
    [concat] calls it ([sort=None]): [a] itself when [b] is empty or
    equal to [a], [b] when [a] is empty, and otherwise the labels of
    both in increasing order, each as often as in the index that has
    it most often. *)
Definition index_union (a b : list date) : list date :=
  match a, b with
  | _, [] => a
  | [], _ => b
  | _, _ => if same_index a b then a else sort_dates (a ++ beyond a b)
  end.

(** One table of a [concat] on the combined row labels: left as it is
    when these are its own labels, realigned when it has no label
    twice; [None] stands for the [InvalidIndexError] of a realignment
    from repeated labels. *)
Definition realign (idx : list date) (df : DataFrame)
  : option (list (string * list cell)) :=
  if same_index (index df) idx then Some (data df)
  else if is_unique (index df) then Some (data (reindex idx df))
  else None.

(** [pd.concat(frames, axis=1)]: outer join on the row labels, the
    columns of the tables side by side.  [None] stands for the
    [ValueError] on an empty list and for the [InvalidIndexError]. *)
Definition concat (frames : list DataFrame) : option DataFrame :=
  match frames with
  | [] => None
  | f :: fs =>
      let idx := fold_left index_union (map index fs) (index f) in
      cols <- mapM (realign idx) frames ;;
      Some (mkFrame idx (flat_map (fun c => c) cols))
  end.

End Frames.

Arguments cell : clear implicits.
Arguments Series : clear implicits.
Arguments DataFrame : clear implicits.

End Pd.

(** ** data_fetching.py *)

Module DataFetching.

Import Pd.

Section Pipeline.

Context {V : Type}.

(** What [yf.download] returns: a table with two-level columns
    (field, then ticker), or a flat one. *)
Inductive YahooFrame :=
| MultiIndex (fields : Py.dict string (DataFrame V))
| Flat (df : DataFrame V).

Record YahooRequest := mkYahooRequest {
  tickers : list string;
  y_period : string;
  y_interval : string
}.

Record FredRequest := mkFredRequest {
  f_series : string;
  f_start : Py.datetime;
  f_end : Py.datetime
}.

(** The two providers and the wall clock ([clock k] is the reading of
    the k-th call of [datetime.utcnow] in a refresh). *)
Variable yf_download : YahooRequest -> YahooFrame.
Variable DataReader : FredRequest -> DataFrame V.
Variable clock : nat -> Py.datetime.

Definition FRED_TICKERS : Py.dict string string :=
  [ ("3M_Yield", "DGS3MO");
    ("1Y_Yield", "DGS1");
    ("2Y_Yield", "DGS2");
    ("10Y_Yield", "DGS10");
    ("30Y_Yield", "DGS30") ].

Definition YAHOO_TICKERS : Py.dict string string :=
  [ ("Nasdaq", "^IXIC");
    ("Gold", "GC=F");
    ("BTC", "BTC-USD");
    ("ETH", "ETH-USD");
    ("SOL", "SOL-USD");
    ("XRP", "XRP-USD") ].

(** [int(period.replace("d", "")) if "d" in period else 365] *)
Definition lookback_days (period : string) : option Z :=
  if Py.contains "d" period then Py.int (Py.remove_char "d" period)
  else Some 365.

(** The request [fetch_fred_series] sends to the FRED reader. *)
Definition fred_request (now : Py.datetime) (series period : string)
  : option FredRequest :=
  let end_ := now in
  days <- lookback_days period ;;
  delta <- Py.timedelta_days days ;;
  start <- Py.datetime_sub end_ delta ;;
  Some (mkFredRequest series start end_).

(** Line 43: [df.ffill().bfill()]. *)
Definition fill (df : DataFrame V) : DataFrame V := bfill (ffill df).

Definition fetch_fred_series (now : Py.datetime) (series period : string)
  : option (DataFrame V) :=
  req <- fred_request now series period ;;
  let df := DataReader req in
  Some (fill df).

(** Lines 49-51: the interval is forced to daily for the long
    ranges. *)
Definition effective_interval (period interval : string) : string :=
  if existsb (String.eqb period) ["180d"; "1y"] then "1d" else interval.

(** The request [fetch_cross_asset_data] sends to yfinance. *)
Definition yahoo_request (period interval : string) : YahooRequest :=
  let interval := effective_interval period interval in
  mkYahooRequest (Py.values YAHOO_TICKERS) period interval.

Fixpoint fetch_fred_frames (k : nat) (entries : Py.dict string string)
         (period : string) : option (list (DataFrame V)) :=
  match entries with
  | [] => Some []
  | (label, series) :: r =>
      df_fred <- fetch_fred_series (clock k) series period ;;
      df_fred <- set_columns [label] df_fred ;;
      rest <- fetch_fred_frames (S k) r period ;;
      Some (df_fred :: rest)
  end.

(** Lines 62-65: the closing prices of the download; [None] stands
    for the [KeyError] when there is no such field. *)
Definition close_prices (df_yahoo : YahooFrame) : option (DataFrame V) :=
  match df_yahoo with
  | MultiIndex fields => Py.get "Close" fields
  | Flat df => Some df
  end.

(** The market-data fetch yields no data: the table of closing
    prices has no row. *)
Definition yahoo_no_data : Prop :=
  forall req close,
    close_prices (yf_download req) = Some close -> index close = [].

(** Line 80: [df.sort_index().ffill().bfill()]. *)
Definition sort_and_fill (df : DataFrame V) : DataFrame V :=
  bfill (ffill (sort_index df)).

Definition fetch_cross_asset_data (period interval : string)
  : option (DataFrame V) :=
  let df_yahoo := yf_download (yahoo_request period interval) in
  close <- close_prices df_yahoo ;;
  close <- set_columns (Py.keys YAHOO_TICKERS) close ;;
  fred_frames <- fetch_fred_frames 0 FRED_TICKERS period ;;
  df_fred_all <- concat fred_frames ;;
  df <- concat [df_fred_all; close] ;;
  Some (sort_and_fill df).

End Pipeline.

Arguments YahooFrame : clear implicits.

End DataFetching.

(** ** float64 cells *)

Module Float.

Local Open Scope Q_scope.

(** A float that is not NaN.  NaN is the missing cell, [None]. *)
Inductive t :=
| Fin (q : Q)
| PInf
| NInf.

Definition cell := Pd.cell t.

Definition of_Q (q : Q) : cell := Some (Fin q).
Definition of_Z (n : Z) : cell := of_Q (inject_Z n).

Definition ltb (a b : t) : bool :=
  match a, b with
  | Fin x, Fin y => negb (Qle_bool y x)
  | Fin _, PInf => true
  | Fin _, NInf => false
  | PInf, _ => false
  | NInf, NInf => false
  | NInf, _ => true
  end.

Definition max (a b : t) : t := if ltb a b then b else a.
Definition min (a b : t) : t := if ltb b a then b else a.

Definition sub (a b : t) : cell :=
  match a, b with
  | Fin x, Fin y => Some (Fin (x - y))
  | Fin _, PInf => Some NInf
  | Fin _, NInf => Some PInf
  | PInf, PInf => None
  | PInf, _ => Some PInf
  | NInf, NInf => None
  | NInf, _ => Some NInf
  end.

Definition div (a b : t) : cell :=
  match a, b with
  | Fin x, Fin y =>
      if Qeq_bool y 0 then
        if Qeq_bool x 0 then None
        else if Qle_bool 0 x then Some PInf else Some NInf
      else Some (Fin (x / y))
  | Fin _, _ => Some (Fin 0)
  | PInf, Fin y => if Qle_bool 0 y then Some PInf else Some NInf
  | NInf, Fin y => if Qle_bool 0 y then Some NInf else Some PInf
  | _, _ => None
  end.

(** Arithmetic on cells: NaN propagates. *)
Definition cell_sub (a b : cell) : cell := x <- a ;; y <- b ;; sub x y.
Definition cell_div (a b : cell) : cell := x <- a ;; y <- b ;; div x y.

Definition finite (c : cell) : option Q :=
  match c with
  | Some (Fin q) => Some q
  | _ => None
  end.

(** The same number with its fraction in lowest terms. *)
Definition canon (a : t) : t :=
  match a with
  | Fin q => Fin (Qred q)
  | _ => a
  end.

Definition canon_col (c : list cell) : list cell :=
  map (option_map canon) c.

Definition canon_data (d : list (string * list cell))
  : list (string * list cell) :=
  map (fun lc => (fst lc, canon_col (snd lc))) d.

(** A drawdown in the interval (-1, 0]. *)
Definition in_drawdown_range (c : cell) : Prop :=
  exists m, c = Some (Fin m) /\ -1 < m /\ m <= 0.

End Float.

(** ** Statistics over the reals *)

Module Stats.

Local Open Scope R_scope.

Definition sum (l : list R) : R := fold_right Rplus 0 l.

Definition mean (l : list R) : R := sum l / INR (length l).

(** Sum of squared deviations from the mean. *)
Definition ssqd (l : list R) : R :=
  let m := mean l in sum (map (fun x => (x - m) * (x - m)) l).

(** Sum of products of deviations. *)
Definition sprod (x y : list R) : R :=
  let mx := mean x in
  let my := mean y in
  sum (map (fun p => (fst p - mx) * (snd p - my)) (combine x y)).

(** Sample variance and standard deviation ([ddof=1]); NaN on fewer
    than two observations. *)
Definition var (l : list R) : option R :=
  if (length l <? 2)%nat then None
  else Some (ssqd l / (INR (length l) - 1)).

Definition std (l : list R) : option R :=
  v <- var l ;; Some (sqrt v).

(** Pearson correlation as [DataFrame.corr] computes it: NaN when the
    divisor is zero. *)
Definition pearson (x y : list R) : option R :=
  let divisor := sqrt (ssqd x * ssqd y) in
  if Req_dec_T divisor 0 then None
  else Some (sprod x y / divisor).

(** Correlation of one window as [rolling(...).corr] computes it:
    [(mean(xy) - mean(x) mean(y)) * n / (n - 1)] over
    [(var(x) var(y)) ** 0.5]; NaN when that denominator is zero. *)
Definition window_corr (x y : list R) : option R :=
  let n := INR (length x) in
  let mean_x_y := mean (map (fun p => fst p * snd p) (combine x y)) in
  let numerator := (mean_x_y - mean x * mean y) * (n / (n - 1)) in
  x_var <- var x ;;
  y_var <- var y ;;
  let denominator := sqrt (x_var * y_var) in
  if Req_dec_T denominator 0 then None
  else Some (numerator / denominator).

(** Round half to even. *)
Definition rint (x : R) : Z :=
  let f := Zfloor x in
  let r := x - IZR f in
  if Rlt_dec r (1 / 2) then f
  else if Rlt_dec (1 / 2) r then (f + 1)%Z
  else if Z.even f then f else (f + 1)%Z.

(** [round(x, 3)]. *)
Definition round3 (x : R) : R := IZR (rint (x * 1000)) / 1000.

End Stats.

(** ** app.py *)

Module App.

Import Pd.

Definition Frame := DataFrame Float.t.

(** *** The pandas arithmetic the callback uses *)

(** [c.shift(1)]. *)
Definition shift1 {V : Type} (c : list (cell V)) : list (cell V) :=
  match c with
  | [] => []
  | _ :: _ => None :: removelast c
  end.

(** [pct_change()]: [c / c.shift(1) - 1].  The callback applies it to
    tables without missing cells, where the optional pre-fill of
    [pct_change] changes nothing. *)
Definition pct_change_col (c : list Float.cell) : list Float.cell :=
  map (fun p => Float.cell_sub (Float.cell_div (fst p) (snd p)) (Float.of_Z 1))
      (combine c (shift1 c)).

Definition pct_change (df : Frame) : Frame := map_cols pct_change_col df.

Definition pct_change_series (s : Series Float.t) : Series Float.t :=
  mkSeries (s_index s) (pct_change_col (s_values s)).

(** [cummax()]: the running maximum; missing cells stay missing and do
    not take part. *)
Fixpoint cummax_from (m : option Float.t) (c : list Float.cell)
  : list Float.cell :=
  match c with
  | [] => []
  | None :: r => None :: cummax_from m r
  | Some v :: r =>
      let m' := match m with
                | None => v
                | Some w => Float.max w v
                end in
      Some m' :: cummax_from (Some m') r
  end.

Definition cummax_col (c : list Float.cell) : list Float.cell :=
  cummax_from None c.

Definition cummax (df : Frame) : Frame := map_cols cummax_col df.

(** [a / b] for two tables that carry the same labels, as [df_crypto]
    and its running maximum do: cell by cell. *)
Definition div_col (a b : list Float.cell) : list Float.cell :=
  map (fun p => Float.cell_div (fst p) (snd p)) (combine a b).

Definition div_frames (a b : Frame) : Frame :=
  mkFrame (index a)
    (map (fun p => (fst (fst p), div_col (snd (fst p)) (snd (snd p))))
         (combine (data a) (data b))).

(** [df - 1]. *)
Definition sub_one_col (c : list Float.cell) : list Float.cell :=
  map (fun x => Float.cell_sub x (Float.of_Z 1)) c.

Definition sub_one (df : Frame) : Frame := map_cols sub_one_col df.

(** [min()] of a column, skipping missing cells; NaN if none is left. *)
Fixpoint min_col (c : list Float.cell) : Float.cell :=
  match c with
  | [] => None
  | x :: r =>
      match x, min_col r with
      | None, m => m
      | Some v, None => Some v
      | Some v, Some w => Some (Float.min v w)
      end
  end.

Definition frame_min (df : Frame) : list (string * Float.cell) :=
  map (fun lc => (fst lc, min_col (snd lc))) (data df).

(** The observations of a column as reals: missing cells are skipped;
    an infinite value makes every statistic NaN. *)
Fixpoint observations (c : list Float.cell) : option (list R) :=
  match c with
  | [] => Some []
  | None :: r => observations r
  | Some (Float.Fin q) :: r => xs <- observations r ;; Some (Q2R q :: xs)
  | Some _ :: r => None
  end.

(** [std()] of every column. *)
Definition frame_std (df : Frame) : list (string * option R) :=
  map (fun lc => (fst lc, xs <- observations (snd lc) ;; Stats.std xs))
      (data df).

(** Observations of two columns on the rows where both hold a finite
    number: [corr] leaves out, pair by pair, the rows where one of the
    two cells is NaN or infinite. *)
Fixpoint pair_observations (a b : list Float.cell) : list R * list R :=
  match a, b with
  | x :: a', y :: b' =>
      let r := pair_observations a' b' in
      match x, y with
      | Some (Float.Fin p), Some (Float.Fin q) =>
          (Q2R p :: fst r, Q2R q :: snd r)
      | _, _ => r
      end
  | _, _ => ([], [])
  end.

Definition corr_cols (a b : list Float.cell) : option R :=
  let r := pair_observations a b in Stats.pearson (fst r) (snd r).

(** [df.corr()]: one row per column, one entry per column. *)
Definition corr (df : Frame) : list (string * list (option R)) :=
  map (fun ci => (fst ci, map (fun cj => corr_cols (snd ci) (snd cj)) (data df)))
      (data df).

(** [m.round(3)]. *)
Definition round (m : list (string * list (option R)))
  : list (string * list (option R)) :=
  map (fun row => (fst row, map (option_map Stats.round3) (snd row))) m.

(** Entry (i, j) of a matrix of the shape [corr] returns; NaN outside
    of it. *)
Definition entry (m : list (string * list (option R))) (i j : nat)
  : option R :=
  match nth_error m i with
  | Some row =>
      match nth_error (snd row) j with
      | Some x => x
      | None => None
      end
  | None => None
  end.

(** Rationals that are not all equal. *)
Definition varies (qs : list Q) : Prop :=
  exists p q, In p qs /\ In q qs /\ ~ (p == q)%Q.

(** A column of finite values that are not all equal. *)
Definition nondegenerate (c : list Float.cell) : Prop :=
  exists qs, c = map Float.of_Q qs /\ varies qs.

(** A panel of finite prices, and the returns of a list of prices:
    each price over the one before it, minus 1. *)
Definition fin_frame (idx : list date) (cols : list (string * list Q))
  : Frame :=
  mkFrame idx (map (fun lc => (fst lc, map Float.of_Q (snd lc))) cols).

Definition q_returns (ps : list Q) : list Q :=
  map (fun p => (fst p / snd p - 1)%Q) (combine (tl ps) ps).

(** Columns of positive prices, one per row. *)
Definition positive_prices (idx : list date) (cols : list (string * list Q))
  : Prop :=
  Forall (fun lc => length (snd lc) = length idx /\ Forall (Qlt 0) (snd lc))
         cols.

(** The column [df[labels]] picks for a label. *)
Definition picked (cols : list (string * list Q)) (c : string)
           (lc : string * list Q) : Prop :=
  fst lc = c /\ Py.get c cols = Some (snd lc).

(** *** Rolling correlation *)

(** The [w] values that end at position [i]. *)
Definition q_window (w i : nat) (qs : list Q) : list Q :=
  map (fun j => nth j qs 0%Q) (seq (i + 1 - w) w).

(** The number of cells of a column that hold a value. *)
Definition count_defined {V : Type} (c : list (cell V)) : nat :=
  length (filter notna c).

Definition reindex_series {V : Type} (new : list date) (s : Series V)
  : Series V :=
  mkSeries new (map (fun d => lookup d (s_index s) (s_values s)) new).

(** Alignment of two series: nothing to do when they carry the same
    index, otherwise both are put on the sorted union. *)
Definition align {V : Type} (a b : Series V) : Series V * Series V :=
  if list_eq_dec Z.eq_dec (s_index a) (s_index b) then (a, b)
  else
    let idx := sort_dates (union_index (s_index a) (s_index b)) in
    (reindex_series idx a, reindex_series idx b).

(** [x + 0 * y]: NaN where [y] is NaN or infinite, else [x]. *)
Definition mask (x y : Float.cell) : Float.cell :=
  match y with
  | Some (Float.Fin _) => x
  | _ => None
  end.

Definition mask_col (a b : list Float.cell) : list Float.cell :=
  map (fun p => mask (fst p) (snd p)) (combine a b).

(** The [w] cells that end at position [i]. *)
Definition window {V : Type} (w i : nat) (c : list (cell V)) : list (cell V) :=
  map (fun j => nth j c None) (seq (i + 1 - w) w).

Definition finite_window (c : list Float.cell) : option (list R) :=
  qs <- mapM Float.finite c ;; Some (map Q2R qs).

(** [a.rolling(w).corr(b)]: NaN until [w] observations are in the
    window, and wherever the window holds a NaN or an infinity. *)
Definition rolling_corr (w : nat) (a b : Series Float.t) : Series R :=
  let ab := align a b in
  let X := mask_col (s_values (fst ab)) (s_values (snd ab)) in
  let Y := mask_col (s_values (snd ab)) (s_values (fst ab)) in
  mkSeries (s_index (fst ab))
    (map (fun i =>
            if (i + 1 <? w)%nat then None
            else
              wx <- finite_window (window w i X) ;;
              wy <- finite_window (window w i Y) ;;
              Stats.window_corr wx wy)
         (seq 0 (length (s_index (fst ab))))).

(** [a.rolling(w).corr(b)] with the arithmetic on a full window left
    open.  pandas computes [numerator / denominator] from running sums
    over the masked columns, in float64; [stat i X Y] stands for what
    that gives at position [i], NaN ([None]) included.  What does not
    depend on the arithmetic is kept: NaN until [w] observations are
    in the window ([min_periods] is [w]), and NaN wherever the window
    holds a NaN or an infinity. *)
Definition is_finite (c : Float.cell) : bool :=
  match c with
  | Some (Float.Fin _) => true
  | _ => false
  end.

Definition rolling_corr_with {T : Type}
    (stat : nat -> list Float.cell -> list Float.cell -> option T)
    (w : nat) (a b : Series Float.t) : Series T :=
  let ab := align a b in
  let X := mask_col (s_values (fst ab)) (s_values (snd ab)) in
  let Y := mask_col (s_values (snd ab)) (s_values (fst ab)) in
  mkSeries (s_index (fst ab))
    (map (fun i =>
            if (i + 1 <? w)%nat then None
            else if forallb is_finite (window w i X)
                    && forallb is_finite (window w i Y)
                 then stat i X Y
                 else None)
         (seq 0 (length (s_index (fst ab))))).

(** The statistic of [rolling_corr]: the correlation of the window in
    exact arithmetic. *)
Definition exact_corr (w i : nat) (X Y : list Float.cell) : option R :=
  wx <- finite_window (window w i X) ;;
  wy <- finite_window (window w i Y) ;;
  Stats.window_corr wx wy.

(** Both series hold a finite return on each of the [w] rows that end
    at row [i]. *)
Definition window_complete (w i : nat) (a b : Series Float.t) : Prop :=
  forall j, (i + 1 - w <= j)%nat -> (j <= i)%nat ->
    is_finite (nth j (s_values a) None) = true
    /\ is_finite (nth j (s_values b) None) = true.

(** *** The three risk metrics *)

(** [returns_crypto.std() * (365 ** 0.5)] *)
Definition ann_vol (returns_crypto : Frame) : list (string * option R) :=
  map (fun ls => (fst ls, option_map (fun s => (s * sqrt 365)%R) (snd ls)))
      (frame_std returns_crypto).

(** Lines 138-140. *)
Definition running_max (df_crypto : Frame) : Frame := cummax df_crypto.

Definition drawdowns (df_crypto : Frame) : Frame :=
  sub_one (div_frames df_crypto (running_max df_crypto)).

Definition maxdd (df_crypto : Frame) : list (string * Float.cell) :=
  frame_min (drawdowns df_crypto).

(** The same three steps on one column. *)
Definition drawdown_col (c : list Float.cell) : list Float.cell :=
  sub_one_col (div_col c (cummax_col c)).

Definition maxdd_col (c : list Float.cell) : Float.cell :=
  min_col (drawdown_col c).

(** Lines 156-171: one trace per crypto, when the table has a Nasdaq
    column. *)
Definition corr_traces (df returns_crypto : Frame) (cryptos : list string)
  : option (list (string * Series R)) :=
  match getitem "Nasdaq" df with
  | Some nasdaq =>
      let nasdaq_ret := dropna_series (pct_change_series nasdaq) in
      mapM (fun c =>
              series <- getitem c returns_crypto ;;
              Some (c, rolling_corr 30 series nasdaq_ret))
           cryptos
  | None => Some []
  end.

(** *** The callback *)

Inductive Figure :=
| NoDataFigure
| VolatilityFigure (bars : list (string * option R))
| DrawdownFigure (bars : list (string * Float.cell))
| CorrelationFigure (traces : list (string * Series R))
| HeatmapFigure (matrix : list (string * list (option R))).

Definition title (f : Figure) : string :=
  match f with
  | NoDataFigure => "No data loaded"
  | VolatilityFigure _ => "Annualized Volatility (Crypto)"
  | DrawdownFigure _ => "Maximum Drawdown (Crypto)"
  | CorrelationFigure _ => "Rolling 30-Day Correlation vs Nasdaq"
  | HeatmapFigure _ => "Full Cross-Asset Correlation Matrix"
  end.

Inductive Message :=
| NoDataReturned
| LastUpdated (t : Py.datetime).

Record Output := mkOutput {
  risk_chart : Figure;
  correlation_heatmap : Figure;
  last_update : Message
}.

(** Lines 107-108: two empty figures and the warning. *)
Definition no_data_output : Output :=
  mkOutput NoDataFigure NoDataFigure NoDataReturned.

Definition DATE_OPTIONS : Py.dict string (string * string) :=
  [ ("180d", ("180d", "1d"));
    ("1y", ("1y", "1d")) ].

(** Lines 95-96: [max(buttons, key=buttons.get)]. *)
Definition selected_view (n_vol n_dd n_corr : Z) : option string :=
  let buttons := [("vol", n_vol); ("dd", n_dd); ("corr", n_corr)] in
  option_map fst (Py.max_by snd buttons).

(** The three buttons start at [n_clicks=0]; the browser adds one to
    a button's counter each time it is pressed. *)
Inductive Button := BtnVol | BtnDd | BtnCorr.

Definition button_view (b : Button) : string :=
  match b with
  | BtnVol => "vol"
  | BtnDd => "dd"
  | BtnCorr => "corr"
  end.

Record Clicks := mkClicks { n_vol : Z; n_dd : Z; n_corr : Z }.

Definition press (c : Clicks) (b : Button) : Clicks :=
  match b with
  | BtnVol => mkClicks (n_vol c + 1) (n_dd c) (n_corr c)
  | BtnDd => mkClicks (n_vol c) (n_dd c + 1) (n_corr c)
  | BtnCorr => mkClicks (n_vol c) (n_dd c) (n_corr c + 1)
  end.

Definition clicks_after (presses : list Button) : Clicks :=
  fold_left press presses (mkClicks 0 0 0).

Section Callback.

Variable yf_download :
  DataFetching.YahooRequest -> DataFetching.YahooFrame Float.t.
Variable DataReader : DataFetching.FredRequest -> Frame.
Variable clock : nat -> Py.datetime.

Definition update_dashboard (n : Z) (date_key : option string)
           (n_vol n_dd n_corr : Z) : option Output :=
  selected <- selected_view n_vol n_dd n_corr ;;
  let date_key := match date_key with
                  | None => "1y"
                  | Some k => k
                  end in
  pi <- Py.get date_key DATE_OPTIONS ;;
  let period := fst pi in
  let interval := snd pi in
  df <- DataFetching.fetch_cross_asset_data
          yf_download DataReader clock period interval ;;
  let df := dropna df in
  if empty df then Some no_data_output
  else
    let cryptos := ["BTC"; "ETH"; "SOL"; "XRP"] in
    df_crypto <- select cryptos df ;;
    let df_crypto := dropna df_crypto in
    let returns_all := dropna (pct_change df) in
    let returns_crypto := dropna (pct_change df_crypto) in
    fig <- (if String.eqb selected "vol" then
              Some (VolatilityFigure (ann_vol returns_crypto))
            else if String.eqb selected "dd" then
              Some (DrawdownFigure (maxdd df_crypto))
            else
              traces <- corr_traces df returns_crypto cryptos ;;
              Some (CorrelationFigure traces)) ;;
    let corr := round (corr returns_all) in
    let timestamp := LastUpdated (clock (length DataFetching.FRED_TICKERS)) in
    Some (mkOutput fig (HeatmapFigure corr) timestamp).

End Callback.

End App.

(** ** float64 arithmetic with its rounding *)

Module Binary64.

Import Float (Fin, PInf, NInf).
Local Open Scope Q_scope.

(** The format: 53 significant bits, the last place never below
    2^-1074, infinity from 2^1024 on. *)
Definition prec : Z := 53.
Definition emin : Z := -1074.
Definition emax : Z := 1024.

(** The largest [k] with [2 ^ k <= q], for a positive [q]. *)
Definition flog2 (q : Q) : Z :=
  let k := (Z.log2 (Qnum q) - Z.log2 (Zpos (Qden q)))%Z in
  if Qle_bool (2 ^ k) q then k else (k - 1)%Z.

(** The nearest integer; of two that are equally near, the even one. *)
Definition rne (q : Q) : Z :=
  let f := Qfloor q in
  match Qcompare (q - inject_Z f) (1 # 2) with
  | Lt => f
  | Gt => (f + 1)%Z
  | Eq => if Z.even f then f else (f + 1)%Z
  end.

(** A positive number rounded to the nearest float64: to a multiple
    of [2 ^ e], where [e] is the exponent of its 53rd significant bit
    or, for a subnormal result, -1074. *)
Definition round_pos (q : Q) : Float.t :=
  let e := Z.max (flog2 q - (prec - 1)) emin in
  let v := inject_Z (rne (q / 2 ^ e)) * 2 ^ e in
  if Qle_bool (2 ^ emax) v then PInf else Fin v.

Definition neg (a : Float.t) : Float.t :=
  match a with
  | Fin q => Fin (- q)
  | PInf => NInf
  | NInf => PInf
  end.

(** Round to nearest, ties to even. *)
Definition round (q : Q) : Float.t :=
  match Qcompare q 0 with
  | Eq => Fin 0
  | Gt => round_pos q
  | Lt => neg (round_pos (- q))
  end.


(** The order of the floats that are not NaN. *)
Definition le (a b : Float.t) : Prop :=
  match a, b with
  | NInf, _ => True
  | _, PInf => True
  | Fin x, Fin y => x <= y
  | _, _ => False
  end.

(** The rationals that are finite float64 values. *)
Definition representable (q : Q) : Prop :=
  exists n e : Z,
    (Z.abs n < 2 ^ prec)%Z /\ (emin <= e)%Z
    /\ q == inject_Z n * 2 ^ e /\ Qabs q < 2 ^ emax.

(** [a / b] and [a - b] of float64: the exact result, rounded.  The
    sign of zero is not modelled; a division by zero takes the zero
    as positive. *)
Definition div (a b : Float.t) : Float.cell :=
  match a, b with
  | Fin x, Fin y =>
      if Qeq_bool y 0 then Float.div a b else Some (round (x / y))
  | _, _ => Float.div a b
  end.

Definition sub (a b : Float.t) : Float.cell :=
  match a, b with
  | Fin x, Fin y => Some (round (x - y))
  | _, _ => Float.sub a b
  end.

Definition cell_div (a b : Float.cell) : Float.cell :=
  x <- a ;; y <- b ;; div x y.
Definition cell_sub (a b : Float.cell) : Float.cell :=
  x <- a ;; y <- b ;; sub x y.

(** Lines 138-140 of app.py in this arithmetic. *)
Definition div_col (a b : list Float.cell) : list Float.cell :=
  map (fun p => cell_div (fst p) (snd p)) (combine a b).

Definition div_frames (a b : App.Frame) : App.Frame :=
  Pd.mkFrame (Pd.index a)
    (map (fun p => (fst (fst p), div_col (snd (fst p)) (snd (snd p))))
         (combine (Pd.data a) (Pd.data b))).

Definition sub_one_col (c : list Float.cell) : list Float.cell :=
  map (fun x => cell_sub x (Float.of_Z 1)) c.

Definition sub_one (df : App.Frame) : App.Frame := Pd.map_cols sub_one_col df.

Definition drawdowns (df_crypto : App.Frame) : App.Frame :=
  sub_one (div_frames df_crypto (App.running_max df_crypto)).

Definition maxdd (df_crypto : App.Frame) : list (string * Float.cell) :=
  App.frame_min (drawdowns df_crypto).

Definition drawdown_col (c : list Float.cell) : list Float.cell :=
  sub_one_col (div_col c (App.cummax_col c)).

Definition maxdd_col (c : list Float.cell) : Float.cell :=
  App.min_col (drawdown_col c).

End Binary64.

(** ** Sample provider answers and panels *)

Module Samples.

Import Pd DataFetching.

(** Noon of 2026-01-01 (day 739617) on every reading. *)
Definition clock : nat -> Py.datetime :=
  fun _ => 739616 * Py.us_per_day + 12 * 3600 * 1000000.

(** A download without a single row: the six ticker columns are
    there, each of them empty. *)
Definition yahoo_nothing : YahooRequest -> YahooFrame Float.t :=
  fun req =>
    MultiIndex
      [ ("Adj Close", mkFrame [] (map (fun t => (t, [])) (tickers req)));
        ("Close", mkFrame [] (map (fun t => (t, [])) (tickers req))) ].

(** Three days of closing prices, newest first. *)
Definition yahoo_three_days : YahooRequest -> YahooFrame Float.t :=
  fun req =>
    MultiIndex
      [ ("Close",
         mkFrame [739616; 739615; 739614]
           (map (fun t => (t, map Float.of_Z [103; 102; 101]))
                (tickers req))) ].

(** One FRED observation, dated 2025-12-31. *)
Definition fred_one_day : FredRequest -> App.Frame :=
  fun req => mkFrame [739616] [(f_series req, [Float.of_Z 4])].

(** Two FRED observations, the second day without a value. *)
Definition fred_two_days : FredRequest -> App.Frame :=
  fun req => mkFrame [739613; 739615] [(f_series req, [Float.of_Z 4; None])].

(** A price that falls to zero. *)
Definition crash_panel : App.Frame :=
  mkFrame [739616; 739617] [("BTC", map Float.of_Z [1; 0])].

(** A price that falls from 2^60 to 1. *)
Definition deep_fall_panel : App.Frame :=
  mkFrame [739616; 739617] [("BTC", map Float.of_Z [2 ^ 60; 1])].

(** Returns of two instruments over three days. *)
Definition btc_returns : list Q := [1 # 10; -1 # 10; 2 # 33]%Q.
Definition nasdaq_returns : list Q := [1 # 100; 0; 1 # 50]%Q.

Definition two_returns : App.Frame :=
  mkFrame [739615; 739616; 739617]
    [ ("Nasdaq", map Float.of_Q nasdaq_returns);
      ("BTC", map Float.of_Q btc_returns) ].

(** Thirty-one daily returns that grow by a hundredth a day. *)
Definition rising_returns : list Q :=
  map (fun k => inject_Z (Z.of_nat k) / 100)%Q (seq 0 31).

Definition rising_index : list date :=
  map (fun k => 739500 + Z.of_nat k) (seq 0 31).

(** Thirty-one days at the same price. *)
Definition flat_prices : Series Float.t :=
  mkSeries (map (fun k => 739500 + Z.of_nat k) (seq 0 31))
           (repeat (Float.of_Z 7) 31).

(** The panel of the worked scenario. *)
Definition btc_prices : list Float.cell := map Float.of_Z [100; 110; 99; 105].

Definition btc_panel : App.Frame :=
  mkFrame [739614; 739615; 739616; 739617] [("BTC", btc_prices)].

End Samples.

(** ** data_fetching_v1.py *)

Module DataFetchingV1.

Import Pd DataFetching.

Definition TICKERS : Py.dict string string :=
  [ ("3M_TBill", "^IRX");
    ("1Y_Yield", "DGS1");
    ("2Y_Yield", "^FVX");
    ("10Y_Yield", "^TNX");
    ("30Y_Yield", "^TYX");
    ("Nasdaq", "^IXIC");
    ("Gold", "GC=F");
    ("BTC", "BTC-USD");
    ("ETH", "ETH-USD");
    ("SOL", "SOL-USD");
    ("XRP", "XRP-USD") ].

(** Line 43: [{k: v for k, v in TICKERS.items() if k != "1Y_Yield"}]. *)
Definition yahoo_tickers : Py.dict string string :=
  filter (fun kv => negb (String.eqb (fst kv) "1Y_Yield")) TICKERS.

(** Line 63: the columns yfinance quotes at ten times the yield. *)
Definition scaled_columns : list string :=
  ["3M_TBill"; "2Y_Yield"; "10Y_Yield"; "30Y_Yield"].

(** [c / 10.0]. *)
Definition div_ten_col (c : list Float.cell) : list Float.cell :=
  map (fun x => Float.cell_div x (Float.of_Z 10)) c.

(** [df[col] = values]: a column the table has keeps its place, a new
    one goes last. *)
Definition setitem (col : string) (values : list Float.cell) (df : App.Frame)
  : App.Frame :=
  if existsb (String.eqb col) (columns df) then
    mkFrame (index df)
      (map (fun lc => if String.eqb (fst lc) col then (fst lc, values) else lc)
           (data df))
  else mkFrame (index df) (data df ++ [(col, values)]).

(** Lines 64-65: [if col in close.columns: close[col] = close[col] / 10.0]. *)
Definition scale_column (close : App.Frame) (col : string)
  : option App.Frame :=
  if existsb (String.eqb col) (columns close) then
    s <- getitem col close ;;
    Some (setitem col (div_ten_col (s_values s)) close)
  else Some close.

(** Lines 63-65: the loop over the four columns. *)
Fixpoint scale_columns (cols : list string) (close : App.Frame)
  : option App.Frame :=
  match cols with
  | [] => Some close
  | col :: r => close' <- scale_column close col ;; scale_columns r close'
  end.

Section Pipeline.

Variable yf_download : YahooRequest -> YahooFrame Float.t.
Variable DataReader : FredRequest -> App.Frame.
Variable clock : nat -> Py.datetime.

(** Lines 26-34: as in the current version, with the column renamed
    to "1Y_Yield" whatever the series. *)
Definition fetch_fred_series (now : Py.datetime) (series period : string)
  : option App.Frame :=
  req <- fred_request now series period ;;
  let df := DataReader req in
  df <- set_columns ["1Y_Yield"] df ;;
  Some (fill df).

Definition yahoo_request (period interval : string) : YahooRequest :=
  let interval := effective_interval period interval in
  mkYahooRequest (Py.values yahoo_tickers) period interval.

(** Lines 37-72. *)
Definition fetch_cross_asset_data (period interval : string)
  : option App.Frame :=
  let df_yahoo := yf_download (yahoo_request period interval) in
  close <- close_prices df_yahoo ;;
  close <- set_columns (Py.keys yahoo_tickers) close ;;
  close <- scale_columns scaled_columns close ;;
  df_1y <- fetch_fred_series (clock 0) "DGS1" period ;;
  df <- concat [close; df_1y] ;;
  Some (sort_and_fill df).

End Pipeline.

End DataFetchingV1.

(** ** app_v3.py *)

Module AppV3.

Import Pd.

(** One line of the normalized chart. *)
Record Trace := mkTrace {
  name : string;
  yaxis : string;
  x : list date;
  y : list Float.cell
}.

Inductive Figure :=
| NoDataFigure
| NormalizedFigure (title : string) (traces : list Trace)
| HeatmapFigure (matrix : list (string * list (option R))).

Record Output := mkOutput {
  normalized_chart : Figure;
  correlation_heatmap : Figure;
  last_update : App.Message
}.

(** Lines 84-85. *)
Definition no_data_output : Output :=
  mkOutput NoDataFigure NoDataFigure App.NoDataReturned.

(** [df.iloc[0]]: the first row, by column label; [None] stands for
    the [IndexError] on a table without rows. *)
Definition iloc0 (df : App.Frame) : option (list (string * Float.cell)) :=
  match index df with
  | [] => None
  | _ :: _ => Some (map (fun lc => (fst lc, hd None (snd lc))) (data df))
  end.

(** [df / row] for a row that carries the labels of the columns, as
    [df.iloc[0]] does: every column is divided by its entry of the
    row. *)
Definition div_by_row (df : App.Frame) (row : list (string * Float.cell))
  : App.Frame :=
  mkFrame (index df)
    (map (fun p => (fst (fst p),
                    map (fun v => Float.cell_div v (snd (snd p))) (snd (fst p))))
         (combine (data df) row)).

(** Lines 102-113 and 125-136: a trace for each of the given columns
    the table has. *)
Definition add_traces (axis : string) (cols : list string)
           (df_norm : App.Frame) : list Trace :=
  flat_map (fun col =>
              match getitem col df_norm with
              | Some s => [mkTrace col axis (s_index s) (s_values s)]
              | None => []
              end)
           cols.

Definition yields : list string := ["3M_Yield"; "10Y_Yield"].
Definition assets : list string := ["BTC"; "ETH"; "SOL"; "XRP"].

Section Callback.

Variable yf_download :
  DataFetching.YahooRequest -> DataFetching.YahooFrame Float.t.
Variable DataReader : DataFetching.FredRequest -> App.Frame.
Variable clock : nat -> Py.datetime.

(** Lines 75-201. *)
Definition update_dashboard (n : Z) (date_key : option string)
  : option Output :=
  let date_key := match date_key with
                  | None => "1y"
                  | Some k => k
                  end in
  pi <- Py.get date_key App.DATE_OPTIONS ;;
  let period := fst pi in
  let interval := snd pi in
  df <- DataFetching.fetch_cross_asset_data
          yf_download DataReader clock period interval ;;
  if empty df then Some no_data_output
  else
    first <- iloc0 df ;;
    let df_norm := div_by_row df first in
    let traces := add_traces "y1" yields df_norm
                  ++ add_traces "y2" assets df_norm in
    let title := ("Normalized Cross-Asset Movement (" ++ period
                  ++ ", interval=" ++ interval ++ ")")%string in
    let df_clean := DataFetching.fill df in
    let returns := dropna (App.pct_change df_clean) in
    let corr := App.round (App.corr returns) in
    let timestamp :=
      App.LastUpdated (clock (length DataFetching.FRED_TICKERS)) in
    Some (mkOutput (NormalizedFigure title traces) (HeatmapFigure corr)
                   timestamp).

End Callback.

End AppV3.

(** ** Small tables for the examples *)

Module SmallTables.

Import Pd.

(** Three dates out of order, one gap. *)
Definition unsorted : DataFrame Z :=
  mkFrame [3; 1; 2] [("a", [Some 30; None; Some 20]); ("b", [Some 3; Some 1; None])].

(** A table on the days 2 and 4. *)
Definition other : DataFrame Z :=
  mkFrame [2; 4] [("c", [None; Some 44])].

End SmallTables.

(** ** What the pipeline needs from its providers *)

Module PipelineSpec.

Import Pd DataFetching.

Section Spec.

Context {V : Type}.
Variable yf_download : YahooRequest -> YahooFrame V.
Variable DataReader : FredRequest -> DataFrame V.
Variable clock : nat -> Py.datetime.

(** The download has a field "Close" (or is flat) with one column per
    Yahoo ticker. *)
Definition yahoo_ok (period interval : string) : Prop :=
  exists close0,
    close_prices (yf_download (yahoo_request period interval)) = Some close0
    /\ length (data close0) = length YAHOO_TICKERS.

(** The request of the i-th FRED entry can be built from the i-th
    clock reading, and its answer has one column. *)
Definition fred_ok (period : string) : Prop :=
  forall i label series,
    nth_error FRED_TICKERS i = Some (label, series) ->
    exists req,
      fred_request (clock i) series period = Some req
      /\ length (data (DataReader req)) = 1%nat.

(** No provider table carries a date twice. *)
Definition unique_dates : Prop :=
  (forall req, NoDup (index (DataReader req)))
  /\ (forall req close,
        close_prices (yf_download req) = Some close -> NoDup (index close)).

End Spec.

End PipelineSpec.

(** ** What the browser did: presses of the three buttons *)

Module CallbackSpec.

Import App.

Definition button_eqb (a b : Button) : bool :=
  match a, b with
  | BtnVol, BtnVol | BtnDd, BtnDd | BtnCorr, BtnCorr => true
  | _, _ => false
  end.

(** How often a button was pressed. *)
Definition times_pressed (b : Button) (presses : list Button) : Z :=
  Z.of_nat (length (filter (button_eqb b) presses)).

(** The place of a button in the [buttons] dictionary of line 95. *)
Definition button_rank (b : Button) : nat :=
  match b with
  | BtnVol => 0
  | BtnDd => 1
  | BtnCorr => 2
  end.

End CallbackSpec.

(** ** A table of quotes for the rescaling of data_fetching_v1.py *)

Module SamplesV1.

Import Pd.

(** A yield quoted at ten times its value, and an index. *)
Definition quotes : App.Frame :=
  mkFrame [739615; 739616]
    [ ("3M_TBill", map Float.of_Z [43; 44]);
      ("Nasdaq", [Float.of_Z 100; None]) ].

End SamplesV1.

(** * Properties of the merge pipeline *)

Module DataFetchingFacts.

Import Pd DataFetching.

Section Requests.

Context {V : Type}.
Variable yf_download : YahooRequest -> YahooFrame V.
Variable DataReader : FredRequest -> DataFrame V.
Variable clock : nat -> Py.datetime.

Lemma effective_interval_long (period interval : string) :
  period = "180d" \/ period = "1y" ->
  effective_interval period interval = "1d".
Proof.
  intros [-> | ->]; reflexivity.
Qed.

Lemma effective_interval_other (period interval : string) :
  period <> "180d" -> period <> "1y" ->
  effective_interval period interval = interval.
Proof.
  intros H1 H2. unfold effective_interval. simpl.
  destruct (String.eqb_spec period "180d"); [contradiction|].
  destruct (String.eqb_spec period "1y"); [contradiction|].
  reflexivity.
Qed.

(** C8. For the lookbacks "180d" and "1y" the request sent to
    yfinance carries the interval "1d" whatever interval was asked
    for, so the pipeline returns what it returns for "1d"; for any
    other lookback the request carries the interval that was asked
    for.  The tickers and the period are passed as they are. *)
Theorem interval_forced_to_daily (period interval : string) :
  (period = "180d" \/ period = "1y" ->
     yahoo_request period interval
     = mkYahooRequest (Py.values YAHOO_TICKERS) period "1d"
     /\ fetch_cross_asset_data yf_download DataReader clock period interval
        = fetch_cross_asset_data yf_download DataReader clock period "1d")
  /\ (period <> "180d" -> period <> "1y" ->
        yahoo_request period interval
        = mkYahooRequest (Py.values YAHOO_TICKERS) period interval).
Proof.
  split.
  - intros H. unfold fetch_cross_asset_data, yahoo_request.
    rewrite !(effective_interval_long period _ H). split; reflexivity.
  - intros H1 H2. unfold yahoo_request.
    rewrite (effective_interval_other period interval H1 H2). reflexivity.
Qed.

Lemma lookback_days_no_d (period : string) :
  Py.contains "d" period = false -> lookback_days period = Some 365.
Proof.
  intros H. unfold lookback_days. rewrite H. reflexivity.
Qed.

Lemma fred_request_365 (now : Py.datetime) (series : string) :
  365 * Py.us_per_day <= now <= Py.datetime_max ->
  fred_request now series "1y"
  = Some (mkFredRequest series (now - 365 * Py.us_per_day) now).
Proof.
  intros [Hlo Hhi]. unfold fred_request.
  change (lookback_days "1y") with (Some 365). cbn [bind].
  change (Py.timedelta_days 365) with (Some (365 * Py.us_per_day)).
  cbn [bind]. unfold Py.datetime_sub.
  destruct (Z.leb_spec 0 (now - 365 * Py.us_per_day)); [|lia].
  destruct (Z.leb_spec (now - 365 * Py.us_per_day) Py.datetime_max);
    [reflexivity|].
  unfold Py.us_per_day in *. lia.
Qed.

(** C10. A period without the character "d" gets a lookback of 365
    days: its FRED request is the one of "1y", and at any clock
    reading from which 365 days can be subtracted that request asks
    for the range from [now - 365 days] to [now], which is what
    [fetch_fred_series] hands to the reader. *)
Theorem fred_lookback_defaults_to_365
        (now : Py.datetime) (series period : string) :
  Py.contains "d" period = false ->
  lookback_days period = Some 365
  /\ fred_request now series period = fred_request now series "1y"
  /\ (365 * Py.us_per_day <= now <= Py.datetime_max ->
      fred_request now series period
      = Some (mkFredRequest series (now - 365 * Py.us_per_day) now)
      /\ fetch_fred_series DataReader now series period
         = Some (fill (DataReader
               (mkFredRequest series (now - 365 * Py.us_per_day) now)))).
Proof.
  intros H. pose proof (lookback_days_no_d period H) as Hd.
  assert (Heq : fred_request now series period = fred_request now series "1y").
  { unfold fred_request. rewrite Hd. reflexivity. }
  repeat split; try assumption.
  - rewrite Heq. now apply fred_request_365.
  - unfold fetch_fred_series. rewrite Heq, fred_request_365 by assumption.
    reflexivity.
Qed.

End Requests.

(** A request without a unit, at noon of 2026-01-01. *)
Lemma fred_lookback_defaults_to_365_witness :
  lookback_days "30" = Some 365
  /\ fred_request (Samples.clock 0) "DGS10" "30"
     = fred_request (Samples.clock 0) "DGS10" "1y"
  /\ fred_request (Samples.clock 0) "DGS10" "30"
     = Some (mkFredRequest "DGS10"
                           (Samples.clock 0 - 365 * Py.us_per_day)
                           (Samples.clock 0)).
Proof.
  pose proof (fred_lookback_defaults_to_365
                (fun _ : FredRequest => mkFrame (V := Z) [] [])
                (Samples.clock 0) "DGS10" "30" eq_refl)
    as [H1 [H2 H3]].
  split; [exact H1|]. split; [exact H2|].
  destruct H3 as [H3 _]; [vm_compute; split; discriminate|].
  exact H3.
Defined.

Lemma interval_forced_to_daily_witness :
  yahoo_request "1y" "1h"
  = mkYahooRequest (Py.values YAHOO_TICKERS) "1y" "1d"
  /\ yahoo_request "5d" "1h"
     = mkYahooRequest (Py.values YAHOO_TICKERS) "5d" "1h".
Proof.
  pose proof (interval_forced_to_daily
                (fun _ => @Flat Z (mkFrame [] []))
                (fun _ => mkFrame [] []) (fun _ => 0) "1y" "1h") as [H1 _].
  pose proof (interval_forced_to_daily
                (fun _ => @Flat Z (mkFrame [] []))
                (fun _ => mkFrame [] []) (fun _ => 0) "5d" "1h") as [_ H2].
  split.
  - apply H1. right. reflexivity.
  - apply H2; discriminate.
Defined.

End DataFetchingFacts.

(** * Properties of the pandas model *)

Module PdFacts.

Import Pd.

Section Fill.

Context {V : Type}.
Implicit Types c : list (cell V).

Lemma ffill_from_length last c :
  length (ffill_from last c) = length c.
Proof.
  revert last. induction c as [|[v|] r IH]; intros last; simpl;
    [reflexivity | now rewrite IH | now rewrite IH].
Qed.

Lemma bfill_col_length c : length (bfill_col c) = length c.
Proof.
  induction c as [|[v|] r IH]; simpl; [reflexivity | now rewrite IH..].
Qed.

Lemma ffill_no_na last c : no_na c -> ffill_from last c = c.
Proof.
  revert last. induction c as [|[v|] r IH]; intros last H; simpl.
  - reflexivity.
  - inversion H; subst. now rewrite IH.
  - inversion H; subst. congruence.
Qed.

Lemma bfill_no_na c : no_na c -> bfill_col c = c.
Proof.
  induction c as [|[v|] r IH]; intros H; simpl.
  - reflexivity.
  - inversion H; subst. now rewrite IH.
  - inversion H; subst. congruence.
Qed.

Lemma ffill_all_na c : all_na c -> ffill_col c = c.
Proof.
  unfold ffill_col.
  induction c as [|[v|] r IH]; intros H; simpl.
  - reflexivity.
  - inversion H; subst. discriminate.
  - inversion H; subst. now rewrite IH.
Qed.

Lemma bfill_all_na c : all_na c -> bfill_col c = c.
Proof.
  induction c as [|[v|] r IH]; intros H; simpl.
  - reflexivity.
  - inversion H; subst. discriminate.
  - inversion H as [|? ? _ Hr]; subst. rewrite (IH Hr).
    destruct Hr as [|x l Hx _]; simpl; [reflexivity | now rewrite Hx].
Qed.

Lemma ffill_from_some v c : no_na (ffill_from (Some v) c).
Proof.
  revert v. induction c as [|[w|] r IH]; intros v; simpl.
  - constructor.
  - constructor; [discriminate | apply IH].
  - constructor; [discriminate | apply IH].
Qed.

Lemma ffill_leading c : leading_na (ffill_col c).
Proof.
  unfold ffill_col.
  induction c as [|[v|] r IH]; simpl.
  - constructor.
  - constructor; [discriminate | apply ffill_from_some].
  - exact IH.
Qed.

(** After forward and backward fill a column has no gap left, unless
    it never held a value. *)
Lemma bfill_leading c :
  leading_na c -> no_na (bfill_col c) \/ all_na (bfill_col c).
Proof.
  induction c as [|[v|] r IH]; simpl; intros H.
  - left. constructor.
  - left. inversion H; subst. rewrite bfill_no_na by assumption.
    constructor; [discriminate | assumption].
  - destruct (IH H) as [Hs | Hn].
    + destruct (bfill_col r) as [|x l] eqn:E; simpl.
      * right. repeat constructor.
      * left. inversion Hs; subst. constructor; [assumption|].
        constructor; assumption.
    + right. destruct Hn as [|x l Hx Hl]; simpl.
      * repeat constructor.
      * subst x. repeat constructor. assumption.
Qed.

Lemma fill_col_filled c :
  no_na (bfill_col (ffill_col c)) \/ all_na (bfill_col (ffill_col c)).
Proof.
  apply bfill_leading, ffill_leading.
Qed.

Lemma fill_col_idempotent c :
  bfill_col (ffill_col (bfill_col (ffill_col c))) = bfill_col (ffill_col c).
Proof.
  destruct (fill_col_filled c) as [H | H].
  - unfold ffill_col at 1. rewrite (ffill_no_na None _ H).
    now apply bfill_no_na.
  - rewrite (ffill_all_na _ H). now apply bfill_all_na.
Qed.

Lemma map_cols_map_cols (f g : list (cell V) -> list (cell V)) df :
  map_cols f (map_cols g df) = map_cols (fun c => f (g c)) df.
Proof.
  unfold map_cols. simpl. rewrite map_map. reflexivity.
Qed.

Lemma map_cols_ext (f g : list (cell V) -> list (cell V)) df :
  (forall l c, In (l, c) (data df) -> f c = g c) ->
  map_cols f df = map_cols g df.
Proof.
  intros H. unfold map_cols. f_equal. apply map_ext_in.
  intros [l c] Hin. simpl. f_equal. eapply H, Hin.
Qed.

(** Line 43 twice is line 43 once. *)
Lemma fill_idempotent (df : DataFrame V) :
  DataFetching.fill (DataFetching.fill df) = DataFetching.fill df.
Proof.
  unfold DataFetching.fill, bfill, ffill.
  rewrite !map_cols_map_cols. apply map_cols_ext.
  intros l c _. apply fill_col_idempotent.
Qed.

End Fill.

Section Sort.

Lemma insert_by_date_perm x l :
  Permutation (insert_by_date x l) (x :: l).
Proof.
  induction l as [|y r IH]; simpl.
  - apply Permutation_refl.
  - destruct (fst x <=? fst y).
    + apply Permutation_refl.
    + eapply perm_trans; [apply perm_skip, IH | apply perm_swap].
Qed.

Lemma sort_by_date_perm l : Permutation (sort_by_date l) l.
Proof.
  induction l as [|x r IH]; simpl.
  - constructor.
  - eapply perm_trans; [apply insert_by_date_perm | now apply perm_skip].
Qed.

Lemma insert_by_date_sorted x l :
  StronglySorted key_le l -> StronglySorted key_le (insert_by_date x l).
Proof.
  induction 1 as [|y r Hr IH Hy]; simpl.
  - repeat constructor.
  - destruct (Z.leb_spec (fst x) (fst y)) as [Hle | Hgt].
    + constructor; [constructor; assumption|].
      constructor; [exact Hle|].
      eapply Forall_impl; [|exact Hy].
      intros z Hz. unfold key_le in *. lia.
    + constructor; [exact IH|].
      eapply Permutation_Forall;
        [apply Permutation_sym, insert_by_date_perm|].
      constructor; [unfold key_le; lia | exact Hy].
Qed.

Lemma sort_by_date_sorted l : StronglySorted key_le (sort_by_date l).
Proof.
  induction l as [|x r IH]; simpl.
  - constructor.
  - now apply insert_by_date_sorted.
Qed.

(** Sorting a sorted list changes nothing. *)
Lemma sort_by_date_id l : StronglySorted key_le l -> sort_by_date l = l.
Proof.
  induction 1 as [|x r Hr IH Hx]; simpl.
  - reflexivity.
  - rewrite IH. destruct Hx as [|y r' Hy _]; simpl; [reflexivity|].
    unfold key_le in Hy. destruct (Z.leb_spec (fst x) (fst y)); [reflexivity | lia].
Qed.

Lemma combine_seq_nth (idx : list date) s k i :
  In (k, i) (combine idx (seq s (length idx))) ->
  (s <= i)%nat /\ nth (i - s) idx 0 = k /\ (i - s < length idx)%nat.
Proof.
  revert s. induction idx as [|d r IH]; intros s; simpl.
  - contradiction.
  - intros [H | H].
    + inversion H; subst. rewrite Nat.sub_diag. repeat split; lia.
    + apply IH in H as (H1 & H2 & H3).
      replace (i - s)%nat with (S (i - S s)) by lia.
      repeat split; [lia | exact H2 | lia].
Qed.

Lemma map_fst_combine_seq (idx : list date) s :
  map fst (combine idx (seq s (length idx))) = idx.
Proof.
  revert s. induction idx as [|d r IH]; intros s; simpl;
    [reflexivity | now rewrite IH].
Qed.

Lemma map_snd_combine_seq (idx : list date) s :
  map snd (combine idx (seq s (length idx))) = seq s (length idx).
Proof.
  revert s. induction idx as [|d r IH]; intros s; simpl;
    [reflexivity | now rewrite IH].
Qed.

(** Taking the rows in sorted order yields the sorted labels. *)
Lemma take_argsort_index (idx : list date) :
  map (fun i => nth i idx 0) (argsort idx)
  = map fst (sort_by_date (combine idx (seq 0 (length idx)))).
Proof.
  unfold argsort. rewrite map_map. apply map_ext_in.
  intros [k i] Hin. simpl.
  eapply Permutation_in in Hin; [|apply sort_by_date_perm].
  apply combine_seq_nth in Hin as (_ & H & _).
  now rewrite Nat.sub_0_r in H.
Qed.

Lemma sorted_map_fst l :
  StronglySorted key_le l <-> StronglySorted Z.le (map fst l).
Proof.
  induction l as [|x r IH]; simpl.
  - split; constructor.
  - split; intros H; inversion H; subst; constructor;
      try (apply IH; assumption).
    + rewrite Forall_map. assumption.
    + rewrite Forall_map in *. assumption.
Qed.

Lemma sort_dates_sorted (idx : list date) :
  StronglySorted Z.le
    (map fst (sort_by_date (combine idx (seq 0 (length idx))))).
Proof.
  apply sorted_map_fst, sort_by_date_sorted.
Qed.

Lemma sort_dates_perm (idx : list date) :
  Permutation
    (map fst (sort_by_date (combine idx (seq 0 (length idx))))) idx.
Proof.
  eapply perm_trans; [apply Permutation_map, sort_by_date_perm|].
  rewrite map_fst_combine_seq. apply Permutation_refl.
Qed.

Lemma argsort_sorted (idx : list date) :
  StronglySorted Z.le idx -> argsort idx = seq 0 (length idx).
Proof.
  intros H. unfold argsort. rewrite sort_by_date_id.
  - apply map_snd_combine_seq.
  - apply sorted_map_fst. now rewrite map_fst_combine_seq.
Qed.

Lemma sorted_nodup_strict (l : list date) :
  StronglySorted Z.le l -> NoDup l -> StronglySorted Z.lt l.
Proof.
  induction 1 as [|x r Hr IH Hx]; intros Hnd.
  - constructor.
  - inversion Hnd as [|? ? Hnotin Hnd']; subst.
    constructor; [now apply IH|].
    rewrite Forall_forall in *. intros y Hy.
    specialize (Hx y Hy).
    assert (x <> y) by (intros ->; contradiction). lia.
Qed.

End Sort.

Section Take.

Context {V : Type}.
Implicit Types df : DataFrame V.

Lemma map_nth_seq {A : Type} (l : list A) (d : A) :
  map (fun i => nth i l d) (seq 0 (length l)) = l.
Proof.
  induction l as [|x r IH]; simpl; [reflexivity|].
  f_equal. rewrite <- seq_shift, map_map. exact IH.
Qed.

Lemma take_all df :
  rectangular df -> take (seq 0 (n_rows df)) df = df.
Proof.
  intros H. destruct df as [idx cols].
  unfold rectangular, n_rows in H. simpl in H. rewrite Forall_forall in H.
  unfold take, n_rows. simpl. f_equal.
  - apply map_nth_seq.
  - rewrite <- (map_id cols) at 2. apply map_ext_in.
    intros [l c] Hin. simpl. f_equal. unfold take_col.
    specialize (H _ Hin). simpl in H. rewrite <- H. apply map_nth_seq.
Qed.

Lemma take_rectangular pos df : rectangular (take pos df).
Proof.
  unfold rectangular, take, n_rows. simpl.
  rewrite Forall_map. apply Forall_forall. intros [l c] _. simpl.
  unfold take_col. now rewrite !length_map.
Qed.

Lemma map_cols_rectangular (f : list (cell V) -> list (cell V)) df :
  (forall c, length (f c) = length c) ->
  rectangular df -> rectangular (map_cols f df).
Proof.
  intros Hf H. unfold rectangular, map_cols, n_rows in *. simpl.
  rewrite Forall_map. eapply Forall_impl; [|exact H].
  intros [l c] Hc. simpl in *. now rewrite Hf.
Qed.

Lemma index_sort_index df :
  index (sort_index df) = sort_dates (index df).
Proof.
  unfold sort_index, take. simpl. apply take_argsort_index.
Qed.

Lemma sort_index_sorted df :
  StronglySorted Z.le (index df) -> rectangular df -> sort_index df = df.
Proof.
  intros Hs Hr. unfold sort_index. rewrite argsort_sorted by assumption.
  now apply take_all.
Qed.

Lemma sort_and_fill_rectangular df :
  rectangular (DataFetching.sort_and_fill df).
Proof.
  unfold DataFetching.sort_and_fill, bfill, ffill.
  apply map_cols_rectangular; [apply bfill_col_length|].
  apply map_cols_rectangular; [apply ffill_from_length|].
  apply take_rectangular.
Qed.

Lemma index_sort_and_fill df :
  index (DataFetching.sort_and_fill df) = sort_dates (index df).
Proof.
  unfold DataFetching.sort_and_fill. simpl. apply index_sort_index.
Qed.

(** Line 80 twice is line 80 once. *)
Lemma sort_and_fill_idempotent df :
  DataFetching.sort_and_fill (DataFetching.sort_and_fill df)
  = DataFetching.sort_and_fill df.
Proof.
  unfold DataFetching.sort_and_fill at 1.
  rewrite sort_index_sorted.
  - apply (fill_idempotent (sort_index df)).
  - rewrite index_sort_and_fill. apply sort_dates_sorted.
  - apply sort_and_fill_rectangular.
Qed.

End Take.

Section Concat.

Context {V : Type}.
Implicit Types df : DataFrame V.

Lemma mem_In d l : mem d l = true <-> In d l.
Proof.
  unfold mem. rewrite existsb_exists. split.
  - intros (x & Hx & E). apply Z.eqb_eq in E. now subst.
  - intros H. exists d. split; [assumption | apply Z.eqb_refl].
Qed.

Lemma union_index_nodup a b :
  NoDup a -> NoDup b -> NoDup (union_index a b).
Proof.
  intros Ha Hb. unfold union_index.
  apply NoDup_app; [assumption | now apply NoDup_filter |].
  intros d Hd Hf. apply filter_In in Hf as [_ Hf].
  apply Bool.negb_true_iff in Hf.
  apply mem_In in Hd. congruence.
Qed.

Lemma same_index_eq (a b : list date) : same_index a b = true <-> a = b.
Proof.
  revert b. induction a as [|x a' IH]; intros [|y b']; cbn [same_index];
    try (split; [discriminate | discriminate]); [tauto|].
  rewrite Bool.andb_true_iff, Z.eqb_eq, IH. split.
  - intros [-> ->]. reflexivity.
  - intros E. inversion E. split; reflexivity.
Qed.

Lemma is_unique_nodup (l : list date) : is_unique l = true <-> NoDup l.
Proof.
  induction l as [|d r IH]; cbn [is_unique].
  - split; [constructor | reflexivity].
  - rewrite Bool.andb_true_iff, Bool.negb_true_iff, IH. split.
    + intros [Hm Hr]. constructor; [|assumption].
      intros Hin. apply mem_In in Hin. congruence.
    + intros H. inversion H as [|? ? Hn Hr]; subst. split; [|assumption].
      apply Bool.not_true_is_false. intros Hm. apply Hn. now apply mem_In.
Qed.

Lemma remove_one_In (d x : date) (l : list date) :
  In x (remove_one d l) -> In x l.
Proof.
  induction l as [|y r IH]; cbn [remove_one]; [tauto|].
  destruct (y =? d); [now right|].
  intros [E | H]; [now left | right; now apply IH].
Qed.

Lemma remove_one_other (d x : date) (l : list date) :
  x <> d -> In x l -> In x (remove_one d l).
Proof.
  intros Hne. induction l as [|y r IH]; cbn [remove_one]; [tauto|].
  destruct (Z.eqb_spec y d) as [-> | _].
  - intros [E | H]; [congruence | assumption].
  - intros [E | H]; [now left | right; now apply IH].
Qed.

Lemma remove_one_nodup (d : date) (l : list date) :
  NoDup l -> NoDup (remove_one d l) /\ ~ In d (remove_one d l).
Proof.
  induction 1 as [|y r Hy Hr IH]; cbn [remove_one].
  - split; [constructor | tauto].
  - destruct (Z.eqb_spec y d) as [-> | Hne]; [now split|].
    destruct IH as [IH1 IH2]. split.
    + constructor; [|assumption]. intros H. apply Hy.
      eapply remove_one_In; eassumption.
    + intros [E | H]; [congruence | contradiction].
Qed.

Lemma beyond_In (a b : list date) (x : date) :
  In x (beyond a b) -> In x b.
Proof.
  unfold beyond. revert b. induction a as [|d r IH]; intros b;
    cbn [fold_left]; [tauto|].
  intros H. apply IH in H. eapply remove_one_In; eassumption.
Qed.

Lemma beyond_other (a b : list date) (x : date) :
  In x b -> ~ In x a -> In x (beyond a b).
Proof.
  unfold beyond. revert b. induction a as [|d r IH]; intros b Hb Ha;
    cbn [fold_left]; [assumption|].
  apply IH.
  - apply remove_one_other; [|assumption]. intros ->. apply Ha. now left.
  - intros H. apply Ha. now right.
Qed.

Lemma beyond_nodup (a b : list date) :
  NoDup b ->
  NoDup (beyond a b) /\ forall x, In x (beyond a b) -> ~ In x a.
Proof.
  unfold beyond. revert b. induction a as [|d r IH]; intros b Hb;
    cbn [fold_left].
  - split; [assumption | tauto].
  - destruct (remove_one_nodup d b Hb) as [H1 H2].
    destruct (IH _ H1) as [IH1 IH2]. split; [assumption|].
    intros x Hx [E | Hin]; [|exact (IH2 x Hx Hin)].
    subst x. apply H2. exact (beyond_In r _ d Hx).
Qed.

Lemma sort_dates_In (l : list date) (d : date) :
  In d (sort_dates l) <-> In d l.
Proof.
  unfold sort_dates. split; apply Permutation_in;
    [|apply Permutation_sym]; apply sort_dates_perm.
Qed.

Lemma index_union_In (a b : list date) (d : date) :
  In d (index_union a b) <-> In d a \/ In d b.
Proof.
  unfold index_union. destruct a as [|x a'], b as [|y b'];
    try (cbn [In]; tauto).
  destruct (same_index (x :: a') (y :: b')) eqn:E.
  - apply same_index_eq in E. rewrite <- E. tauto.
  - rewrite sort_dates_In, in_app_iff. split.
    + intros [H | H]; [now left | right; eapply beyond_In; eassumption].
    + intros [H | H]; [now left|].
      destruct (in_dec Z.eq_dec d (x :: a')) as [Hin | Hn]; [now left|].
      right. now apply beyond_other.
Qed.

Lemma index_union_nodup (a b : list date) :
  NoDup a -> NoDup b -> NoDup (index_union a b).
Proof.
  intros Ha Hb. unfold index_union. destruct a as [|x a'], b as [|y b'];
    try assumption.
  destruct (same_index (x :: a') (y :: b')); [assumption|].
  eapply Permutation_NoDup;
    [apply Permutation_sym, sort_dates_perm|].
  destruct (beyond_nodup (x :: a') (y :: b') Hb) as [H1 H2].
  apply NoDup_app; [assumption | assumption|].
  intros d Hd Hin. exact (H2 d Hin Hd).
Qed.

(** The combined labels are in increasing order, unless they are the
    labels of one of the tables. *)
Lemma index_union_sorted (a b : list date) :
  index_union a b = a \/ index_union a b = b
  \/ StronglySorted Z.le (index_union a b).
Proof.
  unfold index_union. destruct a as [|x a'], b as [|y b'];
    try (now left); try (right; now left).
  destruct (same_index (x :: a') (y :: b')); [now left|].
  right; right. apply sort_dates_sorted.
Qed.

Lemma fold_union_In (ls : list (list date)) (a : list date) (d : date) :
  In d (fold_left index_union ls a) <-> In d a \/ Exists (In d) ls.
Proof.
  revert a. induction ls as [|b r IH]; intros a; cbn [fold_left].
  - split; [now left | intros [H | H]; [assumption | inversion H]].
  - rewrite IH, index_union_In, Exists_cons. tauto.
Qed.

Lemma fold_union_nodup (ls : list (list date)) a :
  NoDup a -> Forall (@NoDup date) ls ->
  NoDup (fold_left index_union ls a).
Proof.
  revert a. induction ls as [|b r IH]; intros a Ha Hls; simpl.
  - assumption.
  - inversion Hls; subst. apply IH; [|assumption].
    now apply index_union_nodup.
Qed.

Lemma fold_union_sorted (ls : list (list date)) (a : list date) :
  In (fold_left index_union ls a) (a :: ls)
  \/ StronglySorted Z.le (fold_left index_union ls a).
Proof.
  revert a. induction ls as [|b r IH]; intros a; cbn [fold_left].
  - left. now left.
  - destruct (IH (index_union a b)) as [[E | Hin] | Hs].
    + rewrite <- E.
      destruct (index_union_sorted a b) as [-> | [-> | Hs]].
      * left. now left.
      * left. right. now left.
      * now right.
    + left. right. now right.
    + now right.
Qed.

Lemma mapM_In {A B : Type} (f : A -> option B) (l : list A) (bs : list B)
      (a : A) :
  mapM f l = Some bs -> In a l -> exists b, f a = Some b /\ In b bs.
Proof.
  revert bs. induction l as [|x r IH]; intros bs H Hin; [contradiction|].
  cbn [mapM] in H. destruct (f x) as [y|] eqn:Ex; [|discriminate].
  cbn [bind] in H. destruct (mapM f r) as [ys|]; [|discriminate].
  cbn [bind] in H. inversion H; subst; clear H.
  destruct Hin as [-> | Hin].
  - exists y. split; [assumption | now left].
  - destruct (IH ys eq_refl Hin) as (b & Hb & Hbs).
    exists b. split; [assumption | now right].
Qed.

Lemma mapM_Some {A B : Type} (f : A -> option B) (l : list A) :
  (forall a, In a l -> f a <> None) -> exists bs, mapM f l = Some bs.
Proof.
  induction l as [|a r IH]; intros H; cbn [mapM].
  - now exists [].
  - destruct (f a) as [b|] eqn:E;
      [|exfalso; apply (H a); [now left | exact E]].
    destruct IH as [bs Hbs]; [intros x Hx; apply H; now right|].
    rewrite Hbs. cbn [bind]. now exists (b :: bs).
Qed.

Lemma mapM_fail {A B : Type} (f : A -> option B) (l : list A) (a : A) :
  In a l -> f a = None -> mapM f l = None.
Proof.
  induction l as [|x r IH]; intros Hin E; [contradiction|]. cbn [mapM].
  destruct Hin as [-> | Hin]; [now rewrite E|].
  destruct (f x); [|reflexivity]. cbn [bind]. now rewrite IH.
Qed.

(** What [concat] returns. *)
Lemma concat_inv (frames : list (DataFrame V)) df :
  concat frames = Some df ->
  exists f fs cols,
    frames = f :: fs
    /\ mapM (realign (index df)) frames = Some cols
    /\ index df = fold_left index_union (map index fs) (index f)
    /\ data df = flat_map (fun c => c) cols.
Proof.
  destruct frames as [|f fs]; [discriminate|]. unfold concat.
  destruct (mapM _ (f :: fs)) as [cols|] eqn:E; [|discriminate].
  cbn [bind]. intros H. inversion H; subst; clear H. cbn [index data].
  exists f, fs, cols. repeat split. exact E.
Qed.

(** [concat] raises exactly on an empty list and when a table that
    repeats a label would have to be realigned. *)
Lemma concat_returns (frames : list (DataFrame V)) :
  concat frames <> None
  <-> exists f fs,
        frames = f :: fs
        /\ forall g, In g frames ->
              index g = fold_left index_union (map index fs) (index f)
              \/ NoDup (index g).
Proof.
  split.
  - intros H. destruct frames as [|f fs]; [contradiction|].
    exists f, fs. split; [reflexivity|]. intros g Hg.
    unfold concat in H.
    destruct (mapM _ (f :: fs)) as [cols|] eqn:E; [|contradiction].
    destruct (mapM_In _ _ _ g E Hg) as (c & Hc & _).
    unfold realign in Hc.
    destruct (same_index (index g) _) eqn:Es;
      [left; now apply same_index_eq|].
    destruct (is_unique (index g)) eqn:Eu; [|discriminate].
    right. now apply is_unique_nodup.
  - intros (f & fs & -> & H). unfold concat.
    destruct (mapM_Some
                (realign (fold_left index_union (map index fs) (index f)))
                (f :: fs)) as [cols ->]; [|discriminate].
    intros g Hg. unfold realign.
    destruct (H g Hg) as [E | Hnd].
    + apply same_index_eq in E. rewrite E. discriminate.
    + destruct (same_index (index g) _); [discriminate|].
      apply is_unique_nodup in Hnd. rewrite Hnd. discriminate.
Qed.

Lemma realign_columns (idx : list date) (g : DataFrame V) cols :
  realign idx g = Some cols -> map fst cols = columns g.
Proof.
  unfold realign. destruct (same_index (index g) idx).
  - intros H. inversion H. reflexivity.
  - destruct (is_unique (index g)); [|discriminate].
    intros H. inversion H. unfold reindex, columns. cbn [data].
    rewrite map_map. reflexivity.
Qed.

Lemma concat_index_In (frames : list (DataFrame V)) df (d : date) :
  concat frames = Some df ->
  In d (index df) <-> Exists (fun f => In d (index f)) frames.
Proof.
  intros H. apply concat_inv in H as (f & fs & cols & -> & _ & -> & _).
  rewrite fold_union_In, Exists_cons, Exists_map. reflexivity.
Qed.

Lemma concat_index (frames : list (DataFrame V)) df :
  concat frames = Some df ->
  Forall (fun f => NoDup (index f)) frames -> NoDup (index df).
Proof.
  intros H Hnd. apply concat_inv in H as (f & fs & cols & -> & _ & -> & _).
  inversion Hnd; subst. apply fold_union_nodup; [assumption|].
  now rewrite Forall_map.
Qed.

Lemma concat_part (frames : list (DataFrame V)) df (g : DataFrame V) :
  concat frames = Some df -> In g frames ->
  exists cols,
    realign (index df) g = Some cols
    /\ forall lc, In lc cols -> In lc (data df).
Proof.
  intros H Hg. apply concat_inv in H as (f & fs & cols & -> & Hm & _ & Hd).
  destruct (mapM_In _ _ _ g Hm Hg) as (c & Hc & Hin).
  exists c. split; [assumption|]. intros lc Hlc. rewrite Hd.
  apply in_flat_map. now exists c.
Qed.

Lemma set_columns_Some labels df df' :
  set_columns labels df = Some df' ->
  length labels = length (data df)
  /\ df' = mkFrame (index df) (combine labels (map snd (data df))).
Proof.
  unfold set_columns.
  destruct (Nat.eqb_spec (length labels) (length (data df))) as [E|];
    [|discriminate].
  intros H. inversion H. split; [assumption | reflexivity].
Qed.

Lemma set_columns_index labels df df' :
  set_columns labels df = Some df' -> index df' = index df.
Proof.
  intros H. apply set_columns_Some in H as [_ ->]. reflexivity.
Qed.

Lemma nth_all_na (c : list (cell V)) i : all_na c -> nth i c None = None.
Proof.
  intros H. revert i. induction H as [|x l Hx _ IH]; intros [|i]; simpl;
    auto.
Qed.

Lemma take_col_all_na pos (c : list (cell V)) :
  all_na c -> all_na (take_col pos c).
Proof.
  intros H. unfold all_na, take_col. rewrite Forall_map.
  apply Forall_forall. intros i _. now apply nth_all_na.
Qed.

Lemma reindex_empty_all_na (new : list date) (c : list (cell V)) :
  all_na (map (fun d => lookup d [] c) new).
Proof.
  unfold all_na. rewrite Forall_map. apply Forall_forall.
  intros d _. reflexivity.
Qed.

(** A column of missing cells makes [dropna] drop every row. *)
Lemma dropna_all_na_column df l c :
  In (l, c) (data df) -> all_na c -> index (dropna df) = [].
Proof.
  intros Hin Hna. unfold dropna, take. simpl.
  rewrite (filter_ext_in _ (fun _ => false)), filter_false; [reflexivity|].
  intros i _.
  unfold row_complete. apply Bool.not_true_is_false. intros H.
  rewrite forallb_forall in H. specialize (H _ Hin). simpl in H.
  pose proof (nth_all_na c i Hna) as E. unfold cell in *.
  rewrite E in H. discriminate.
Qed.

(** A table without rows joins as columns that are empty once the
    rows are put in order. *)
Lemma realign_empty (idx : list date) (g : DataFrame V) cols l c0 :
  index g = [] -> realign idx g = Some cols -> In (l, c0) (data g) ->
  exists c1, In (l, c1) cols /\ all_na (take_col (argsort idx) c1).
Proof.
  intros Hg H Hin. unfold realign in H. rewrite Hg in H.
  destruct (same_index [] idx) eqn:E.
  - apply same_index_eq in E. subst idx. inversion H; subst.
    exists c0. split; [assumption | constructor].
  - cbn [is_unique] in H. inversion H; subst; clear H.
    exists (map (fun d => lookup d [] c0) idx). split.
    + unfold reindex. cbn [data]. rewrite Hg. apply in_map_iff.
      exists (l, c0). split; [reflexivity | assumption].
    + apply take_col_all_na, reindex_empty_all_na.
Qed.

End Concat.

End PdFacts.

(** * The merged panel *)

Module PipelineFacts.

Import Pd DataFetching PdFacts.

Lemma bind_Some {A B : Type} (m : option A) (k : A -> option B) (b : B) :
  bind m k = Some b -> exists a, m = Some a /\ k a = Some b.
Proof.
  destruct m as [a|]; simpl; [|discriminate]. intros H. now exists a.
Qed.

Ltac bind_inv H :=
  let x := fresh "x" in
  let E := fresh "E" in
  apply bind_Some in H as (x & E & H).

Section Panel.

Context {V : Type}.
Variable yf_download : YahooRequest -> YahooFrame V.
Variable DataReader : FredRequest -> DataFrame V.
Variable clock : nat -> Py.datetime.

Lemma fetch_fred_series_index now series period df :
  fetch_fred_series DataReader now series period = Some df ->
  exists req, index df = index (DataReader req).
Proof.
  unfold fetch_fred_series. intros H. bind_inv H.
  inversion H; subst. exists x. reflexivity.
Qed.

Lemma fetch_fred_frames_index k entries period frames :
  fetch_fred_frames DataReader clock k entries period = Some frames ->
  Forall (fun f => exists req, index f = index (DataReader req)) frames.
Proof.
  revert k frames. induction entries as [|[label series] r IH];
    intros k frames H; simpl in H.
  - inversion H. constructor.
  - bind_inv H. bind_inv H. bind_inv H. inversion H; subst.
    constructor; [|eapply IH; eassumption].
    apply fetch_fred_series_index in E as [req E].
    exists req. rewrite <- E. eapply set_columns_index; eassumption.
Qed.

(** What the pipeline returns, step by step. *)
Lemma fetch_cross_asset_data_steps period interval df :
  fetch_cross_asset_data yf_download DataReader clock period interval
  = Some df ->
  exists close0 close fred_frames df_fred_all merged,
    close_prices (yf_download (yahoo_request period interval)) = Some close0
    /\ set_columns (Py.keys YAHOO_TICKERS) close0 = Some close
    /\ fetch_fred_frames DataReader clock 0 FRED_TICKERS period
       = Some fred_frames
    /\ concat fred_frames = Some df_fred_all
    /\ concat [df_fred_all; close] = Some merged
    /\ df = sort_and_fill merged.
Proof.
  unfold fetch_cross_asset_data. intros H.
  bind_inv H. bind_inv H. bind_inv H. bind_inv H. bind_inv H.
  inversion H; subst.
  exists x, x0, x1, x2, x3. repeat split; assumption.
Qed.

(** C2. When each table handed over by the two providers carries no
    date twice, the dates of every panel the pipeline returns are in
    strictly increasing order; in particular none appears twice. *)
Theorem panel_index_strictly_increasing :
  (forall req, NoDup (index (DataReader req))) ->
  (forall req close,
      close_prices (yf_download req) = Some close -> NoDup (index close)) ->
  forall period interval df,
    fetch_cross_asset_data yf_download DataReader clock period interval
    = Some df ->
    StronglySorted Z.lt (index df) /\ NoDup (index df).
Proof.
  intros Hfred Hyahoo period interval df H.
  apply fetch_cross_asset_data_steps in H
    as (close0 & close & frames & fred_all & merged
        & Hc0 & Hc & Hf & Hfa & Hm & ->).
  assert (Hnd : NoDup (index merged)).
  { eapply concat_index; [exact Hm|].
    constructor; [|constructor; [|constructor]].
    - eapply concat_index; [exact Hfa|].
      eapply Forall_impl; [|eapply fetch_fred_frames_index; exact Hf].
      intros f [req ->]. apply Hfred.
    - rewrite (set_columns_index _ _ _ Hc). eapply Hyahoo, Hc0. }
  rewrite index_sort_and_fill. unfold sort_dates.
  assert (Hnd' : NoDup (map fst (sort_by_date
                  (combine (index merged) (seq 0 (length (index merged))))))).
  { eapply Permutation_NoDup; [|exact Hnd].
    apply Permutation_sym, sort_dates_perm. }
  split; [|exact Hnd'].
  apply sorted_nodup_strict; [apply sort_dates_sorted | exact Hnd'].
Qed.

(** C4. The fill step of the pipeline (sort by date, forward-fill,
    backward-fill) applied to its own result returns that result
    unchanged, for every table; so does the fill step of
    [fetch_fred_series] (forward-fill, backward-fill). *)
Theorem fill_step_idempotent (df : DataFrame V) :
  sort_and_fill (sort_and_fill df) = sort_and_fill df
  /\ fill (fill df) = fill df.
Proof.
  split; [apply sort_and_fill_idempotent | apply fill_idempotent].
Qed.

Lemma combine_In_fst {A B : Type} (l : list A) (l' : list B) a :
  length l = length l' -> In a l -> exists b, In (a, b) (combine l l').
Proof.
  revert l'. induction l as [|x r IH]; intros [|y r'] E Hin; simpl in *;
    try discriminate; try contradiction.
  destruct Hin as [-> | Hin].
  - exists y. now left.
  - destruct (IH r') as [b Hb]; [congruence | assumption |].
    exists b. now right.
Qed.

Lemma yahoo_columns_missing period interval df :
  yahoo_no_data yf_download ->
  fetch_cross_asset_data yf_download DataReader clock period interval
  = Some df ->
  forall label, In label (Py.keys YAHOO_TICKERS) ->
    exists c, In (label, c) (data df) /\ all_na c.
Proof.
  unfold yahoo_no_data. intros Hno H label Hl.
  apply fetch_cross_asset_data_steps in H
    as (close0 & close & frames & fred_all & merged
        & Hc0 & Hc & Hf & Hfa & Hm & ->).
  pose proof (set_columns_index _ _ _ Hc) as Hidx.
  rewrite (Hno _ _ Hc0) in Hidx.
  assert (Hcol : exists c0, In (label, c0) (data close)).
  { apply set_columns_Some in Hc as [E ->]. cbn [data].
    apply combine_In_fst; [now rewrite length_map | exact Hl]. }
  destruct Hcol as [c0 Hc0in].
  destruct (concat_part _ _ close Hm) as (cols & Hre & Hincl);
    [right; now left|].
  destruct (realign_empty _ _ _ _ _ Hidx Hre Hc0in) as (c1 & Hc1 & Hna).
  exists (bfill_col (ffill_col (take_col (argsort (index merged)) c1))).
  split.
  - unfold sort_and_fill, bfill, ffill, map_cols, sort_index, take. simpl.
    rewrite !map_map. simpl. apply in_map_iff.
    exists (label, c1). split; [reflexivity | now apply Hincl].
  - rewrite (ffill_all_na _ Hna). now rewrite (bfill_all_na _ Hna).
Qed.

Lemma no_yahoo_data_dropna_empty period interval df :
  yahoo_no_data yf_download ->
  fetch_cross_asset_data yf_download DataReader clock period interval
  = Some df ->
  empty (dropna df) = true.
Proof.
  intros Hno H.
  destruct (yahoo_columns_missing period interval df Hno H "Nasdaq")
    as (c & Hin & Hna); [now left|].
  unfold empty, n_rows.
  now rewrite (dropna_all_na_column df "Nasdaq" c Hin Hna).
Qed.

End Panel.

Lemma panel_index_strictly_increasing_witness :
  exists df,
    fetch_cross_asset_data Samples.yahoo_three_days Samples.fred_two_days
                           Samples.clock "180d" "1h" = Some df
    /\ index df = [739613; 739614; 739615; 739616]
    /\ StronglySorted Z.lt (index df) /\ NoDup (index df).
Proof.
  eexists. split; [vm_compute; reflexivity|]. split; [reflexivity|].
  apply (panel_index_strictly_increasing
           Samples.yahoo_three_days Samples.fred_two_days Samples.clock)
    with (period := "180d") (interval := "1h").
  - intros req. simpl. repeat constructor; simpl; intuition discriminate.
  - intros req close H. simpl in H. inversion H; subst; simpl.
    repeat constructor; simpl; intuition discriminate.
  - vm_compute. reflexivity.
Defined.

End PipelineFacts.

(** * Properties of the statistics *)

Module StatsFacts.

Import Stats.

Local Open Scope R_scope.

Lemma sum_map_nonneg {A : Type} (f : A -> R) (l : list A) :
  (forall x, In x l -> 0 <= f x) -> 0 <= sum (map f l).
Proof.
  induction l as [|a r IH]; intros H; simpl.
  - lra.
  - assert (0 <= f a) by (apply H; now left).
    assert (0 <= sum (map f r)) by (apply IH; intros x Hx; apply H; now right).
    lra.
Qed.

Lemma sum_map_ge {A : Type} (f : A -> R) (l : list A) (x : A) :
  (forall y, In y l -> 0 <= f y) -> In x l -> f x <= sum (map f l).
Proof.
  induction l as [|a r IH]; intros H Hin; simpl; [contradiction|].
  assert (0 <= f a) by (apply H; now left).
  assert (Hr : forall y, In y r -> 0 <= f y) by (intros y Hy; apply H; now right).
  pose proof (sum_map_nonneg f r Hr).
  destruct Hin as [-> | Hin].
  - lra.
  - specialize (IH Hr Hin). lra.
Qed.

Lemma sum_map_zero {A : Type} (f : A -> R) (l : list A) :
  (forall x, In x l -> f x = 0) -> sum (map f l) = 0.
Proof.
  induction l as [|a r IH]; intros H; simpl; [reflexivity|].
  rewrite (H a) by now left. rewrite IH; [lra|].
  intros x Hx. apply H. now right.
Qed.

Lemma sum_const (l : list R) (c : R) :
  (forall x, In x l -> x = c) -> sum l = INR (length l) * c.
Proof.
  induction l as [|a r IH]; intros H.
  - simpl. lra.
  - change (sum (a :: r)) with (a + sum r).
    rewrite IH by (intros x Hx; apply H; now right).
    rewrite (H a) by now left.
    cbn [length]. rewrite S_INR. lra.
Qed.

Lemma mean_const (l : list R) (c : R) :
  l <> [] -> (forall x, In x l -> x = c) -> mean l = c.
Proof.
  intros Hne H. unfold mean. rewrite (sum_const l c H).
  assert (0 < INR (length l)).
  { apply lt_0_INR. destruct l; [congruence | simpl; lia]. }
  field. lra.
Qed.

Lemma square_nonneg (r : R) : 0 <= r * r.
Proof.
  apply Rle_0_sqr.
Qed.

Lemma square_pos (r : R) : r <> 0 -> 0 < r * r.
Proof.
  apply Rsqr_pos_lt.
Qed.

Lemma ssqd_nonneg (l : list R) : 0 <= ssqd l.
Proof.
  unfold ssqd. apply sum_map_nonneg. intros x _. apply square_nonneg.
Qed.

(** Two different observations give a positive sum of squares. *)
Lemma ssqd_pos (l : list R) (a b : R) :
  In a l -> In b l -> a <> b -> 0 < ssqd l.
Proof.
  intros Ha Hb Hab. unfold ssqd. set (m := mean l).
  assert (Hnn : forall y, In y l -> 0 <= (y - m) * (y - m))
    by (intros; apply square_nonneg).
  pose proof (sum_map_ge (fun x => (x - m) * (x - m)) l a Hnn Ha) as H1.
  pose proof (sum_map_ge (fun x => (x - m) * (x - m)) l b Hnn Hb) as H2.
  simpl in H1, H2.
  destruct (Req_dec a m) as [E | N].
  - assert (b <> m) by congruence.
    assert (0 < (b - m) * (b - m)) by (apply square_pos; lra). lra.
  - assert (0 < (a - m) * (a - m)) by (apply square_pos; lra). lra.
Qed.

(** Equal observations give a zero sum of squares. *)
Lemma ssqd_const (l : list R) (c : R) :
  (forall x, In x l -> x = c) -> ssqd l = 0.
Proof.
  intros H. destruct l as [|a r]; [reflexivity|].
  unfold ssqd. rewrite (mean_const (a :: r) c) by (discriminate || assumption).
  apply sum_map_zero. intros x Hx. rewrite (H x Hx). ring.
Qed.

Lemma map_combine_swap {A B C : Type} (f : A * B -> C)
      (x : list A) (y : list B) :
  map f (combine x y) = map (fun p => f (snd p, fst p)) (combine y x).
Proof.
  revert y. induction x as [|a r IH]; intros [|b r']; simpl;
    try reflexivity.
  now rewrite IH.
Qed.

Lemma map_combine_diag {A C : Type} (f : A * A -> C) (l : list A) :
  map f (combine l l) = map (fun a => f (a, a)) l.
Proof.
  induction l as [|a r IH]; simpl; [reflexivity | now rewrite IH].
Qed.

Lemma sprod_comm (x y : list R) : sprod x y = sprod y x.
Proof.
  unfold sprod. rewrite map_combine_swap. f_equal.
  apply map_ext. intros [a b]. simpl. ring.
Qed.

Lemma sprod_diag (x : list R) : sprod x x = ssqd x.
Proof.
  unfold sprod, ssqd. rewrite map_combine_diag. reflexivity.
Qed.

Lemma pearson_comm (x y : list R) : pearson x y = pearson y x.
Proof.
  unfold pearson. rewrite (Rmult_comm (ssqd y)), (sprod_comm y x).
  reflexivity.
Qed.

Lemma pearson_diag (x : list R) : 0 < ssqd x -> pearson x x = Some 1.
Proof.
  intros H. unfold pearson. rewrite sqrt_square by lra.
  destruct (Req_dec_T (ssqd x) 0) as [E | N]; [lra|].
  rewrite sprod_diag. f_equal. field. exact N.
Qed.

Lemma round3_one : round3 1 = 1.
Proof.
  unfold round3, rint. replace (1 * 1000) with 1000 by lra.
  rewrite ZfloorZ. replace (1000 - 1000) with 0 by lra.
  destruct (Rlt_dec 0 (1 / 2)) as [_ | N]; lra.
Qed.

(** A window correlation is a number exactly when neither window has
    a zero sum of squares. *)
Lemma window_corr_defined (x y : list R) :
  (2 <= length x)%nat -> (2 <= length y)%nat ->
  (window_corr x y <> None <-> ssqd x <> 0 /\ ssqd y <> 0).
Proof.
  intros Hx Hy. unfold window_corr, var.
  destruct (Nat.ltb_spec (length x) 2); [lia|].
  destruct (Nat.ltb_spec (length y) 2); [lia|].
  cbn [bind].
  assert (Hnx : 0 < INR (length x) - 1).
  { apply le_INR in Hx. simpl in Hx. lra. }
  assert (Hny : 0 < INR (length y) - 1).
  { apply le_INR in Hy. simpl in Hy. lra. }
  pose proof (ssqd_nonneg x) as Hsx. pose proof (ssqd_nonneg y) as Hsy.
  set (vx := ssqd x / (INR (length x) - 1)).
  set (vy := ssqd y / (INR (length y) - 1)).
  assert (Hvx : 0 <= vx) by (apply Rle_mult_inv_pos; assumption).
  assert (Hvy : 0 <= vy) by (apply Rle_mult_inv_pos; assumption).
  assert (Ex : vx = 0 <-> ssqd x = 0).
  { subst vx. split; intros E.
    - apply (Rmult_eq_compat_r (INR (length x) - 1)) in E.
      unfold Rdiv in E. rewrite Rmult_assoc, Rinv_l, Rmult_1_r, Rmult_0_l in E by lra.
      exact E.
    - rewrite E. unfold Rdiv. ring. }
  assert (Ey : vy = 0 <-> ssqd y = 0).
  { subst vy. split; intros E.
    - apply (Rmult_eq_compat_r (INR (length y) - 1)) in E.
      unfold Rdiv in E. rewrite Rmult_assoc, Rinv_l, Rmult_1_r, Rmult_0_l in E by lra.
      exact E.
    - rewrite E. unfold Rdiv. ring. }
  destruct (Req_dec_T (sqrt (vx * vy)) 0) as [E | N].
  - split; [congruence|]. intros [Nx Ny]. exfalso.
    apply sqrt_eq_0 in E; [|now apply Rmult_le_pos].
    apply Rmult_integral in E as [E | E]; [apply Nx, Ex, E | apply Ny, Ey, E].
  - split; [|discriminate]. intros _. split; intros E.
    + apply N. apply Ex in E. rewrite E, Rmult_0_l. apply sqrt_0.
    + apply N. apply Ey in E. rewrite E, Rmult_0_r. apply sqrt_0.
Qed.

(** A zero sum of squares means that every observation is the mean. *)
Lemma ssqd_zero_mean (l : list R) (x : R) :
  ssqd l = 0 -> In x l -> x = mean l.
Proof.
  intros H Hx. unfold ssqd in H. set (m := mean l) in *.
  assert (Hnn : forall y, In y l -> 0 <= (y - m) * (y - m))
    by (intros; apply square_nonneg).
  pose proof (sum_map_ge (fun y => (y - m) * (y - m)) l x Hnn Hx) as Hle.
  simpl in Hle. rewrite H in Hle.
  destruct (Req_dec (x - m) 0) as [E | N]; [lra|].
  pose proof (square_pos (x - m) N). lra.
Qed.

(** Where the divisor of [pearson] is zero so is its numerator: the
    quotient is 0/0, not an infinity. *)
Lemma sprod_zero_l (x y : list R) : ssqd x = 0 -> sprod x y = 0.
Proof.
  intros H. unfold sprod. apply sum_map_zero. intros [a b] Hin.
  apply in_combine_l in Hin. cbn [fst snd].
  rewrite (ssqd_zero_mean x a H Hin). ring.
Qed.

Lemma pearson_zero_over_zero (x y : list R) :
  sqrt (ssqd x * ssqd y) = 0 -> sprod x y = 0.
Proof.
  intros H. apply sqrt_eq_0 in H;
    [|apply Rmult_le_pos; apply ssqd_nonneg].
  apply Rmult_integral in H as [H | H].
  - now apply sprod_zero_l.
  - rewrite sprod_comm. now apply sprod_zero_l.
Qed.

Lemma sum_products_const (c : R) (x y : list R) :
  length x = length y -> (forall a, In a x -> a = c) ->
  sum (map (fun p => fst p * snd p) (combine x y)) = c * sum y.
Proof.
  revert y. induction x as [|a r IH]; intros [|b r'] E H;
    try discriminate.
  - simpl. ring.
  - cbn [combine map sum fold_right fst snd].
    change (fold_right Rplus 0 (map (fun p => fst p * snd p) (combine r r')))
      with (sum (map (fun p => fst p * snd p) (combine r r'))).
    change (fold_right Rplus 0 r') with (sum r').
    rewrite IH; [|simpl in E; congruence | intros a' Ha'; apply H; now right].
    rewrite (H a) by now left. ring.
Qed.

(** The same for a window: over a window where the first series is
    constant the numerator of [window_corr] is zero. *)
Lemma window_numerator_zero (x y : list R) :
  length x = length y -> ssqd x = 0 ->
  mean (map (fun p => fst p * snd p) (combine x y)) - mean x * mean y = 0.
Proof.
  intros E H. unfold mean at 1.
  rewrite (sum_products_const (mean x) x y E)
    by (intros a Ha; now apply ssqd_zero_mean).
  rewrite length_map, length_combine, <- E, Nat.min_id.
  unfold mean at 3. rewrite <- E. unfold Rdiv. ring.
Qed.

End StatsFacts.

(** * Properties of the callback *)

Module AppFacts.

Import Pd DataFetching PdFacts PipelineFacts App.

Section NoData.

Variable yf_download : YahooRequest -> YahooFrame Float.t.
Variable DataReader : FredRequest -> Frame.
Variable clock : nat -> Py.datetime.

Lemma selected_view_Some (n_vol n_dd n_corr : Z) :
  exists v, selected_view n_vol n_dd n_corr = Some v.
Proof.
  unfold selected_view. simpl. eexists. reflexivity.
Qed.

(** C1, as the code has it. When the market-data fetch yields no
    data, the panel the pipeline returns holds every market-data
    column with all of its cells missing, on the sorted dates of the
    FRED tables; [dropna] in the callback then leaves no row, and the
    callback returns the "No data returned" state, which holds no
    metric, whenever the pipeline returns a panel. *)
Theorem no_yahoo_data_no_metrics :
  yahoo_no_data yf_download ->
  (forall period interval df,
      fetch_cross_asset_data yf_download DataReader clock period interval
      = Some df ->
      (forall label, In label (Py.keys YAHOO_TICKERS) ->
         exists c, In (label, c) (data df) /\ all_na c)
      /\ (exists fred_frames df_fred_all,
            fetch_fred_frames DataReader clock 0 FRED_TICKERS period
            = Some fred_frames
            /\ concat fred_frames = Some df_fred_all
            /\ index df = sort_dates (index df_fred_all))
      /\ n_rows (dropna df) = 0%nat)
  /\ (forall n date_key n_vol n_dd n_corr,
         update_dashboard yf_download DataReader clock
                          n date_key n_vol n_dd n_corr
         = (pi <- Py.get (match date_key with
                          | None => "1y"
                          | Some k => k
                          end) DATE_OPTIONS ;;
            _ <- fetch_cross_asset_data yf_download DataReader clock
                                        (fst pi) (snd pi) ;;
            Some no_data_output)).
Proof.
  intros Hno. split.
  - intros period interval df H. split; [|split].
    + eapply yahoo_columns_missing; eassumption.
    + pose proof H as H'.
      apply fetch_cross_asset_data_steps in H'
        as (close0 & close & frames & fred_all & merged
            & Hc0 & Hc & Hf & Hfa & Hm & ->).
      exists frames, fred_all. repeat split; try assumption.
      rewrite index_sort_and_fill. f_equal.
      apply concat_inv in Hm as (f & fs & cols & E & _ & -> & _).
      inversion E; subst f fs; clear E. cbn [map fold_left].
      rewrite (set_columns_index _ _ _ Hc), (Hno _ _ Hc0).
      unfold index_union. now destruct (index fred_all).
    + destruct (yahoo_columns_missing _ _ _ _ _ _ Hno H "Nasdaq")
        as (c & Hin & Hna); [now left|].
      unfold n_rows. now rewrite (dropna_all_na_column df "Nasdaq" c Hin Hna).
  - intros n date_key n_vol n_dd n_corr. unfold update_dashboard.
    destruct (selected_view_Some n_vol n_dd n_corr) as [v ->]. cbn [bind].
    destruct (Py.get _ DATE_OPTIONS) as [pi|]; [|reflexivity]. cbn [bind].
    destruct (fetch_cross_asset_data yf_download DataReader clock
                                     (fst pi) (snd pi)) as [df|] eqn:E;
      [|reflexivity].
    cbn [bind]. now rewrite (no_yahoo_data_dropna_empty _ _ _ _ _ _ Hno E).
Qed.

End NoData.

(** C1 as stated fails: with an empty download and one FRED
    observation the pipeline returns a panel of one row. *)
Lemma no_yahoo_data_panel_has_rows :
  yahoo_no_data Samples.yahoo_nothing
  /\ exists df,
       fetch_cross_asset_data Samples.yahoo_nothing Samples.fred_one_day
                              Samples.clock "1y" "1d" = Some df
       /\ n_rows df = 1%nat.
Proof.
  split.
  - intros req close H. unfold Samples.yahoo_nothing in H. simpl in H.
    inversion H. reflexivity.
  - eexists. split; [vm_compute; reflexivity | reflexivity].
Qed.

Lemma no_yahoo_data_no_metrics_witness :
  yahoo_no_data Samples.yahoo_nothing
  /\ update_dashboard Samples.yahoo_nothing Samples.fred_one_day
                      Samples.clock 0 None 0 0 0 = Some no_data_output.
Proof.
  assert (Hno : yahoo_no_data Samples.yahoo_nothing).
  { intros req close H. unfold Samples.yahoo_nothing in H. simpl in H.
    inversion H. reflexivity. }
  split; [exact Hno|].
  rewrite (proj2 (no_yahoo_data_no_metrics Samples.yahoo_nothing
                    Samples.fred_one_day Samples.clock Hno)).
  reflexivity.
Defined.

(** C9 fails on the code. After "vol" and then "dd" have been pressed
    once each, the two counters are equal and the callback selects
    "vol", while the button pressed last is "dd". *)
Theorem selected_view_after_vol_then_dd :
  let presses := [BtnVol; BtnDd] in
  let c := clicks_after presses in
  selected_view (n_vol c) (n_dd c) (n_corr c) = Some "vol"
  /\ button_view (last presses BtnVol) = "dd".
Proof.
  split; reflexivity.
Qed.

(** What the selection does compute: a view whose counter is
    greatest, the first of them in the order vol, dd, corr. *)
Lemma selected_view_greatest (n_vol n_dd n_corr : Z) :
  exists v, selected_view n_vol n_dd n_corr = Some v
    /\ ((v = "vol" /\ n_dd <= n_vol /\ n_corr <= n_vol)
        \/ (v = "dd" /\ n_vol < n_dd /\ n_corr <= n_dd)
        \/ (v = "corr" /\ n_vol < n_corr /\ n_dd < n_corr)).
Proof.
  unfold selected_view. cbn [Py.max_by Py.max_from snd].
  destruct (Z.ltb_spec n_vol n_dd).
  - destruct (Z.ltb_spec n_dd n_corr); eexists; (split; [reflexivity|]).
    + right; right. split; [reflexivity | lia].
    + right; left. split; [reflexivity | lia].
  - destruct (Z.ltb_spec n_vol n_corr); eexists; (split; [reflexivity|]).
    + right; right. split; [reflexivity | lia].
    + left. split; [reflexivity | lia].
Qed.

(** A run of the callback on three days of rising prices, with the
    drawdown button pressed: the risk chart holds the four maximum
    drawdowns, all zero. *)
Example update_dashboard_drawdown_sample :
  option_map risk_chart
    (update_dashboard Samples.yahoo_three_days Samples.fred_two_days
                      Samples.clock 0 (Some "180d") 0 1 0)
  = Some (DrawdownFigure
            [ ("BTC", Float.of_Q (0 # 101)); ("ETH", Float.of_Q (0 # 101));
              ("SOL", Float.of_Q (0 # 101)); ("XRP", Float.of_Q (0 # 101)) ]).
Proof.
  vm_compute. reflexivity.
Qed.

End AppFacts.

(** * Properties of float64 rounding *)

Module Binary64Facts.
Import Binary64.
Import Float (Fin, PInf, NInf).
Local Open Scope Q_scope.

Lemma pow2_pos (k : Z) : 0 < 2 ^ k.
Proof. apply Qpower_0_lt. reflexivity. Qed.

Lemma pow2_add (a b : Z) : 2 ^ (a + b) == 2 ^ a * 2 ^ b.
Proof. apply Qpower_plus. discriminate. Qed.

Lemma pow2_le (a b : Z) : (a <= b)%Z -> 2 ^ a <= 2 ^ b.
Proof. intros H. apply Qpower_le_compat_l; [exact H | discriminate]. Qed.

Lemma pow2_lt_inv (a b : Z) : 2 ^ a < 2 ^ b -> (a < b)%Z.
Proof. intros H. apply Qpower_lt_compat_l_inv with (q := 2); [exact H | reflexivity]. Qed.

Lemma pow2_Z (a : Z) : (0 <= a)%Z -> inject_Z (2 ^ a) == 2 ^ a.
Proof. intros H. apply (Zpower_Qpower 2 a H). Qed.

(** *** Nearest integer *)

Lemma rne_cases (q : Q) :
  let f := Qfloor q in
  (rne q = f /\ q - inject_Z f <= 1 # 2)
  \/ (rne q = (f + 1)%Z /\ 1 # 2 <= q - inject_Z f).
Proof.
  intros f. unfold rne. fold f.
  destruct (Qcompare_spec (q - inject_Z f) (1 # 2)) as [E | L | G].
  - destruct (Z.even f); [left | right]; split; try reflexivity; rewrite E; apply Qle_refl.
  - left. split; [reflexivity | now apply Qlt_le_weak].
  - right. split; [reflexivity | now apply Qlt_le_weak].
Qed.

Lemma rne_Z (n : Z) : rne (inject_Z n) = n.
Proof.
  unfold rne. rewrite Qfloor_Z.
  destruct (Qcompare_spec (inject_Z n - inject_Z n) (1 # 2)) as [E | L | G].
  - exfalso. assert (H : inject_Z n - inject_Z n == 0) by ring.
    rewrite H in E. discriminate E.
  - reflexivity.
  - exfalso. assert (H : inject_Z n - inject_Z n == 0) by ring.
    rewrite H in G. discriminate G.
Qed.

Lemma rne_le (x y : Q) : x <= y -> (rne x <= rne y)%Z.
Proof.
  intros H. pose proof (Qfloor_resp_le x y H) as Hf.
  destruct (Z.eq_dec (Qfloor x) (Qfloor y)) as [E | N].
  - unfold rne. rewrite <- E.
    assert (Hr : x - inject_Z (Qfloor x) <= y - inject_Z (Qfloor x)) by lra.
    destruct (Qcompare_spec (x - inject_Z (Qfloor x)) (1 # 2)) as [Ex | Lx | Gx];
    destruct (Qcompare_spec (y - inject_Z (Qfloor x)) (1 # 2)) as [Ey | Ly | Gy];
    try lia; try (exfalso; lra); destruct (Z.even (Qfloor x)); lia.
  - destruct (rne_cases x) as [[Ex _] | [Ex _]];
    destruct (rne_cases y) as [[Ey _] | [Ey _]]; lia.
Qed.

Lemma rne_lower (n : Z) (x : Q) : inject_Z n <= x -> (n <= rne x)%Z.
Proof. intros H. rewrite <- (rne_Z n). now apply rne_le. Qed.

Lemma rne_upper (n : Z) (x : Q) : x <= inject_Z n -> (rne x <= n)%Z.
Proof. intros H. rewrite <- (rne_Z n). now apply rne_le. Qed.

(** *** Binary logarithm *)

Lemma Qmake_mult_den (n : Z) (d : positive) :
  (n # d) * inject_Z (Zpos d) == inject_Z n.
Proof.
  unfold Qeq, Qmult, inject_Z. simpl. lia.
Qed.

Lemma flog2_spec (q : Q) :
  0 < q -> 2 ^ flog2 q <= q /\ q < 2 ^ (flog2 q + 1).
Proof.
  intros Hq. destruct q as [n d].
  assert (Hn : (0 < n)%Z).
  { unfold Qlt in Hq. simpl in Hq. lia. }
  set (ln := Z.log2 n). set (ld := Z.log2 (Zpos d)).
  assert (Hln : (0 <= ln)%Z) by apply Z.log2_nonneg.
  assert (Hld : (0 <= ld)%Z) by apply Z.log2_nonneg.
  destruct (Z.log2_spec n Hn) as [Hn1 Hn2].
  destruct (Z.log2_spec (Zpos d) (Pos2Z.is_pos d)) as [Hd1 Hd2].
  fold ln in Hn1, Hn2. fold ld in Hd1, Hd2.
  rewrite Zle_Qle, pow2_Z in Hn1, Hd1 by assumption.
  rewrite Zlt_Qlt, pow2_Z in Hn2, Hd2 by lia.
  set (N := inject_Z n) in *. set (D := inject_Z (Zpos d)) in *.
  assert (HD : 0 < D) by (pose proof (pow2_pos ld); lra).
  assert (E : (n # d) * D == N) by apply Qmake_mult_den.
  set (q := n # d) in *.
  set (k := (ln - ld)%Z).
  assert (Hup : q < 2 ^ (k + 1)).
  { apply (Qmult_lt_r _ _ D HD). rewrite E.
    apply Qlt_le_trans with (2 ^ Z.succ ln); [exact Hn2|].
    replace (Z.succ ln) with ((k + 1) + ld)%Z by (unfold k; lia).
    rewrite (pow2_add (k + 1) ld). apply Qmult_le_l; [apply pow2_pos | exact Hd1]. }
  assert (Hlo : 2 ^ (k - 1) <= q).
  { apply (Qmult_le_r _ _ D HD). rewrite E.
    apply Qle_trans with (2 ^ ln); [|exact Hn1].
    assert (El : 2 ^ ln == 2 ^ (k - 1) * 2 ^ Z.succ ld).
    { rewrite <- pow2_add. now replace (k - 1 + Z.succ ld)%Z with ln by (unfold k; lia). }
    rewrite El.
    apply Qmult_le_l; [apply pow2_pos | now apply Qlt_le_weak]. }
  unfold flog2. change (Qnum q) with n. change (Zpos (Qden q)) with (Zpos d).
  fold ln ld k. destruct (Qle_bool (2 ^ k) q) eqn:C.
  - apply Qle_bool_iff in C. split; assumption.
  - assert (Hlt : q < 2 ^ k).
    { apply Qnot_le_lt. intros H. apply Qle_bool_iff in H. congruence. }
    split; [exact Hlo|]. now replace (k - 1 + 1)%Z with k by lia.
Qed.

Lemma flog2_le (x y : Q) : 0 < x -> x <= y -> (flog2 x <= flog2 y)%Z.
Proof.
  intros Hx Hxy.
  destruct (flog2_spec x Hx) as [H1 _].
  destruct (flog2_spec y) as [_ H2]; [lra|].
  assert (H : 2 ^ flog2 x < 2 ^ (flog2 y + 1)) by lra.
  apply pow2_lt_inv in H. lia.
Qed.

(** *** Rounding of a positive number *)

(** The exponent of the last place, and the integer the number is
    rounded to there. *)
Lemma round_pos_eq (q : Q) :
  let e := Z.max (flog2 q - (prec - 1)) emin in
  let v := inject_Z (rne (q / 2 ^ e)) * 2 ^ e in
  round_pos q = if Qle_bool (2 ^ emax) v then PInf else Fin v.
Proof. reflexivity. Qed.

Lemma div_pow2_le (x : Q) (n e : Z) :
  x <= inject_Z n * 2 ^ e -> x / 2 ^ e <= inject_Z n.
Proof.
  intros H. apply Qle_shift_div_r; [apply pow2_pos | exact H].
Qed.

Lemma div_pow2_ge (x : Q) (n e : Z) :
  inject_Z n * 2 ^ e <= x -> inject_Z n <= x / 2 ^ e.
Proof.
  intros H. apply Qle_shift_div_l; [apply pow2_pos | exact H].
Qed.

Lemma scaled_le (x y : Q) (e : Z) : x <= y -> x / 2 ^ e <= y / 2 ^ e.
Proof.
  intros H. unfold Qdiv. apply Qmult_le_compat_r; [exact H|].
  apply Qlt_le_weak, Qinv_lt_0_compat, pow2_pos.
Qed.

(** The rounded value, before the test for overflow. *)
Lemma rounded_le (x y : Q) :
  0 < x -> x <= y ->
  let ex := Z.max (flog2 x - (prec - 1)) emin in
  let ey := Z.max (flog2 y - (prec - 1)) emin in
  inject_Z (rne (x / 2 ^ ex)) * 2 ^ ex <= inject_Z (rne (y / 2 ^ ey)) * 2 ^ ey.
Proof.
  intros Hx Hxy ex ey.
  assert (Hy : 0 < y) by lra.
  pose proof (flog2_le x y Hx Hxy) as Hl.
  destruct (flog2_spec x Hx) as [_ Hx2].
  destruct (flog2_spec y Hy) as [Hy1 _].
  destruct (Z.eq_dec ex ey) as [E | N].
  - rewrite <- E. apply Qmult_le_compat_r; [|apply Qlt_le_weak, pow2_pos].
    rewrite <- Zle_Qle. apply rne_le. now apply scaled_le.
  - assert (Hlt : (ex + 1 <= ey)%Z) by (unfold ex, ey in *; lia).
    assert (Hey : ey = (flog2 y - (prec - 1))%Z) by (unfold ex, ey in *; lia).
    apply Qle_trans with (2 ^ (prec + ex)).
    + rewrite (pow2_add prec ex), <- (pow2_Z prec) by (unfold prec; lia).
      apply Qmult_le_compat_r; [|apply Qlt_le_weak, pow2_pos].
      rewrite <- Zle_Qle. apply rne_upper, div_pow2_le.
      rewrite (pow2_Z prec), <- (pow2_add prec ex) by (unfold prec; lia).
      apply Qlt_le_weak. apply Qlt_le_trans with (1 := Hx2).
      apply pow2_le. unfold ex. lia.
    + apply Qle_trans with (2 ^ (prec - 1 + ey)); [apply pow2_le; lia|].
      rewrite (pow2_add (prec - 1) ey), <- (pow2_Z (prec - 1)) by (unfold prec; lia).
      apply Qmult_le_compat_r; [|apply Qlt_le_weak, pow2_pos].
      rewrite <- Zle_Qle. apply rne_lower, div_pow2_ge.
      rewrite (pow2_Z (prec - 1)), <- (pow2_add (prec - 1) ey) by (unfold prec; lia).
      replace (prec - 1 + ey)%Z with (flog2 y) by lia. exact Hy1.
Qed.

Lemma round_pos_le (x y : Q) :
  0 < x -> x <= y -> le (round_pos x) (round_pos y).
Proof.
  intros Hx Hxy. pose proof (rounded_le x y Hx Hxy) as H. cbv zeta in H.
  rewrite (round_pos_eq x), (round_pos_eq y). cbv zeta.
  set (vx := inject_Z (rne (x / 2 ^ Z.max (flog2 x - (prec - 1)) emin)) * _) in *.
  set (vy := inject_Z (rne (y / 2 ^ Z.max (flog2 y - (prec - 1)) emin)) * _) in *.
  destruct (Qle_bool (2 ^ emax) vx) eqn:Cx;
  destruct (Qle_bool (2 ^ emax) vy) eqn:Cy; simpl; try exact I; try exact H.
  apply Qle_bool_iff in Cx.
  assert (C : Qle_bool (2 ^ emax) vy = true) by (apply Qle_bool_iff; lra).
  congruence.
Qed.

Lemma round_pos_nonneg (x : Q) : 0 < x -> le (Fin 0) (round_pos x).
Proof.
  intros Hx. rewrite round_pos_eq. cbv zeta.
  set (e := Z.max (flog2 x - (prec - 1)) emin).
  destruct (Qle_bool _ _); simpl; [exact I|].
  apply Qmult_le_0_compat; [|apply Qlt_le_weak, pow2_pos].
  change 0 with (inject_Z 0). rewrite <- Zle_Qle. apply rne_lower.
  apply Qle_shift_div_l; [apply pow2_pos|].
  assert (Z0 : inject_Z 0 * 2 ^ e == 0) by ring.
  rewrite Z0. now apply Qlt_le_weak.
Qed.

(** *** The values the drawdown needs *)

Lemma round_pos_Qeq (x y : Q) (r : Q) :
  0 < x -> x == y -> round_pos y = Fin r ->
  exists r', round_pos x = Fin r' /\ r' == r.
Proof.
  intros Hx E Hy.
  assert (H1 : le (round_pos x) (round_pos y)) by (apply round_pos_le; lra).
  assert (H2 : le (round_pos y) (round_pos x)) by (apply round_pos_le; lra).
  rewrite Hy in H1, H2. destruct (round_pos x) as [r' | |]; simpl in *;
    try contradiction.
  exists r'. split; [reflexivity | lra].
Qed.

Lemma round_pos_one : exists v, round_pos 1 = Fin v /\ v == 1.
Proof. eexists. split; vm_compute; reflexivity. Qed.

Lemma round_pos_pred_one :
  exists v, round_pos (1 - (1 # 2 ^ 53)) = Fin v /\ v == 1 - (1 # 2 ^ 53).
Proof. eexists. split; vm_compute; reflexivity. Qed.

Lemma round_pos_ulp :
  exists v, round_pos (1 # 2 ^ 53) = Fin v /\ v == 1 # 2 ^ 53.
Proof. eexists. split; vm_compute; reflexivity. Qed.

Lemma round_pos_between (lo hi x : Q) (vlo vhi : Q) :
  0 < lo -> lo <= x -> x <= hi ->
  round_pos lo = Fin vlo -> round_pos hi = Fin vhi ->
  exists r, round_pos x = Fin r /\ vlo <= r /\ r <= vhi.
Proof.
  intros Hlo H1 H2 Elo Ehi.
  assert (L : le (round_pos lo) (round_pos x)) by (apply round_pos_le; lra).
  assert (U : le (round_pos x) (round_pos hi)) by (apply round_pos_le; lra).
  rewrite Elo in L. rewrite Ehi in U.
  destruct (round_pos x) as [r | |]; simpl in *; try contradiction.
  exists r. repeat split; assumption.
Qed.

Lemma round_pos_unit (x : Q) :
  0 < x -> x <= 1 ->
  exists r, round_pos x = Fin r /\ 0 <= r /\ r <= 1.
Proof.
  intros H0 H1. destruct round_pos_one as (v & E & Hv).
  assert (U : le (round_pos x) (round_pos 1)) by (apply round_pos_le; lra).
  pose proof (round_pos_nonneg x H0) as L.
  rewrite E in U. destruct (round_pos x) as [r | |]; simpl in *;
    try contradiction.
  exists r. split; [reflexivity|]. split; [assumption | lra].
Qed.

Lemma round_zero (y : Q) : y == 0 -> round y = Fin 0.
Proof.
  intros E. unfold round.
  destruct (Qcompare_spec y 0) as [_ | L | G]; [reflexivity | |]; exfalso; lra.
Qed.

Lemma round_negative (y : Q) : y < 0 -> round y = neg (round_pos (- y)).
Proof.
  intros L. unfold round.
  destruct (Qcompare_spec y 0) as [E | _ | G]; [| reflexivity |]; exfalso; lra.
Qed.

Lemma round_positive (y : Q) : 0 < y -> round y = round_pos y.
Proof.
  intros L. unfold round.
  destruct (Qcompare_spec y 0) as [E | G | _]; [| | reflexivity]; exfalso; lra.
Qed.

(** Two floats that differ are apart by a 2^-53-th of the larger. *)
Lemma gap_Z (A B : Z) :
  (0 < A < B)%Z -> (B < 2 ^ 53 \/ A < 2 ^ 53)%Z ->
  (B <= 2 ^ 53 * (B - A))%Z.
Proof.
  change (2 ^ 53)%Z with 9007199254740992%Z. intros H C. nia.
Qed.

Lemma representable_gap (p w : Q) :
  representable p -> representable w -> 0 < p -> p < w ->
  p / w <= 1 - (1 # 2 ^ 53).
Proof.
  intros (a & f & Ha & _ & Ep & _) (b & e & Hb & _ & Ew & _) Hp Hpw.
  assert (Hw : 0 < w) by lra.
  assert (Ha0 : (0 < a)%Z).
  { destruct (Z_lt_le_dec 0 a) as [|N]; [assumption | exfalso].
    rewrite Zle_Qle in N. pose proof (pow2_pos f) as Hf.
    assert (inject_Z a * 2 ^ f <= 0).
    { apply Qle_trans with (0 * 2 ^ f); [|lra].
      apply Qmult_le_compat_r; [exact N | lra]. }
    lra. }
  set (g := Z.min e f).
  set (A := (a * 2 ^ (f - g))%Z). set (B := (b * 2 ^ (e - g))%Z).
  assert (EA : p == inject_Z A * 2 ^ g).
  { rewrite Ep. unfold A. rewrite inject_Z_mult, pow2_Z by lia.
    rewrite <- Qmult_assoc, <- pow2_add.
    now replace (f - g + g)%Z with f by lia. }
  assert (EB : w == inject_Z B * 2 ^ g).
  { rewrite Ew. unfold B. rewrite inject_Z_mult, pow2_Z by lia.
    rewrite <- Qmult_assoc, <- pow2_add.
    now replace (e - g + g)%Z with e by lia. }
  pose proof (pow2_pos g) as Hg.
  assert (HA : (0 < A)%Z).
  { unfold A. apply Z.mul_pos_pos; [exact Ha0|]. apply Z.pow_pos_nonneg; lia. }
  assert (HAB : (A < B)%Z).
  { rewrite Zlt_Qlt. apply (Qmult_lt_r _ _ (2 ^ g) Hg).
    now rewrite <- EA, <- EB. }
  assert (C : (B < 2 ^ 53 \/ A < 2 ^ 53)%Z).
  { destruct (Z_le_gt_dec e f) as [L | G].
    - left. unfold B. replace (e - g)%Z with 0%Z by lia.
      change (2 ^ 0)%Z with 1%Z. unfold prec in Hb. lia.
    - right. unfold A. replace (f - g)%Z with 0%Z by lia.
      change (2 ^ 0)%Z with 1%Z. unfold prec in Ha. lia. }
  pose proof (gap_Z A B (conj HA HAB) C) as G.
  apply Qle_shift_div_r; [exact Hw|].
  rewrite EA, EB.
  rewrite Zle_Qle, inject_Z_mult in G.
  assert (Em : inject_Z (B - A) == inject_Z B - inject_Z A).
  { unfold Z.sub. rewrite inject_Z_plus, inject_Z_opp. reflexivity. }
  assert (G' : inject_Z B <= inject_Z (2 ^ 53) * (inject_Z B - inject_Z A)).
  { rewrite <- Em. exact G. }
  clear G. set (QA := inject_Z A) in *. set (QB := inject_Z B) in *.
  change (inject_Z (2 ^ 53)) with (9007199254740992 # 1) in G'.
  change (1 # 2 ^ 53) with (1 # 9007199254740992).
  assert (K : QA <= (1 - (1 # 9007199254740992)) * QB) by lra.
  setoid_replace ((1 - (1 # 9007199254740992)) * (QB * 2 ^ g))
    with (((1 - (1 # 9007199254740992)) * QB) * 2 ^ g) by ring.
  apply Qmult_le_compat_r; [exact K | lra].
Qed.

(** *** Rounding and the float64 values *)

Lemma rne_Qeq (x y : Q) : x == y -> rne x = rne y.
Proof.
  intros E. apply Z.le_antisymm; apply rne_le; lra.
Qed.

Lemma scaled_exact (n e0 e : Z) :
  (e <= e0)%Z ->
  inject_Z n * 2 ^ e0 / 2 ^ e == inject_Z (n * 2 ^ (e0 - e)).
Proof.
  intros H. rewrite inject_Z_mult, pow2_Z by lia.
  replace e0 with ((e0 - e) + e)%Z at 1 by lia.
  rewrite (pow2_add (e0 - e) e). field.
  pose proof (pow2_pos e). lra.
Qed.

(** A positive float64 value is rounded to itself. *)
Lemma round_pos_exact (q : Q) :
  representable q -> 0 < q ->
  exists v, round_pos q = Fin v /\ v == q.
Proof.
  intros (n & e0 & Hn & He0 & Eq & Hmax) Hq.
  rewrite (Qabs_pos q) in Hmax by lra.
  destruct (flog2_spec q Hq) as [Hl _].
  set (e := Z.max (flog2 q - (prec - 1)) emin).
  assert (Hn0 : (0 < n)%Z).
  { destruct (Z_lt_le_dec 0 n) as [|N]; [assumption | exfalso].
    rewrite Zle_Qle in N. pose proof (pow2_pos e0).
    assert (inject_Z n * 2 ^ e0 <= 0 * 2 ^ e0)
      by (apply Qmult_le_compat_r; [exact N | lra]).
    lra. }
  assert (Hee : (e <= e0)%Z).
  { assert (Hlt : 2 ^ flog2 q < 2 ^ (prec + e0)).
    { apply Qle_lt_trans with (1 := Hl). rewrite Eq, (pow2_add prec e0).
      apply Qmult_lt_r; [apply pow2_pos|].
      rewrite <- pow2_Z by (unfold prec; lia). rewrite <- Zlt_Qlt. lia. }
    apply pow2_lt_inv in Hlt. unfold e. lia. }
  assert (Er : rne (q / 2 ^ e) = (n * 2 ^ (e0 - e))%Z).
  { rewrite <- (rne_Z (n * 2 ^ (e0 - e))). apply rne_Qeq.
    rewrite Eq. now apply scaled_exact. }
  assert (Ev : inject_Z (rne (q / 2 ^ e)) * 2 ^ e == q).
  { rewrite Er, Eq, <- (scaled_exact n e0 e Hee). field.
    pose proof (pow2_pos e). lra. }
  rewrite round_pos_eq. cbv zeta. fold e.
  destruct (Qle_bool (2 ^ emax) _) eqn:C.
  - apply Qle_bool_iff in C. lra.
  - eexists. split; [reflexivity | exact Ev].
Qed.

Lemma representable_opp (q : Q) : representable q -> representable (- q).
Proof.
  intros (n & e & Hn & He & Eq & Hmax). exists (- n)%Z, e.
  split; [|split; [|split]].
  - now rewrite Z.abs_opp.
  - exact He.
  - rewrite Eq, inject_Z_opp. ring.
  - now rewrite Qabs_opp.
Qed.

Lemma representable_Qeq (p q : Q) : p == q -> representable p -> representable q.
Proof.
  intros E (n & e & Hn & He & Eq & Hmax). exists n, e.
  split; [|split; [|split]]; try assumption.
  - now rewrite <- E.
  - now rewrite <- E.
Qed.

(** Every float64 value is rounded to itself. *)
Lemma round_exact (q : Q) :
  representable q -> exists v, round q = Fin v /\ v == q.
Proof.
  intros R. unfold round.
  destruct (Qcompare_spec q 0) as [E | L | G].
  - exists 0. split; [reflexivity | lra].
  - destruct (round_pos_exact (- q)) as (v & Ev & Hv);
      [now apply representable_opp | lra |].
    rewrite Ev. exists (- v). split; [reflexivity | lra].
  - now apply round_pos_exact.
Qed.

(** What a positive number is rounded to is a float64 value. *)
Lemma round_pos_representable (q v : Q) :
  0 < q -> round_pos q = Fin v -> representable v /\ 0 <= v.
Proof.
  intros Hq. rewrite round_pos_eq. cbv zeta.
  set (e := Z.max (flog2 q - (prec - 1)) emin).
  set (N := rne (q / 2 ^ e)).
  destruct (Qle_bool (2 ^ emax) _) eqn:C; [discriminate|].
  intros E. injection E as <-.
  assert (Hmax : inject_Z N * 2 ^ e < 2 ^ emax).
  { apply Qnot_le_lt. intros H. apply Qle_bool_iff in H. congruence. }
  destruct (flog2_spec q Hq) as [_ Hu].
  pose proof (pow2_pos e) as He.
  assert (HN0 : (0 <= N)%Z).
  { apply rne_lower. apply Qle_shift_div_l; [exact He|].
    assert (Z0 : inject_Z 0 * 2 ^ e == 0) by ring. rewrite Z0. lra. }
  assert (HN1 : (N <= 2 ^ prec)%Z).
  { apply rne_upper, div_pow2_le.
    rewrite pow2_Z, <- (pow2_add prec e) by (unfold prec; lia).
    apply Qlt_le_weak, Qlt_le_trans with (1 := Hu).
    apply pow2_le. unfold e. lia. }
  assert (Hv0 : 0 <= inject_Z N * 2 ^ e).
  { apply Qmult_le_0_compat; [|lra].
    change 0 with (inject_Z 0). now rewrite <- Zle_Qle. }
  split; [|exact Hv0].
  destruct (Z.eq_dec N (2 ^ prec)) as [EN | NN].
  - exists (2 ^ (prec - 1))%Z, (e + 1)%Z. split; [|split; [|split]].
    + unfold prec. vm_compute. reflexivity.
    + unfold e. lia.
    + rewrite EN, (pow2_Z prec), (pow2_Z (prec - 1)) by (unfold prec; lia).
      rewrite <- (pow2_add prec e), <- (pow2_add (prec - 1) (e + 1)).
      now replace (prec - 1 + (e + 1))%Z with (prec + e)%Z by lia.
    + now rewrite Qabs_pos.
  - exists N, e. split; [|split; [|split]].
    + rewrite Z.abs_eq by assumption. lia.
    + unfold e. lia.
    + reflexivity.
    + now rewrite Qabs_pos.
Qed.

(** What a number is rounded to is a float64 value. *)
Lemma round_representable (q v : Q) :
  round q = Fin v -> representable v.
Proof.
  unfold round. destruct (Qcompare_spec q 0) as [E | L | G].
  - intros H. injection H as <-. exists 0%Z, 0%Z.
    repeat split; vm_compute; congruence.
  - destruct (round_pos (- q)) as [r | |] eqn:Er; simpl; try discriminate.
    intros H. injection H as <-. apply representable_opp.
    apply (round_pos_representable (- q) r); [lra | exact Er].
  - intros H. now apply (round_pos_representable q v).
Qed.

(** *** Rounding is to a nearest float64 value *)

Lemma Qle_of_Qeq (x y : Q) : x == y -> x <= y.
Proof. intros E. rewrite E. apply Qle_refl. Qed.

Lemma Qabs_diff_le (a b x : Q) :
  (a - x <= b - x \/ a - x <= x - b) ->
  (x - a <= b - x \/ x - a <= x - b) ->
  Qabs (a - x) <= Qabs (b - x).
Proof.
  intros H1 H2. apply Qabs_case; intros Ha.
  - apply Qabs_case; intros Hb; destruct H1; lra.
  - apply Qabs_case; intros Hb; destruct H2; lra.
Qed.

Lemma rne_nearest (x : Q) (M : Z) :
  Qabs (inject_Z (rne x) - x) <= Qabs (inject_Z M - x).
Proof.
  pose proof (Qfloor_le x) as Hf1. pose proof (Qlt_floor x) as Hf2.
  set (f := Qfloor x) in *.
  assert (HM : inject_Z M <= inject_Z f \/ inject_Z (f + 1) <= inject_Z M).
  { destruct (Z_le_gt_dec M f) as [L | G].
    - left. now rewrite <- Zle_Qle.
    - right. rewrite <- Zle_Qle. lia. }
  rewrite inject_Z_plus in HM, Hf2. change (inject_Z 1) with 1 in *.
  destruct (rne_cases x) as [[E Hr] | [E Hr]]; fold f in E, Hr; rewrite E.
  - apply Qabs_diff_le; destruct HM; lra.
  - rewrite inject_Z_plus. change (inject_Z 1) with 1.
    apply Qabs_diff_le; destruct HM; lra.
Qed.

Lemma Qabs_scale (x : Q) (e : Z) : Qabs (x * 2 ^ e) == Qabs x * 2 ^ e.
Proof.
  rewrite Qabs_Qmult. rewrite (Qabs_pos (2 ^ e)); [reflexivity|].
  apply Qlt_le_weak, pow2_pos.
Qed.

Lemma round_pos_nearest (q f v : Q) :
  0 < q -> representable f -> round_pos q = Fin v ->
  Qabs (v - q) <= Qabs (f - q).
Proof.
  intros Hq (n & e0 & Hn & He0 & Ef & _). rewrite round_pos_eq. cbv zeta.
  set (e := Z.max (flog2 q - (prec - 1)) emin).
  set (N := rne (q / 2 ^ e)).
  destruct (Qle_bool (2 ^ emax) _); [discriminate|].
  intros E. injection E as <-.
  pose proof (pow2_pos e) as He.
  assert (Eq : q == q / 2 ^ e * 2 ^ e) by (field; lra).
  assert (Hint : forall M : Z,
             Qabs (inject_Z N * 2 ^ e - q) <= Qabs (inject_Z M * 2 ^ e - q)).
  { intros M.
    setoid_replace (inject_Z N * 2 ^ e - q)
      with ((inject_Z N - q / 2 ^ e) * 2 ^ e) by (field; lra).
    setoid_replace (inject_Z M * 2 ^ e - q)
      with ((inject_Z M - q / 2 ^ e) * 2 ^ e) by (field; lra).
    rewrite !Qabs_scale. apply Qmult_le_compat_r; [|lra].
    apply rne_nearest. }
  destruct (Z_le_gt_dec e e0) as [L | G].
  - specialize (Hint (n * 2 ^ (e0 - e))%Z).
    assert (E' : inject_Z (n * 2 ^ (e0 - e)) * 2 ^ e == f).
    { rewrite Ef, <- (scaled_exact n e0 e L). field. lra. }
    now rewrite E' in Hint.
  - specialize (Hint (2 ^ (prec - 1))%Z).
    destruct (flog2_spec q Hq) as [Hl _].
    assert (Hg : inject_Z (2 ^ (prec - 1)) * 2 ^ e <= q).
    { rewrite pow2_Z, <- (pow2_add (prec - 1) e) by (unfold prec; lia).
      replace (prec - 1 + e)%Z with (flog2 q) by (unfold e in *; lia).
      exact Hl. }
    assert (Hfg : f <= inject_Z (2 ^ (prec - 1)) * 2 ^ e).
    { rewrite Ef. apply Qle_trans with (inject_Z (2 ^ prec) * 2 ^ e0).
      - apply Qmult_le_compat_r; [|apply Qlt_le_weak, pow2_pos].
        rewrite <- Zle_Qle. lia.
      - rewrite !pow2_Z by (unfold prec; lia).
        rewrite <- (pow2_add prec e0), <- (pow2_add (prec - 1) e).
        apply pow2_le. lia. }
    apply Qle_trans with (1 := Hint).
    set (g := inject_Z (2 ^ (prec - 1)) * 2 ^ e) in *.
    apply Qabs_diff_le; [right | right]; lra.
Qed.

(** Among the float64 values none is nearer than the one a number is
    rounded to. *)
Lemma round_nearest (q f v : Q) :
  representable f -> round q = Fin v -> Qabs (v - q) <= Qabs (f - q).
Proof.
  intros Rf. unfold round.
  destruct (Qcompare_spec q 0) as [E | L | G].
  - intros H. injection H as <-.
    setoid_replace (0 - q) with 0 by lra. apply Qabs_nonneg.
  - destruct (round_pos (- q)) as [r | |] eqn:Er; cbn [neg]; try discriminate.
    intros H. injection H as <-.
    pose proof (round_pos_nearest (- q) (- f) r) as Hn.
    apply Qle_trans with (Qabs (r - - q)).
    { rewrite <- (Qabs_opp (r - - q)). apply Qle_of_Qeq, Qabs_wd. ring. }
    apply Qle_trans with (Qabs (- f - - q)).
    { apply Hn; [lra | now apply representable_opp | exact Er]. }
    rewrite <- (Qabs_opp (- f - - q)). apply Qle_of_Qeq, Qabs_wd. ring.
  - now apply round_pos_nearest.
Qed.

(** Some values, ties among them. *)
Lemma round_samples :
  Float.canon (round (1 # 10)) = Fin (3602879701896397 # 36028797018963968)
  /\ Float.canon (round (1 # 3)) = Fin (6004799503160661 # 18014398509481984)
  /\ Float.canon (round (1 + (1 # 2 ^ 53))) = Fin 1
  /\ Float.canon (round (1 + (3 # 2 ^ 53))) = Fin (1 + (1 # 2 ^ 51))
  /\ Float.canon (round ((1 # 2 ^ 60) - 1)) = Fin (-1)
  /\ Float.canon (round (1 # 2 ^ 1075)) = Fin 0
  /\ Float.canon (round (3 # 2 ^ 1075)) = Fin (1 # 2 ^ 1073)
  /\ round (2 ^ 1024 - 2 ^ 970) = PInf
  /\ round (- (2 ^ 1024)) = NInf.
Proof.
  repeat split; vm_compute; reflexivity.
Qed.

(** *** One drawdown *)

Lemma div_rounds (p w : Q) :
  0 < w -> cell_div (Float.of_Q p) (Float.of_Q w) = Some (round (p / w)).
Proof.
  intros H. unfold cell_div, Float.of_Q, bind, div.
  destruct (Qeq_bool w 0) eqn:E; [|reflexivity].
  apply Qeq_bool_iff in E. lra.
Qed.

Lemma sub_one_rounds (r : Q) :
  cell_sub (Some (Fin r)) (Float.of_Z 1) = Some (round (r - 1)).
Proof. reflexivity. Qed.

Lemma ratio_le_one (p w : Q) : 0 < p -> p <= w -> 0 < p / w /\ p / w <= 1.
Proof.
  intros Hp Hw. assert (0 < w) by lra. split.
  - apply Qlt_shift_div_l; lra.
  - apply Qle_shift_div_r; lra.
Qed.

(** The drawdown of a price at or below the running maximum. *)
Lemma drawdown_spec (p w : Q) :
  representable p -> representable w -> 0 < p -> p <= w ->
  exists d,
    cell_sub (cell_div (Float.of_Q p) (Float.of_Q w)) (Float.of_Z 1)
    = Float.of_Q d
    /\ -1 <= d /\ d <= 0 /\ (d == 0 <-> p == w).
Proof.
  intros Rp Rw Hp Hpw. assert (Hw : 0 < w) by lra.
  destruct (ratio_le_one p w Hp Hpw) as [Hx0 Hx1].
  rewrite (div_rounds p w Hw), (round_positive _ Hx0).
  destruct round_pos_one as (v1 & E1 & Hv1).
  destruct (Qlt_le_dec p w) as [L | G].
  - pose proof (representable_gap p w Rp Rw Hp L) as Hgap.
    destruct round_pos_pred_one as (vc & Ec & Hvc).
    destruct round_pos_ulp as (vu & Eu & Hvu).
    destruct (round_pos_unit (p / w) Hx0 Hx1) as (r & Er & Hr0 & _).
    assert (Hrc : r <= vc).
    { assert (U : le (round_pos (p / w)) (round_pos (1 - (1 # 2 ^ 53))))
        by (apply round_pos_le; assumption).
      rewrite Er, Ec in U. exact U. }
    rewrite Er, sub_one_rounds.
    change (1 # 2 ^ 53) with (1 # 9007199254740992) in *.
    assert (Hy : r - 1 < 0) by lra.
    rewrite (round_negative _ Hy).
    destruct (round_pos_between (1 # 9007199254740992) 1 (- (r - 1)) vu v1)
      as (s & Es & Hs1 & Hs2); try assumption; try lra.
    rewrite Es. exists (- s). split; [reflexivity|].
    split; [lra|]. split; [lra|]. split; intros; lra.
  - assert (Ex : p / w == 1).
    { assert (E : p == w) by lra. rewrite E. field. lra. }
    destruct (round_pos_Qeq (p / w) 1 v1 Hx0 Ex E1) as (r & Er & Hr).
    rewrite Er, sub_one_rounds, round_zero by lra.
    exists 0. split; [reflexivity|].
    split; [lra|]. split; [lra|]. split; intros; lra.
Qed.

End Binary64Facts.

(** * Properties of the metrics *)

Module MetricsFacts.

Import Pd App.
Import Float (Fin, of_Q).

(** C7. On the panel with the single column BTC = 100, 110, 99, 105
    the returns are 1/10, -1/10 and 2/33 = 0.0606..., the running
    maximum is 100, 110, 110, 110, the drawdowns are 0, 0, -1/10 and
    -1/22 (which is -0.0455 to four decimals), and the maximum
    drawdown is -1/10. *)
Theorem btc_scenario :
  let returns := dropna (pct_change Samples.btc_panel) in
  index returns = [739615; 739616; 739617]
  /\ Float.canon_data (data returns)
     = [("BTC", [of_Q (1 # 10); of_Q (-1 # 10); of_Q (2 # 33)])]
  /\ (606 # 10000 <= 2 # 33 /\ 2 # 33 < 607 # 10000)%Q
  /\ data (running_max Samples.btc_panel)
     = [("BTC", map Float.of_Z [100; 110; 110; 110])]
  /\ Float.canon_data (data (drawdowns Samples.btc_panel))
     = [("BTC", [of_Q 0; of_Q 0; of_Q (-1 # 10); of_Q (-1 # 22)])]
  /\ (Qabs ((-1 # 22) - (-455 # 10000)) < 1 # 20000)%Q
  /\ map (fun lc => (fst lc, option_map Float.canon (snd lc)))
         (maxdd Samples.btc_panel)
     = [("BTC", of_Q (-1 # 10))].
Proof.
  repeat split; try (vm_compute; reflexivity).
  all: vm_compute; discriminate.
Qed.

Section Drawdown.

Local Open Scope Q_scope.

Lemma max_fin (w p : Q) :
  Float.max (Fin w) (Fin p) = Fin (if Qle_bool p w then w else p).
Proof.
  unfold Float.max, Float.ltb. destruct (Qle_bool p w); reflexivity.
Qed.

Lemma min_fin (v w : Q) :
  Float.min (Fin v) (Fin w) = Fin (if Qle_bool v w then v else w).
Proof.
  unfold Float.min, Float.ltb. destruct (Qle_bool v w); reflexivity.
Qed.

Lemma div_fin (p w : Q) :
  0 < w -> Float.cell_div (of_Q p) (of_Q w) = of_Q (p / w).
Proof.
  intros H. unfold Float.cell_div, of_Q, bind, Float.div.
  destruct (Qeq_bool w 0) eqn:E; [|reflexivity].
  apply Qeq_bool_iff in E. lra.
Qed.

Lemma ss_cons_iff (x : Q) (l : list Q) :
  StronglySorted Qle (x :: l) <-> StronglySorted Qle l /\ Forall (Qle x) l.
Proof.
  split.
  - apply StronglySorted_inv.
  - intros [H1 H2]. now constructor.
Qed.

Lemma Forall_Qle_trans (x y : Q) (l : list Q) :
  x <= y -> Forall (Qle y) l -> Forall (Qle x) l.
Proof.
  intros Hxy. apply Forall_impl. intros z Hz. lra.
Qed.

Lemma drawdown_cons (x y : Float.cell) (c d : list Float.cell) :
  Binary64.sub_one_col (Binary64.div_col (x :: c) (y :: d))
  = Binary64.cell_sub (Binary64.cell_div x y) (Float.of_Z 1)
    :: Binary64.sub_one_col (Binary64.div_col c d).
Proof.
  reflexivity.
Qed.

Lemma cummax_from_cons (w p : Q) (rest : list Float.cell) :
  cummax_from (Some (Fin w)) (of_Q p :: rest)
  = of_Q (if Qle_bool p w then w else p)
    :: cummax_from (Some (Fin (if Qle_bool p w then w else p))) rest.
Proof.
  unfold of_Q. cbn [cummax_from]. rewrite max_fin. reflexivity.
Qed.

(** The drawdowns of positive prices below a positive running
    maximum [w], all of them float64 values. *)
Lemma drawdown_from_spec (ps : list Q) :
  forall w, 0 < w -> Binary64.representable w ->
  Forall (Qlt 0) ps -> Forall Binary64.representable ps ->
  exists ds,
    Binary64.sub_one_col
      (Binary64.div_col (map of_Q ps)
                        (cummax_from (Some (Fin w)) (map of_Q ps)))
    = map of_Q ds
    /\ length ds = length ps
    /\ Forall (fun d => -1 <= d /\ d <= 0) ds
    /\ (Forall (fun d => d == 0) ds <-> StronglySorted Qle (w :: ps)).
Proof.
  induction ps as [|p r IH]; intros w Hw Rw Hps Rps.
  - exists []. repeat split; try constructor; constructor.
  - inversion Hps as [|? ? Hp Hr]; subst.
    inversion Rps as [|? ? Rp Rr]; subst.
    cbn [map]. rewrite cummax_from_cons.
    set (w' := if Qle_bool p w then w else p).
    assert (Hw' : 0 < w' /\ p <= w' /\ w <= w' /\ (w <= p -> w' == p)
                  /\ Binary64.representable w').
    { subst w'. destruct (Qle_bool p w) eqn:C.
      - apply Qle_bool_iff in C. repeat split; try lra. assumption.
      - assert (~ p <= w) by (rewrite <- Qle_bool_iff; congruence).
        repeat split; try lra. assumption. }
    destruct Hw' as (Hw'0 & Hpw' & Hww' & Heq & Rw').
    destruct (IH w' Hw'0 Rw' Hr Rr) as (ds & E & Hlen & Hrange & Hiff).
    destruct (Binary64Facts.drawdown_spec p w' Rp Rw' Hp Hpw')
      as (d & Ed & Hd1 & Hd0 & Hdz).
    exists (d :: ds).
    assert (Hone : d == 0 <-> w <= p).
    { rewrite Hdz. split; intros H.
      - subst w'. destruct (Qle_bool p w) eqn:C; lra.
      - rewrite (Heq H). reflexivity. }
    split; [|split; [|split]].
    + rewrite drawdown_cons, Ed, E. reflexivity.
    + simpl. now rewrite Hlen.
    + constructor; [split; assumption | assumption].
    + rewrite Forall_cons_iff, Hiff, Hone, !ss_cons_iff, Forall_cons_iff.
      split.
      * intros (Hwp & Hss & Hall). repeat split; try assumption.
        -- eapply Forall_Qle_trans; [exact Hpw' | exact Hall].
        -- eapply Forall_Qle_trans; [exact Hww' | exact Hall].
      * intros ((Hss & Hall) & Hwp & _). repeat split; try assumption.
        eapply Forall_Qle_trans; [|exact Hall].
        rewrite (Heq Hwp). lra.
Qed.

Lemma min_col_fin (ds : list Q) :
  ds <> [] ->
  exists m, min_col (map of_Q ds) = Some (Fin m)
            /\ In m ds /\ Forall (Qle m) ds.
Proof.
  induction ds as [|d r IH]; intros Hne; [contradiction|].
  destruct r as [|d' r'].
  - exists d. repeat split; [now left | constructor; [lra | constructor]].
  - destruct IH as (m' & E & Hin & Hall); [discriminate|].
    change (min_col (map of_Q (d :: d' :: r')))
      with (match min_col (map of_Q (d' :: r')) with
            | None => Some (Fin d)
            | Some w => Some (Float.min (Fin d) w)
            end).
    rewrite E, min_fin. destruct (Qle_bool d m') eqn:C.
    + apply Qle_bool_iff in C. exists d. repeat split; [now left|].
      constructor; [lra|]. eapply Forall_Qle_trans; eassumption.
    + assert (~ d <= m') by (rewrite <- Qle_bool_iff; congruence).
      exists m'. repeat split; [now right|].
      constructor; [lra | assumption].
Qed.

Lemma cummax_col_head (p : Q) (rest : list Float.cell) :
  cummax_col (of_Q p :: rest)
  = cummax_from (Some (Fin p)) (of_Q p :: rest).
Proof.
  rewrite cummax_from_cons.
  replace (Qle_bool p p) with true; [reflexivity|].
  symmetry. apply Qle_bool_iff. lra.
Qed.

(** The maximum drawdown of a column of positive prices. *)
Lemma maxdd_col_range (ps : list Q) :
  ps <> [] -> Forall Binary64.representable ps -> Forall (Qlt 0) ps ->
  exists m, Binary64.maxdd_col (map of_Q ps) = Some (Fin m)
            /\ -1 <= m /\ m <= 0
            /\ (m == 0 <-> StronglySorted Qle ps).
Proof.
  intros Hne Rps Hpos. destruct ps as [|p r]; [contradiction|].
  unfold Binary64.maxdd_col, Binary64.drawdown_col.
  cbn [map]. rewrite cummax_col_head.
  inversion Hpos as [|? ? Hp Hr]; subst.
  inversion Rps as [|? ? Rp Rr]; subst.
  destruct (drawdown_from_spec (p :: r) p Hp Rp Hpos Rps)
    as (ds & E & Hlen & Hrange & Hiff).
  cbn [map] in E. rewrite E.
  destruct (min_col_fin ds) as (m & Em & Hin & Hmin).
  { destruct ds; [discriminate | discriminate]. }
  exists m. rewrite Forall_forall in Hrange, Hmin.
  destruct (Hrange m Hin) as [Hlo Hhi].
  repeat split; try assumption.
  - intros Hm.
    assert (Hss : StronglySorted Qle (p :: p :: r)).
    { apply Hiff. apply Forall_forall. intros d Hd.
      specialize (Hmin d Hd). destruct (Hrange d Hd). lra. }
    now apply ss_cons_iff in Hss.
  - intros Hss.
    assert (Hz : Forall (fun d => d == 0) ds).
    { apply Hiff. apply ss_cons_iff. split; [assumption|].
      constructor; [lra|]. now apply ss_cons_iff in Hss. }
    rewrite Forall_forall in Hz. now apply Hz.
Qed.

Lemma combine_map_r {A B : Type} (f : A -> B) (l : list A) :
  combine l (map f l) = map (fun x => (x, f x)) l.
Proof.
  induction l as [|a r IH]; simpl; [reflexivity | now rewrite IH].
Qed.

(** Lines 138-140 work column by column. *)
Lemma maxdd_by_column (df : Frame) :
  Binary64.maxdd df
  = map (fun lc => (fst lc, Binary64.maxdd_col (snd lc))) (data df).
Proof.
  unfold Binary64.maxdd, frame_min, Binary64.drawdowns, Binary64.sub_one,
    Binary64.div_frames, running_max, cummax, map_cols. cbn [data index].
  rewrite combine_map_r, !map_map. apply map_ext. intros [l c]. reflexivity.
Qed.

(** C3, as the code has it. For every instrument column of a panel
    whose prices, over a non-empty window, are all finite and strictly
    positive, the maximum drawdown the callback computes in float64
    arithmetic (each division and each subtraction rounded to the
    nearest float) lies in the closed interval [-1, 0], and it is 0
    exactly when the prices never decrease. *)
Theorem max_drawdown_range (df : Frame) (label : string) (ps : list Q) :
  In (label, map of_Q ps) (data df) ->
  ps <> [] ->
  Forall Binary64.representable ps ->
  Forall (Qlt 0) ps ->
  exists m, In (label, Some (Fin m)) (Binary64.maxdd df)
            /\ -1 <= m /\ m <= 0
            /\ (m == 0 <-> StronglySorted Qle ps).
Proof.
  intros Hin Hne Rps Hpos.
  destruct (maxdd_col_range ps Hne Rps Hpos) as (m & E & H).
  exists m. split; [|exact H].
  rewrite maxdd_by_column. apply in_map_iff.
  exists (label, map of_Q ps). split; [|assumption].
  cbn [fst snd]. now rewrite E.
Qed.

End Drawdown.

Lemma max_drawdown_range_witness :
  exists m, In ("BTC", Some (Fin m)) (Binary64.maxdd Samples.btc_panel)
            /\ (-1 <= m)%Q /\ (m <= 0)%Q
            /\ ((m == 0)%Q
                <-> StronglySorted Qle (map inject_Z [100; 110; 99; 105])).
Proof.
  apply (max_drawdown_range Samples.btc_panel "BTC"
                            (map inject_Z [100; 110; 99; 105])).
  - left. reflexivity.
  - discriminate.
  - repeat constructor.
    + exists 100, 0. repeat split; vm_compute; congruence.
    + exists 110, 0. repeat split; vm_compute; congruence.
    + exists 99, 0. repeat split; vm_compute; congruence.
    + exists 105, 0. repeat split; vm_compute; congruence.
  - repeat constructor.
Defined.

(** C3 as stated fails: a price that falls to zero gives a maximum
    drawdown of -1, outside (-1, 0]; and so does a positive price that
    falls from 2^60 to 1, where 2^-60 - 1 is rounded to -1. *)
Lemma max_drawdown_of_crash :
  (exists c, Binary64.maxdd Samples.crash_panel = [("BTC", c)]
             /\ ~ Float.in_drawdown_range c)
  /\ (exists c, Binary64.maxdd Samples.deep_fall_panel = [("BTC", c)]
                /\ ~ Float.in_drawdown_range c).
Proof.
  split.
  - eexists. split; [vm_compute; reflexivity|].
    intros (m & E & Hlo & _). inversion E; subst.
    vm_compute in Hlo. discriminate.
  - eexists. split; [vm_compute; reflexivity|].
    intros (m & E & Hlo & _). inversion E; subst.
    vm_compute in Hlo. discriminate.
Qed.

Section Correlation.

Import Stats StatsFacts.

Lemma pair_observations_swap (a b : list Float.cell) :
  pair_observations b a
  = (snd (pair_observations a b), fst (pair_observations a b)).
Proof.
  revert b. induction a as [|x a' IH]; intros [|y b']; try reflexivity.
  cbn [pair_observations]. rewrite IH.
  destruct x as [[p| |]|], y as [[q| |]|]; reflexivity.
Qed.

Lemma corr_cols_comm (a b : list Float.cell) : corr_cols a b = corr_cols b a.
Proof.
  unfold corr_cols. rewrite (pair_observations_swap a b).
  cbn [fst snd]. apply pearson_comm.
Qed.

Lemma pair_observations_diag (qs : list Q) :
  pair_observations (map of_Q qs) (map of_Q qs)
  = (map Q2R qs, map Q2R qs).
Proof.
  induction qs as [|q r IH]; [reflexivity|].
  cbn [map pair_observations of_Q]. fold (of_Q). rewrite IH. reflexivity.
Qed.

Lemma varies_ssqd_pos (qs : list Q) : varies qs -> (0 < ssqd (map Q2R qs))%R.
Proof.
  intros (p & q & Hp & Hq & Hne).
  apply (ssqd_pos _ (Q2R p) (Q2R q)); try (now apply in_map).
  intros E. apply Hne. now apply eqR_Qeq.
Qed.

Lemma corr_cols_diag (c : list Float.cell) :
  nondegenerate c -> corr_cols c c = Some 1%R.
Proof.
  intros (qs & -> & Hv). unfold corr_cols.
  rewrite pair_observations_diag. cbn [fst snd].
  apply pearson_diag. now apply varies_ssqd_pos.
Qed.

Lemma entry_round_map (cols : list (string * list Float.cell)) (i j : nat) :
  entry (round (map (fun ci =>
                       (fst ci,
                        map (fun cj => corr_cols (snd ci) (snd cj)) cols))
                    cols)) i j
  = match nth_error cols i, nth_error cols j with
    | Some ci, Some cj =>
        option_map round3 (corr_cols (snd ci) (snd cj))
    | _, _ => None
    end.
Proof.
  unfold entry, round. rewrite !nth_error_map.
  destruct (nth_error cols i) as [ci|]; [|reflexivity].
  cbn [option_map snd]. rewrite !nth_error_map.
  destruct (nth_error cols j) as [cj|]; reflexivity.
Qed.

Lemma entry_round_corr (df : Frame) (i j : nat) :
  entry (round (corr df)) i j
  = match nth_error (data df) i, nth_error (data df) j with
    | Some ci, Some cj =>
        option_map round3 (corr_cols (snd ci) (snd cj))
    | _, _ => None
    end.
Proof.
  apply entry_round_map.
Qed.

(** The matrix is symmetric, whatever the panel. *)
Lemma corr_matrix_symmetric (df : Frame) (i j : nat) :
  entry (round (corr df)) i j = entry (round (corr df)) j i.
Proof.
  rewrite !entry_round_corr.
  destruct (nth_error (data df) i) as [ci|], (nth_error (data df) j) as [cj|];
    try reflexivity.
  now rewrite corr_cols_comm.
Qed.

(** The diagonal entry of a non-degenerate column is 1. *)
Lemma corr_matrix_diagonal (df : Frame) (i : nat) (label : string)
      (c : list Float.cell) :
  nth_error (data df) i = Some (label, c) ->
  nondegenerate c ->
  entry (round (corr df)) i i = Some 1%R.
Proof.
  intros E Hc. rewrite entry_round_corr, E. cbn [snd].
  rewrite (corr_cols_diag c Hc). cbn [option_map]. now rewrite round3_one.
Qed.

(** C5. For every returns panel of at least two instrument columns,
    each of finite returns that are not all equal, the correlation
    matrix rounded to three decimals is symmetric and each of its
    diagonal entries is 1. *)
Theorem corr_matrix_symmetric_unit_diagonal (returns : Frame) :
  (2 <= length (data returns))%nat ->
  Forall (fun lc => nondegenerate (snd lc)) (data returns) ->
  let m := round (corr returns) in
  (forall i j, entry m i j = entry m j i)
  /\ (forall i, (i < length (data returns))%nat -> entry m i i = Some 1%R).
Proof.
  intros _ Hnd m. split.
  - intros i j. apply corr_matrix_symmetric.
  - intros i Hi.
    destruct (nth_error (data returns) i) as [[label c]|] eqn:E.
    + apply (corr_matrix_diagonal returns i label c E).
      rewrite Forall_forall in Hnd.
      apply (Hnd (label, c)). eapply nth_error_In, E.
    + apply nth_error_None in E. lia.
Qed.

End Correlation.

Lemma corr_matrix_symmetric_unit_diagonal_witness :
  let m := round (corr Samples.two_returns) in
  (forall i j, entry m i j = entry m j i)
  /\ (forall i, (i < 2)%nat -> entry m i i = Some 1%R).
Proof.
  apply (corr_matrix_symmetric_unit_diagonal Samples.two_returns).
  - simpl. lia.
  - repeat constructor.
    + exists Samples.nasdaq_returns. split; [reflexivity|].
      exists (1 # 100)%Q, 0%Q. simpl. intuition discriminate.
    + exists Samples.btc_returns. split; [reflexivity|].
      exists (1 # 10)%Q, (-1 # 10)%Q. simpl. intuition discriminate.
Defined.

Section Rolling.

Import Stats StatsFacts.

Lemma align_same_index {V : Type} (a b : Series V) :
  s_index a = s_index b -> align a b = (a, b).
Proof.
  intros E. unfold align.
  destruct (list_eq_dec Z.eq_dec (s_index a) (s_index b)); [reflexivity|].
  contradiction.
Qed.

Lemma mask_col_finite (qa qb : list Q) :
  length qa = length qb ->
  mask_col (map of_Q qa) (map of_Q qb) = map of_Q qa.
Proof.
  revert qb. induction qa as [|a r IH]; intros [|b r'] E;
    try discriminate; [reflexivity|].
  unfold mask_col in *. cbn [map combine mask of_Q fst snd].
  fold of_Q. rewrite IH by (simpl in E; congruence). reflexivity.
Qed.

Lemma nth_map_seq {A : Type} (g : nat -> A) (n i : nat) (d : A) :
  (i < n)%nat -> nth i (map g (seq 0 n)) d = g i.
Proof.
  intros H. rewrite (nth_indep _ d (g 0%nat)) by (now rewrite length_map, length_seq).
  rewrite map_nth, seq_nth by assumption. reflexivity.
Qed.

Lemma window_finite (w i : nat) (qs : list Q) :
  (w <= i + 1)%nat -> (i < length qs)%nat ->
  window w i (map of_Q qs) = map of_Q (q_window w i qs).
Proof.
  intros Hw Hi. unfold window, q_window. rewrite map_map.
  apply map_ext_in. intros j Hj. apply in_seq in Hj.
  rewrite (nth_indep _ None (of_Q 0%Q)) by (rewrite length_map; lia).
  apply map_nth.
Qed.

Lemma finite_window_finite (qs : list Q) :
  finite_window (map of_Q qs) = Some (map Q2R qs).
Proof.
  unfold finite_window.
  assert (E : mapM Float.finite (map of_Q qs) = Some qs).
  { induction qs as [|q r IH]; [reflexivity|].
    cbn [map mapM of_Q Float.finite bind]. fold of_Q. now rewrite IH. }
  now rewrite E.
Qed.

(** The values of the rolling correlation of two series of finite
    returns on the same dates. *)
Lemma rolling_corr_nth (idx : list date) (qa qb : list Q) (i : nat) :
  length qa = length idx -> length qb = length idx ->
  (i < length idx)%nat ->
  nth i (s_values (rolling_corr 30 (mkSeries idx (map of_Q qa))
                                (mkSeries idx (map of_Q qb)))) None
  = if (i + 1 <? 30)%nat then None
    else window_corr (map Q2R (q_window 30 i qa))
                     (map Q2R (q_window 30 i qb)).
Proof.
  intros Ha Hb Hi. unfold rolling_corr.
  rewrite align_same_index by reflexivity. cbn [fst snd s_index s_values].
  rewrite !mask_col_finite by congruence.
  rewrite nth_map_seq by assumption.
  destruct (Nat.ltb_spec (i + 1) 30) as [|Hge]; [reflexivity|].
  rewrite !window_finite by lia. rewrite !finite_window_finite.
  reflexivity.
Qed.

Lemma rolling_corr_length (w : nat) (a b : Series Float.t) :
  length (s_values (rolling_corr w a b)) = length (s_index (fst (align a b))).
Proof.
  unfold rolling_corr. cbn [s_values]. now rewrite length_map, length_seq.
Qed.

(** Nothing is defined before the window is full, whatever the
    series. *)
Lemma rolling_corr_head (a b : Series Float.t) (i : nat) :
  (i < 29)%nat -> nth i (s_values (rolling_corr 30 a b)) None = None.
Proof.
  intros Hi. unfold rolling_corr. cbn [s_values].
  set (n := length (s_index (fst (align a b)))).
  destruct (Nat.lt_ge_cases i n) as [Hlt | Hge].
  - rewrite nth_map_seq by assumption.
    destruct (Nat.ltb_spec (i + 1) 30); [reflexivity | lia].
  - apply nth_overflow. now rewrite length_map, length_seq.
Qed.

Lemma q_window_length (w i : nat) (qs : list Q) :
  length (q_window w i qs) = w.
Proof.
  unfold q_window. now rewrite length_map, length_seq.
Qed.

Lemma varies_dec (qs : list Q) :
  varies qs \/ (forall p q, In p qs -> In q qs -> (p == q)%Q).
Proof.
  destruct qs as [|h t]; [right; intros p q []|].
  destruct (Forall_Exists_dec (fun x => (h == x)%Q) (Qeq_dec h) (h :: t))
    as [Hall | Hex].
  - right. rewrite Forall_forall in Hall. intros p q Hp Hq.
    rewrite <- (Hall p Hp), <- (Hall q Hq). reflexivity.
  - left. apply Exists_exists in Hex as (x & Hx & Hne).
    exists h, x. repeat split; [now left | assumption | assumption].
Qed.

Lemma ssqd_varies (qs : list Q) : ssqd (map Q2R qs) <> 0%R <-> varies qs.
Proof.
  split.
  - intros H. destruct (varies_dec qs) as [Hv | Hc]; [assumption|].
    exfalso. apply H. destruct qs as [|h t]; [reflexivity|].
    apply (ssqd_const _ (Q2R h)). intros x Hx.
    apply in_map_iff in Hx as (q & <- & Hq).
    apply Qeq_eqR, Hc; [assumption | now left].
  - intros Hv. pose proof (varies_ssqd_pos qs Hv). lra.
Qed.

(** Position [i] holds a correlation exactly when the window is full
    and neither series is constant over it. *)
Lemma rolling_corr_defined (idx : list date) (qa qb : list Q) (i : nat) :
  length qa = length idx -> length qb = length idx ->
  (i < length idx)%nat ->
  nth i (s_values (rolling_corr 30 (mkSeries idx (map of_Q qa))
                                (mkSeries idx (map of_Q qb)))) None
  <> None
  <-> (29 <= i)%nat /\ varies (q_window 30 i qa) /\ varies (q_window 30 i qb).
Proof.
  intros Ha Hb Hi. rewrite rolling_corr_nth by assumption.
  destruct (Nat.ltb_spec (i + 1) 30) as [Hlt | Hge].
  - split; [congruence | lia].
  - rewrite window_corr_defined, !ssqd_varies
      by (rewrite length_map, q_window_length; lia).
    split; [intros [H1 H2]; repeat split; (assumption || lia) | tauto].
Qed.

Lemma count_seq_ge (k n : nat) :
  length (filter (fun i => (k <=? i)%nat) (seq 0 n)) = (n - k)%nat.
Proof.
  induction n as [|n IH]; [reflexivity|].
  rewrite seq_S, filter_app, length_app, IH. cbn [filter plus].
  destruct (Nat.leb_spec k n); cbn [length]; lia.
Qed.

Lemma count_defined_map_seq {V : Type} (g : nat -> cell V) (k n : nat) :
  (forall i, (i < n)%nat -> notna (g i) = (k <=? i)%nat) ->
  count_defined (map g (seq 0 n)) = (n - k)%nat.
Proof.
  intros H. unfold count_defined.
  rewrite <- (count_seq_ge k n), filter_map_swap, length_map. f_equal.
  apply filter_ext_in. intros i Hi. apply in_seq in Hi. apply H. lia.
Qed.

Lemma notna_iff {V : Type} (c : cell V) : notna c = true <-> c <> None.
Proof.
  destruct c; simpl; split; congruence.
Qed.

(** *** The rolling correlation, whatever the arithmetic *)

Section RollingScheme.

Context {T : Type}.
Variable stat : nat -> list Float.cell -> list Float.cell -> option T.

Lemma rolling_corr_with_length (w : nat) (a b : Series Float.t) :
  length (s_values (rolling_corr_with stat w a b))
  = length (s_index (fst (align a b))).
Proof.
  unfold rolling_corr_with. cbn [s_values]. now rewrite length_map, length_seq.
Qed.

Lemma rolling_corr_with_nth (w : nat) (a b : Series Float.t) (i : nat) :
  (i < length (s_index (fst (align a b))))%nat ->
  let A := s_values (fst (align a b)) in
  let B := s_values (snd (align a b)) in
  nth i (s_values (rolling_corr_with stat w a b)) None
  = if (i + 1 <? w)%nat then None
    else if forallb is_finite (window w i (mask_col A B))
            && forallb is_finite (window w i (mask_col B A))
         then stat i (mask_col A B) (mask_col B A)
         else None.
Proof.
  intros Hi A B. unfold rolling_corr_with. cbn [s_values].
  now rewrite nth_map_seq by assumption.
Qed.

Lemma rolling_corr_with_head (a b : Series Float.t) (i : nat) :
  (i < 29)%nat -> nth i (s_values (rolling_corr_with stat 30 a b)) None = None.
Proof.
  intros Hi.
  destruct (Nat.lt_ge_cases i (length (s_index (fst (align a b)))))
    as [Hlt | Hge].
  - rewrite rolling_corr_with_nth by assumption.
    destruct (Nat.ltb_spec (i + 1) 30); [reflexivity | lia].
  - apply nth_overflow. now rewrite rolling_corr_with_length.
Qed.

Lemma mask_col_nth (x y : list Float.cell) (j : nat) :
  nth j (mask_col x y) None = mask (nth j x None) (nth j y None).
Proof.
  unfold mask_col. revert y j.
  induction x as [|c r IH]; intros [|d r'] [|j]; cbn [combine map nth fst snd];
    try reflexivity.
  - now destruct d as [[ | |]|].
  - now destruct (nth j r' None) as [[ | |]|].
  - apply IH.
Qed.

Lemma mask_finite (x y : Float.cell) :
  is_finite (mask x y) = true ->
  is_finite x = true /\ is_finite y = true.
Proof.
  destruct y as [[q | |]|]; simpl; try discriminate. now split.
Qed.

Lemma window_all_finite (w i : nat) (x y : list Float.cell) :
  forallb is_finite (window w i (mask_col x y)) = true ->
  forall j, (i + 1 - w <= j)%nat -> (j < i + 1 - w + w)%nat ->
    is_finite (nth j x None) = true /\ is_finite (nth j y None) = true.
Proof.
  intros H j H1 H2. rewrite forallb_forall in H.
  apply mask_finite. rewrite <- mask_col_nth. apply H.
  unfold window. apply in_map_iff. exists j. split; [reflexivity|].
  apply in_seq. lia.
Qed.

(** A value at row [i] needs a full window of finite returns. *)
Lemma rolling_corr_with_defined (a b : Series Float.t) (i : nat) :
  nth i (s_values (rolling_corr_with stat 30 a b)) None <> None ->
  (29 <= i)%nat
  /\ window_complete 30 i (fst (align a b)) (snd (align a b)).
Proof.
  intros H.
  destruct (Nat.lt_ge_cases i (length (s_index (fst (align a b)))))
    as [Hlt | Hge].
  - rewrite rolling_corr_with_nth in H by assumption.
    destruct (Nat.ltb_spec (i + 1) 30) as [|Hw]; [congruence|].
    split; [lia|].
    destruct (forallb is_finite (window 30 i (mask_col _ _))) eqn:E;
      [|simpl in H; congruence].
    intros j H1 H2. apply (window_all_finite 30 i _ _ E); lia.
  - exfalso. apply H. apply nth_overflow. now rewrite rolling_corr_with_length.
Qed.

End RollingScheme.

(** *** Counting the values of a column *)

Lemma count_defined_app {V : Type} (l1 l2 : list (cell V)) :
  count_defined (l1 ++ l2) = (count_defined l1 + count_defined l2)%nat.
Proof.
  unfold count_defined. now rewrite filter_app, length_app.
Qed.

Lemma count_defined_le {V : Type} (l : list (cell V)) :
  (count_defined l <= length l)%nat.
Proof.
  apply filter_length_le.
Qed.

Lemma count_defined_all {V : Type} (l : list (cell V)) :
  count_defined l = length l <-> Forall (fun c => c <> None) l.
Proof.
  unfold count_defined. induction l as [|c r IH]; [split; constructor|].
  cbn [filter]. pose proof (filter_length_le notna r) as Hle.
  destruct c as [v|]; cbn [notna length].
  - rewrite Forall_cons_iff, <- IH. split.
    + intros H. split; [discriminate | lia].
    + intros [_ H]. now rewrite H.
  - split.
    + intros H. lia.
    + intros H. inversion H; subst. congruence.
Qed.

Lemma count_defined_none {V : Type} (l : list (cell V)) :
  Forall (fun c => c = None) l -> count_defined l = 0%nat.
Proof.
  unfold count_defined. induction 1 as [|c r Hc _ IH]; [reflexivity|].
  subst c. exact IH.
Qed.

(** A column whose first [k] cells are empty. *)
Lemma count_defined_after {V : Type} (k : nat) (l : list (cell V)) :
  (forall i, (i < k)%nat -> nth i l None = None) ->
  (count_defined l <= length l - k)%nat
  /\ (count_defined l = (length l - k)%nat
      <-> forall i, (k <= i < length l)%nat -> nth i l None <> None).
Proof.
  intros Hhead.
  assert (E0 : count_defined (firstn k l) = 0%nat).
  { apply count_defined_none. apply Forall_forall. intros c Hc.
    apply (In_nth _ _ None) in Hc as (i & Hi & <-).
    rewrite length_firstn in Hi.
    rewrite nth_firstn. destruct (Nat.ltb_spec i k); [|lia].
    apply Hhead. lia. }
  assert (E : count_defined l = count_defined (skipn k l)).
  { rewrite <- (firstn_skipn k l) at 1. rewrite count_defined_app. lia. }
  pose proof (count_defined_le (skipn k l)) as Hle.
  rewrite length_skipn in Hle.
  split; [lia|].
  rewrite E, <- (length_skipn k l), count_defined_all, Forall_forall.
  split.
  - intros H i Hi. replace i with (k + (i - k))%nat by lia.
    rewrite <- nth_skipn. apply H. apply nth_In. rewrite length_skipn. lia.
  - intros H c Hc. apply (In_nth _ _ None) in Hc as (i & Hi & <-).
    rewrite length_skipn in Hi. rewrite nth_skipn. apply H. lia.
Qed.

Lemma finite_window_none (c : list Float.cell) :
  forallb is_finite c = false -> finite_window c = None.
Proof.
  unfold finite_window. intros H.
  assert (E : mapM Float.finite c = None).
  { induction c as [|x r IH]; [discriminate|].
    cbn [forallb] in H. cbn [mapM].
    destruct x as [[q | |]|]; try reflexivity.
    cbn [is_finite andb] in H. cbn [Float.finite bind].
    now rewrite (IH H). }
  now rewrite E.
Qed.

(** [rolling_corr] is the scheme with the correlation of the window
    taken in exact arithmetic. *)
Lemma rolling_corr_exact (w : nat) (a b : Series Float.t) :
  rolling_corr w a b = rolling_corr_with (exact_corr w) w a b.
Proof.
  unfold rolling_corr, rolling_corr_with, exact_corr. f_equal.
  apply map_ext. intros i. destruct (i + 1 <? w)%nat; [reflexivity|].
  destruct (forallb is_finite (window w i (mask_col _ _))) eqn:EX.
  - destruct (forallb is_finite (window w i (mask_col (s_values (snd _)) _)))
      eqn:EY; [reflexivity|].
    rewrite (finite_window_none _ EY). cbn [andb].
    now destruct (finite_window _).
  - now rewrite (finite_window_none _ EX).
Qed.

(** C6, as the code has it. Whatever float64 arithmetic makes of the
    correlation of a full window, the rolling correlation of two
    return series has one point per row of the aligned pair (the rows
    of the two series when they carry the same dates), N in all; the
    first 29 points are absent, and so is every point whose window of
    30 rows holds a missing or infinite return; so at most N - 29
    values are defined, none when N < 30, and exactly N - 29 if and
    only if every point from the 30th on is defined. *)
Theorem rolling_corr_defined_count
        {T : Type}
        (stat : nat -> list Float.cell -> list Float.cell -> option T)
        (a b : Series Float.t) :
  let ab := align a b in
  let r := rolling_corr_with stat 30 a b in
  let N := length (s_values r) in
  s_index r = s_index (fst ab)
  /\ N = length (s_index r)
  /\ (s_index a = s_index b -> ab = (a, b))
  /\ (forall i, (i < 29)%nat -> nth i (s_values r) None = None)
  /\ (forall i, nth i (s_values r) None <> None ->
                window_complete 30 i (fst ab) (snd ab))
  /\ (count_defined (s_values r) <= N - 29)%nat
  /\ ((N < 30)%nat -> count_defined (s_values r) = 0%nat)
  /\ (count_defined (s_values r) = (N - 29)%nat
      <-> forall i, (29 <= i < N)%nat -> nth i (s_values r) None <> None).
Proof.
  intros ab r N.
  pose proof (count_defined_after 29 (s_values r)
                (fun i Hi => rolling_corr_with_head stat a b i Hi))
    as [Hle Hiff].
  split; [reflexivity|].
  split; [apply rolling_corr_with_length|].
  split; [apply align_same_index|].
  split; [intros i Hi; now apply rolling_corr_with_head|].
  split; [intros i Hi; now apply rolling_corr_with_defined in Hi|].
  split; [exact Hle|].
  split; [|exact Hiff].
  intros HN. fold N in Hle. lia.
Qed.

End Rolling.

Lemma rolling_corr_defined_count_witness :
  let a := mkSeries Samples.rising_index (map of_Q Samples.rising_returns) in
  let ab := align a a in
  let r := rolling_corr_with (exact_corr 30) 30 a a in
  let N := length (s_values r) in
  s_index r = s_index (fst ab)
  /\ N = length (s_index r)
  /\ (s_index a = s_index a -> ab = (a, a))
  /\ (forall i, (i < 29)%nat -> nth i (s_values r) None = None)
  /\ (forall i, nth i (s_values r) None <> None ->
                window_complete 30 i (fst ab) (snd ab))
  /\ (count_defined (s_values r) <= N - 29)%nat
  /\ ((N < 30)%nat -> count_defined (s_values r) = 0%nat)
  /\ (count_defined (s_values r) = (N - 29)%nat
      <-> forall i, (29 <= i < N)%nat -> nth i (s_values r) None <> None).
Proof.
  exact (rolling_corr_defined_count
           (exact_corr 30)
           (mkSeries Samples.rising_index (map of_Q Samples.rising_returns))
           (mkSeries Samples.rising_index (map of_Q Samples.rising_returns))).
Defined.

(** C6 as stated fails: over 31 days at one price the 30 returns are
    all zero, the only full window has no variance, and the rolling
    correlation has no defined value where the claim counts one. *)
Lemma rolling_corr_flat_prices :
  let ret := dropna_series (pct_change_series Samples.flat_prices) in
  let r := s_values (rolling_corr 30 ret ret) in
  length (s_values ret) = 30%nat
  /\ length r = 30%nat
  /\ count_defined r = 0%nat.
Proof.
  intros ret r.
  set (q0 := (inject_Z 7 / inject_Z 7 - inject_Z 1)%Q).
  set (idx := map (fun k => 739500 + Z.of_nat k) (seq 1 30)).
  assert (E : ret = mkSeries idx (map of_Q (repeat q0 30)))
    by (vm_compute; reflexivity).
  assert (Hlen : length r = 30%nat).
  { subst r. rewrite rolling_corr_length, align_same_index by reflexivity.
    rewrite E. reflexivity. }
  split; [rewrite E; reflexivity|]. split; [exact Hlen|].
  rewrite <- (PdFacts.map_nth_seq r None), Hlen.
  rewrite (count_defined_map_seq _ 30 30); [reflexivity|].
  intros i Hi. destruct (Nat.leb_spec 30 i) as [|_]; [lia|].
  apply Bool.not_true_is_false. rewrite notna_iff. subst r. rewrite E.
  rewrite rolling_corr_defined
    by (try reflexivity; change (length idx) with 30%nat; lia).
  intros (Hge & (p & q & Hp & Hq & Hne) & _).
  assert (Hi29 : i = 29%nat) by lia. subst i.
  change (q_window 30 29 (repeat q0 30)) with (repeat q0 30) in Hp, Hq.
  apply repeat_spec in Hp, Hq. subst p q. apply Hne. reflexivity.
Qed.

(** ** The returns the callback computes from positive prices *)

Section Returns.

Lemma combine_removelast {A : Type} (x : A) (l : list A) :
  combine l (removelast (x :: l)) = combine l (x :: l).
Proof.
  revert x. induction l as [|y l IH]; intros x; [reflexivity|].
  change (removelast (x :: y :: l)) with (x :: removelast (y :: l)).
  cbn [combine]. now rewrite IH.
Qed.

Lemma pct_change_col_cons (x : Float.cell) (c : list Float.cell) :
  pct_change_col (x :: c)
  = Float.cell_sub (Float.cell_div x None) (Float.of_Z 1)
    :: map (fun p => Float.cell_sub (Float.cell_div (fst p) (snd p))
                                    (Float.of_Z 1))
           (combine c (x :: c)).
Proof.
  unfold pct_change_col, shift1. cbn [combine map fst snd].
  now rewrite combine_removelast.
Qed.

Lemma returns_of_positive (cur prev : list Q) :
  Forall (Qlt 0) prev ->
  map (fun p => Float.cell_sub (Float.cell_div (fst p) (snd p))
                               (Float.of_Z 1))
      (combine (map of_Q cur) (map of_Q prev))
  = map of_Q (map (fun p => (fst p / snd p - 1)%Q) (combine cur prev)).
Proof.
  revert prev. induction cur as [|c r IH]; intros [|q prev] Hpos;
    try reflexivity.
  inversion Hpos; subst. cbn [map combine fst snd].
  rewrite div_fin by assumption. f_equal. now apply IH.
Qed.

Lemma pct_change_col_positive (p : Q) (r : list Q) :
  Forall (Qlt 0) (p :: r) ->
  pct_change_col (map of_Q (p :: r)) = None :: map of_Q (q_returns (p :: r)).
Proof.
  intros Hpos. cbn [map]. rewrite pct_change_col_cons. f_equal.
  change (of_Q p :: map of_Q r) with (map of_Q (p :: r)).
  now rewrite returns_of_positive.
Qed.

Lemma q_returns_length (ps : list Q) :
  length (q_returns ps) = (length ps - 1)%nat.
Proof.
  unfold q_returns. rewrite length_map, length_combine.
  destruct ps; simpl; lia.
Qed.

Lemma filter_seq_from_1 (P : nat -> bool) (n : nat) :
  (forall i, (i < n)%nat -> P i = (1 <=? i)%nat) ->
  filter P (seq 0 n) = seq 1 (n - 1).
Proof.
  intros H. destruct n as [|n]; [reflexivity|].
  replace (S n - 1)%nat with n by lia.
  cbn [seq filter]. rewrite (H 0%nat) by lia. cbn [Nat.leb].
  apply forallb_filter_id, forallb_forall.
  intros i Hi. apply in_seq in Hi. rewrite H by lia.
  apply Nat.leb_le. lia.
Qed.

Lemma map_nth_seq_tl {A : Type} (l : list A) (d : A) :
  map (fun i => nth i l d) (seq 1 (length l - 1)) = tl l.
Proof.
  destruct l as [|a r]; [reflexivity|].
  cbn [length tl]. replace (S (length r) - 1)%nat with (length r) by lia.
  rewrite <- seq_shift, map_map. apply PdFacts.map_nth_seq.
Qed.

Lemma notna_nth_returns (qs : list Q) (i n : nat) :
  length qs = (n - 1)%nat -> (i < n)%nat ->
  notna (nth i (None :: map of_Q qs) None) = (1 <=? i)%nat.
Proof.
  intros Hlen Hi. destruct i as [|i]; [reflexivity|]. cbn [nth Nat.leb].
  rewrite (nth_indep _ None (of_Q 0%Q)) by (rewrite length_map; lia).
  now rewrite map_nth.
Qed.

(** The returns of one series of positive prices. *)
Lemma returns_series_positive (idx : list date) (ps : list Q) :
  ps <> [] -> length ps = length idx -> Forall (Qlt 0) ps ->
  dropna_series (pct_change_series (mkSeries idx (map of_Q ps)))
  = mkSeries (tl idx) (map of_Q (q_returns ps)).
Proof.
  intros Hne Hlen Hpos. destruct ps as [|p r]; [contradiction|].
  unfold pct_change_series, dropna_series. cbn [s_index s_values].
  rewrite pct_change_col_positive by assumption.
  rewrite (filter_seq_from_1 _ (length idx)).
  - f_equal; [rewrite <- (map_nth_seq_tl idx 0); reflexivity|].
    unfold take_col.
    replace (length idx - 1)%nat
      with (length (None :: map of_Q (q_returns (p :: r))) - 1)%nat
      by (cbn [length]; rewrite length_map, q_returns_length; lia).
    apply (map_nth_seq_tl (None :: map of_Q (q_returns (p :: r))) None).
  - intros i Hi. apply (notna_nth_returns _ i (length idx));
      [rewrite q_returns_length; lia | assumption].
Qed.

Lemma pct_change_fin_frame (idx : list date) (cols : list (string * list Q)) :
  idx <> [] -> positive_prices idx cols ->
  pct_change (fin_frame idx cols)
  = mkFrame idx
      (map (fun lc => (fst lc, None :: map of_Q (q_returns (snd lc)))) cols).
Proof.
  intros Hidx Hpos. unfold pct_change, map_cols, fin_frame. cbn [index data].
  f_equal. rewrite map_map. apply map_ext_in. intros [l ps] Hin.
  cbn [fst snd]. f_equal. unfold positive_prices in Hpos.
  rewrite Forall_forall in Hpos. destruct (Hpos _ Hin) as [Hlen Hp].
  cbn [snd] in *. destruct ps as [|p r].
  - destruct idx; [contradiction | discriminate].
  - now apply pct_change_col_positive.
Qed.

(** The returns panel of a panel of positive prices: the first date
    goes, every column holds its returns. *)
Lemma returns_panel_positive (idx : list date) (cols : list (string * list Q)) :
  idx <> [] -> cols <> [] -> positive_prices idx cols ->
  dropna (pct_change (fin_frame idx cols))
  = fin_frame (tl idx) (map (fun lc => (fst lc, q_returns (snd lc))) cols).
Proof.
  intros Hidx Hcols Hpos. rewrite pct_change_fin_frame by assumption.
  unfold dropna, take, fin_frame, n_rows. cbn [index data].
  unfold positive_prices in Hpos. rewrite Forall_forall in Hpos.
  rewrite (filter_seq_from_1 _ (length idx)).
  - f_equal; [apply map_nth_seq_tl|].
    rewrite !map_map. apply map_ext_in. intros [l ps] Hin. cbn [fst snd].
    f_equal. unfold take_col. destruct (Hpos _ Hin) as [Hlen _].
    cbn [snd] in Hlen.
    replace (length idx - 1)%nat
      with (length (None :: map of_Q (q_returns ps)) - 1)%nat
      by (cbn [length]; rewrite length_map, q_returns_length; lia).
    apply (map_nth_seq_tl (None :: map of_Q (q_returns ps)) None).
  - intros i Hi. unfold row_complete. cbn [data].
    destruct i as [|i].
    + destruct cols as [|[l0 ps0] cols']; [contradiction | reflexivity].
    + cbn [Nat.leb]. apply forallb_forall. intros x Hx.
      apply in_map_iff in Hx as ([l ps] & <- & Hin). cbn [fst snd].
      destruct (Hpos _ Hin) as [Hlen _]. cbn [snd] in Hlen.
      apply (notna_nth_returns _ (S i) (length idx));
        [rewrite q_returns_length; lia | assumption].
Qed.

Lemma get_map_snd {A B : Type} (g : A -> B) (c : string)
      (cols : Py.dict string A) :
  Py.get c (map (fun lc => (fst lc, g (snd lc))) cols)
  = option_map g (Py.get c cols).
Proof.
  induction cols as [|[l x] r IH]; [reflexivity|].
  cbn [map Py.get fst snd]. destruct (String.eqb l c); [reflexivity | exact IH].
Qed.

Lemma get_In {A : Type} (c : string) (cols : Py.dict string A) (x : A) :
  Py.get c cols = Some x -> In (c, x) cols.
Proof.
  induction cols as [|[l y] r IH]; [discriminate|].
  cbn [Py.get]. destruct (String.eqb_spec l c) as [-> | _].
  - intros E. inversion E. now left.
  - intros E. right. now apply IH.
Qed.

Lemma getitem_fin_frame (c : string) (idx : list date)
      (cols : list (string * list Q)) :
  getitem c (fin_frame idx cols)
  = option_map (fun ps => mkSeries idx (map of_Q ps)) (Py.get c cols).
Proof.
  unfold getitem, fin_frame. cbn [data index]. rewrite get_map_snd.
  destruct (Py.get c cols); reflexivity.
Qed.

Lemma mapM_picked (cols : list (string * list Q)) (labels : list string)
      (sel : list (string * list Q)) :
  mapM (fun c => ps <- Py.get c cols ;; Some (c, ps)) labels = Some sel ->
  Forall2 (picked cols) labels sel.
Proof.
  revert sel. induction labels as [|c r IH]; intros sel H.
  - inversion H. constructor.
  - cbn [mapM] in H.
    destruct (Py.get c cols) as [ps|] eqn:E; [|discriminate]. cbn [bind] in H.
    destruct (mapM _ r) as [rest|]; [|discriminate]. cbn [bind] in H.
    inversion H; subst. constructor; [now split | now apply IH].
Qed.

Lemma select_fin_frame (idx : list date) (cols : list (string * list Q))
      (labels : list string) (sel : list (string * list Q)) :
  mapM (fun c => ps <- Py.get c cols ;; Some (c, ps)) labels = Some sel ->
  select labels (fin_frame idx cols) = Some (fin_frame idx sel).
Proof.
  intros H. unfold select, fin_frame. cbn [data index].
  assert (E : mapM (fun l => c <- Py.get l (map (fun lc => (fst lc, map of_Q (snd lc))) cols) ;;
                             Some (l, c)) labels
              = Some (map (fun lc => (fst lc, map of_Q (snd lc))) sel)).
  { revert sel H. induction labels as [|c r IH]; intros sel H.
    - inversion H. reflexivity.
    - cbn [mapM] in H |- *. rewrite get_map_snd.
      destruct (Py.get c cols) as [ps|]; [|discriminate].
      cbn [bind option_map] in H |- *.
      destruct (mapM _ r) as [rest|] eqn:Er; [|discriminate].
      cbn [bind] in H. inversion H; subst.
      rewrite (IH rest eq_refl). reflexivity. }
  unfold Float.cell, cell in *. rewrite E. reflexivity.
Qed.

Lemma picked_positive (idx : list date) (cols sel : list (string * list Q))
      (labels : list string) :
  positive_prices idx cols -> Forall2 (picked cols) labels sel ->
  positive_prices idx sel.
Proof.
  unfold positive_prices. intros Hpos H. rewrite Forall_forall in Hpos.
  induction H as [|c lc cs ss [Hl Hg] _ IH]; constructor; [|exact IH].
  apply get_In in Hg. apply (Hpos _ Hg).
Qed.

(** A panel of finite prices has no row to drop. *)
Lemma dropna_fin_frame (idx : list date) (cols : list (string * list Q)) :
  Forall (fun lc => length (snd lc) = length idx) cols ->
  dropna (fin_frame idx cols) = fin_frame idx cols.
Proof.
  intros H. unfold dropna.
  rewrite forallb_filter_id; [apply PdFacts.take_all|].
  - unfold rectangular, fin_frame, n_rows. cbn [data index].
    rewrite Forall_map. eapply Forall_impl; [|exact H].
    intros [l ps] E. cbn [snd] in *. now rewrite length_map.
  - apply forallb_forall. intros i Hi. apply in_seq in Hi.
    unfold row_complete, fin_frame. cbn [data].
    apply forallb_forall. intros x Hx.
    apply in_map_iff in Hx as ([l ps] & <- & Hin). cbn [snd].
    rewrite Forall_forall in H. specialize (H _ Hin). cbn [snd] in H.
    unfold n_rows, fin_frame in Hi. cbn [index] in Hi.
    rewrite (nth_indep _ None (of_Q 0%Q)) by (rewrite length_map; lia).
    now rewrite map_nth.
Qed.

Lemma picked_get (cols sel : list (string * list Q)) (labels : list string)
      (c : string) :
  Forall2 (picked cols) labels sel -> In c labels ->
  Py.get c sel = Py.get c cols.
Proof.
  induction 1 as [|c0 [l0 ps0] cs ss [Hl Hg] _ IH]; intros Hin;
    [contradiction|].
  cbn [fst snd] in *. subst l0. cbn [Py.get].
  destruct (String.eqb_spec c0 c) as [-> | Hne]; [now rewrite Hg|].
  destruct Hin as [-> | Hin]; [contradiction | now apply IH].
Qed.

(** Lines 156-171 on a panel of positive prices: every trace is the
    rolling correlation of two series of returns on the dates after
    the first. *)
Lemma corr_traces_positive (idx : list date) (cols sel : list (string * list Q))
      (cryptos : list string) (ps_n : list Q) :
  idx <> [] -> cryptos <> [] -> positive_prices idx cols ->
  Py.get "Nasdaq" cols = Some ps_n ->
  mapM (fun c => ps <- Py.get c cols ;; Some (c, ps)) cryptos = Some sel ->
  select cryptos (fin_frame idx cols) = Some (fin_frame idx sel)
  /\ corr_traces (fin_frame idx cols)
                 (dropna (pct_change (dropna (fin_frame idx sel)))) cryptos
     = Some (map (fun lc =>
                    (fst lc,
                     rolling_corr 30
                       (mkSeries (tl idx) (map of_Q (q_returns (snd lc))))
                       (mkSeries (tl idx) (map of_Q (q_returns ps_n)))))
                 sel).
Proof.
  intros Hidx Hcr Hpos Hn Hsel.
  split; [now apply select_fin_frame|].
  pose proof (mapM_picked _ _ _ Hsel) as Hpick.
  pose proof (picked_positive _ _ _ _ Hpos Hpick) as Hpos_sel.
  assert (Hsel_ne : sel <> []).
  { destruct Hpick; [contradiction | discriminate]. }
  rewrite dropna_fin_frame
    by (eapply Forall_impl; [|exact Hpos_sel]; intros lc [E _]; exact E).
  rewrite returns_panel_positive by assumption.
  unfold corr_traces. rewrite getitem_fin_frame, Hn. cbn [option_map].
  assert (Hn' : ps_n <> [] /\ length ps_n = length idx /\ Forall (Qlt 0) ps_n).
  { apply get_In in Hn. unfold positive_prices in Hpos.
    rewrite Forall_forall in Hpos. destruct (Hpos _ Hn) as [E P].
    cbn [snd] in *. repeat split; try assumption.
    intros ->. destruct idx; [contradiction | discriminate]. }
  destruct Hn' as (Hne & Hlen & Hp).
  rewrite (returns_series_positive idx ps_n Hne Hlen Hp).
  assert (Hget : forall c, In c cryptos ->
            getitem c (fin_frame (tl idx)
                         (map (fun lc => (fst lc, q_returns (snd lc))) sel))
            = option_map (fun ps => mkSeries (tl idx) (map of_Q (q_returns ps)))
                         (Py.get c cols)).
  { intros c Hc. rewrite getitem_fin_frame, get_map_snd.
    rewrite (picked_get cols sel cryptos c Hpick Hc).
    destruct (Py.get c cols); reflexivity. }
  clear Hsel Hsel_ne Hpos_sel Hcr.
  revert Hget. generalize (fin_frame (tl idx)
                 (map (fun lc => (fst lc, q_returns (snd lc))) sel)) as rc.
  intros rc. induction Hpick as [|c lc cs ss [Hl Hg] _ IH]; intros Hget;
    [reflexivity|].
  cbn [mapM map]. rewrite (Hget c) by now left. rewrite Hg.
  cbn [option_map bind]. rewrite IH by (intros c' Hc'; apply Hget; now right).
  cbn [bind]. now rewrite Hl.
Qed.

End Returns.

End MetricsFacts.

(** * Further properties of the pandas model *)

Module PdLaws.

Import Pd PdFacts.

Section FillLaws.

Context {V : Type}.
Implicit Types c : list (cell V).

Lemma ffill_from_keeps last c (i : nat) (v : V) :
  nth i c None = Some v -> nth i (ffill_from last c) None = Some v.
Proof.
  revert last i. induction c as [|[w|] r IH]; intros last [|i] H;
    simpl in *; try discriminate; try assumption; now apply IH.
Qed.

Lemma bfill_col_keeps c (i : nat) (v : V) :
  nth i c None = Some v -> nth i (bfill_col c) None = Some v.
Proof.
  revert i. induction c as [|[w|] r IH]; intros [|i] H;
    simpl in *; try discriminate; try assumption; now apply IH.
Qed.

Lemma ffill_from_values last c :
  Forall (fun x => x = None \/ x = last \/ In x c) (ffill_from last c).
Proof.
  revert last. induction c as [|[w|] r IH]; intros last; simpl.
  - constructor.
  - constructor; [right; right; now left|].
    eapply Forall_impl; [|apply IH].
    intros x [H | [H | H]];
      [now left | right; right; left; now symmetry | right; right; now right].
  - constructor; [right; now left|].
    eapply Forall_impl; [|apply IH].
    intros x [H | [H | H]];
      [now left | right; now left | right; right; now right].
Qed.

Lemma bfill_col_values c :
  Forall (fun x => x = None \/ In x c) (bfill_col c).
Proof.
  induction c as [|[w|] r IH]; simpl.
  - constructor.
  - constructor; [right; now left|].
    eapply Forall_impl; [|exact IH].
    intros x [H | H]; [now left | right; now right].
  - assert (Hr : Forall (fun x => x = None \/ In x (None :: r)) (bfill_col r)).
    { eapply Forall_impl; [|exact IH].
      intros x [H | H]; [now left | right; now right]. }
    constructor; [|exact Hr].
    destruct (bfill_col r) as [|x l]; [now left|]. simpl.
    now inversion Hr.
Qed.

(** X1. The contract of [ffill().bfill()]: every column keeps its
    place, its label and its length; a cell that holds a value keeps
    it; every value of the result is a value of the same column; and
    no gap is left, unless the column held no value at all. *)
Theorem fill_contract (df : DataFrame V) (k : nat) (l : string) c :
  nth_error (data df) k = Some (l, c) ->
  index (DataFetching.fill df) = index df
  /\ exists c',
       nth_error (data (DataFetching.fill df)) k = Some (l, c')
       /\ length c' = length c
       /\ (forall i v, nth i c None = Some v -> nth i c' None = Some v)
       /\ Forall (fun x => x = None \/ In x c) c'
       /\ (no_na c' \/ all_na c).
Proof.
  intros H. split; [reflexivity|].
  exists (bfill_col (ffill_col c)). repeat split.
  - unfold DataFetching.fill, bfill, ffill, map_cols. cbn [data].
    rewrite map_map, nth_error_map, H. reflexivity.
  - unfold ffill_col. now rewrite bfill_col_length, ffill_from_length.
  - intros i v Hv. apply bfill_col_keeps. unfold ffill_col.
    now apply ffill_from_keeps.
  - pose proof (bfill_col_values (ffill_col c)) as Hb.
    pose proof (ffill_from_values None c) as Hf. fold (ffill_col c) in Hf.
    rewrite Forall_forall in *. intros x Hx.
    destruct (Hb x Hx) as [E | Hin]; [now left|].
    destruct (Hf x Hin) as [E | [E | E]]; auto.
  - destruct (fill_col_filled c) as [Hs | Hn]; [now left|]. right.
    unfold all_na in *. rewrite Forall_forall in *. intros x Hx.
    destruct x as [v|]; [|reflexivity]. exfalso.
    apply In_nth with (d := None) in Hx as (i & Hi & E).
    assert (Hi' : (i < length (bfill_col (ffill_col c)))%nat).
    { unfold ffill_col. now rewrite bfill_col_length, ffill_from_length. }
    pose proof (bfill_col_keeps _ i v (ffill_from_keeps None c i v E)) as Hk.
    fold (ffill_col c) in Hk.
    assert (Hnone : nth i (bfill_col (ffill_col c)) None = None).
    { apply Hn. now apply nth_In. }
    congruence.
Qed.

End FillLaws.

Lemma fill_contract_witness :
  index (DataFetching.fill SmallTables.unsorted) = index SmallTables.unsorted
  /\ exists c',
       nth_error (data (DataFetching.fill SmallTables.unsorted)) 0
       = Some ("a", c')
       /\ length c' = length [Some 30; None; Some 20]
       /\ (forall i v, nth i [Some 30; None; Some 20] None = Some v ->
                       nth i c' None = Some v)
       /\ Forall (fun x => x = None \/ In x [Some 30; None; Some 20]) c'
       /\ (no_na c' \/ all_na [Some 30; None; Some 20]).
Proof.
  apply (fill_contract SmallTables.unsorted 0 "a" [Some 30; None; Some 20]).
  reflexivity.
Defined.

Section SortLaws.

Context {V : Type}.
Implicit Types c : list (cell V).

Lemma lookup_not_in (d : date) (idx : list date) c :
  ~ In d idx -> lookup d idx c = None.
Proof.
  revert c. induction idx as [|k r IH]; intros [|v c] H; try reflexivity.
  cbn [lookup]. destruct (Z.eqb_spec k d) as [-> | _].
  - exfalso. apply H. now left.
  - apply IH. intros Hin. apply H. now right.
Qed.

Lemma lookup_nth (idx : list date) c (i : nat) :
  NoDup idx -> (i < length idx)%nat ->
  lookup (nth i idx 0) idx c = nth i c None.
Proof.
  revert c i. induction idx as [|k r IH]; intros c i Hnd Hi;
    [simpl in Hi; lia|].
  inversion Hnd as [|? ? Hk Hr]; subst.
  destruct c as [|v c]; [destruct i; reflexivity|].
  destruct i as [|i]; cbn [nth lookup].
  - now rewrite Z.eqb_refl.
  - simpl in Hi. destruct (Z.eqb_spec k (nth i r 0)) as [E | _].
    + exfalso. apply Hk. rewrite E. apply nth_In. lia.
    + apply IH; [assumption | lia].
Qed.

Lemma lookup_take (d : date) (idx : list date) c (pos : list nat) :
  NoDup idx -> Forall (fun p => (p < length idx)%nat) pos ->
  lookup d (map (fun p => nth p idx 0) pos) (take_col pos c)
  = if existsb (fun p => nth p idx 0 =? d) pos then lookup d idx c else None.
Proof.
  intros Hnd Hpos. induction Hpos as [|p r Hp _ IH]; [reflexivity|].
  unfold take_col in *. cbn [map lookup existsb].
  destruct (Z.eqb_spec (nth p idx 0) d) as [<- | _]; cbn [orb].
  - symmetry. now apply lookup_nth.
  - exact IH.
Qed.

Lemma argsort_perm (idx : list date) :
  Permutation (argsort idx) (seq 0 (length idx)).
Proof.
  unfold argsort. rewrite <- (map_snd_combine_seq idx 0) at 2.
  apply Permutation_map, sort_by_date_perm.
Qed.

Lemma lookup_sort_index (d : date) (idx : list date) c :
  NoDup idx ->
  lookup d (map (fun p => nth p idx 0) (argsort idx)) (take_col (argsort idx) c)
  = lookup d idx c.
Proof.
  intros Hnd. rewrite lookup_take; [|assumption|].
  - destruct (existsb _ (argsort idx)) eqn:E; [reflexivity|].
    symmetry. apply lookup_not_in. intros Hin.
    apply In_nth with (d := 0) in Hin as (i & Hi & Hd).
    assert (Hex : existsb (fun p => nth p idx 0 =? d) (argsort idx) = true).
    { apply existsb_exists. exists i. split; [|now apply Z.eqb_eq].
      eapply Permutation_in; [apply Permutation_sym, argsort_perm|].
      apply in_seq. lia. }
    congruence.
  - apply Forall_forall. intros p Hp.
    eapply Permutation_in in Hp; [|apply argsort_perm].
    apply in_seq in Hp. lia.
Qed.

(** X2. The contract of [sort_index()] on a table without a repeated
    date: the dates come out in strictly increasing order, they are
    the same dates, every column keeps its place and label, and every
    row keeps its cells: looking a date up gives the same cell before
    and after. *)
Theorem sort_index_contract (df : DataFrame V) :
  NoDup (index df) ->
  Permutation (index (sort_index df)) (index df)
  /\ StronglySorted Z.lt (index (sort_index df))
  /\ forall k l c,
       nth_error (data df) k = Some (l, c) ->
       exists c',
         nth_error (data (sort_index df)) k = Some (l, c')
         /\ forall d, lookup d (index (sort_index df)) c'
                      = lookup d (index df) c.
Proof.
  intros Hnd. split; [|split].
  - rewrite index_sort_index. apply sort_dates_perm.
  - rewrite index_sort_index. apply sorted_nodup_strict.
    + apply sort_dates_sorted.
    + eapply Permutation_NoDup; [|exact Hnd].
      apply Permutation_sym, sort_dates_perm.
  - intros k l c H. exists (take_col (argsort (index df)) c). split.
    + unfold sort_index, take. cbn [data]. now rewrite nth_error_map, H.
    + intros d. unfold sort_index, take. cbn [index].
      now apply lookup_sort_index.
Qed.

End SortLaws.

Lemma sort_index_contract_witness :
  index (sort_index SmallTables.unsorted) = [1; 2; 3]
  /\ StronglySorted Z.lt (index (sort_index SmallTables.unsorted))
  /\ exists c',
       nth_error (data (sort_index SmallTables.unsorted)) 0 = Some ("a", c')
       /\ forall d, lookup d (index (sort_index SmallTables.unsorted)) c'
                    = lookup d [3; 1; 2] [Some 30; None; Some 20].
Proof.
  assert (Hnd : NoDup (index SmallTables.unsorted)).
  { simpl. repeat constructor; simpl; intuition discriminate. }
  destruct (sort_index_contract SmallTables.unsorted Hnd) as (_ & Hs & Hc).
  split; [reflexivity|]. split; [exact Hs|].
  apply (Hc 0%nat "a" [Some 30; None; Some 20]). reflexivity.
Defined.

Section ConcatLaws.

Context {V : Type}.
Implicit Types c : list (cell V).

Lemma lookup_map_self (g : date -> cell V) (new : list date) (d : date) :
  In d new -> lookup d new (map g new) = g d.
Proof.
  induction new as [|k r IH]; intros H; [contradiction|].
  cbn [map lookup]. destruct (Z.eqb_spec k d) as [-> | Hne]; [reflexivity|].
  destruct H as [E | H]; [contradiction | now apply IH].
Qed.

Lemma flat_map_fst {A B : Type} (cols : list (list (A * B))) :
  map fst (flat_map (fun part => part) cols) = flat_map (map fst) cols.
Proof.
  induction cols as [|c r IH]; [reflexivity|].
  cbn [flat_map]. now rewrite map_app, IH.
Qed.

Lemma mapM_flat_map {A B C : Type} (f : A -> option B) (g : B -> list C)
      (h : A -> list C) (l : list A) (bs : list B) :
  mapM f l = Some bs ->
  (forall a b, In a l -> f a = Some b -> g b = h a) ->
  flat_map g bs = flat_map h l.
Proof.
  revert bs. induction l as [|a r IH]; intros bs H Hgh; cbn [mapM] in H.
  - inversion H. reflexivity.
  - destruct (f a) as [b|] eqn:Ea; [|discriminate]. cbn [bind] in H.
    destruct (mapM f r) as [bs'|]; [|discriminate]. cbn [bind] in H.
    inversion H; subst; clear H. cbn [flat_map]. f_equal.
    + apply Hgh; [now left | assumption].
    + apply IH; [reflexivity|]. intros x y Hx. apply Hgh. now right.
Qed.

Lemma concat_columns (frames : list (DataFrame V)) (df : DataFrame V) :
  concat frames = Some df -> columns df = flat_map columns frames.
Proof.
  intros H. apply concat_inv in H as (f & fs & cols & -> & Hm & _ & Hd).
  unfold columns at 1. rewrite Hd, flat_map_fst.
  apply (mapM_flat_map _ _ _ _ _ Hm).
  intros g part _ Hc. eapply realign_columns; eassumption.
Qed.

Lemma concat_index_iff (frames : list (DataFrame V)) (df : DataFrame V)
      (d : date) :
  concat frames = Some df ->
  In d (index df) <-> Exists (fun f => In d (index f)) frames.
Proof.
  apply concat_index_In.
Qed.

(** A column of a joined table holds, at every date, the cell it
    held in its own table. *)
Lemma concat_data (frames : list (DataFrame V)) (df f : DataFrame V)
      (l : string) c :
  concat frames = Some df -> In f frames -> In (l, c) (data f) ->
  exists c',
    In (l, c') (data df)
    /\ (rectangular f -> length c' = n_rows df)
    /\ forall d, lookup d (index df) c' = lookup d (index f) c.
Proof.
  intros H Hf Hc.
  destruct (concat_part _ _ f H Hf) as (cols & Hre & Hincl).
  unfold realign in Hre.
  destruct (same_index (index f) (index df)) eqn:Es.
  - apply same_index_eq in Es. inversion Hre; subst cols; clear Hre.
    exists c. split; [now apply Hincl|]. split.
    + intros Hr. unfold rectangular in Hr. rewrite Forall_forall in Hr.
      specialize (Hr _ Hc). cbn [snd] in Hr. unfold n_rows in *.
      now rewrite <- Es.
    + intros d. now rewrite Es.
  - destruct (is_unique (index f)); [|discriminate].
    inversion Hre; subst cols; clear Hre.
    exists (map (fun d => lookup d (index f) c) (index df)).
    split; [|split].
    + apply Hincl. unfold reindex. cbn [data]. apply in_map_iff.
      exists (l, c). split; [reflexivity | assumption].
    + intros _. apply length_map.
    + intros d. destruct (in_dec Z.eq_dec d (index df)) as [Hin | Hn].
      * now apply lookup_map_self.
      * rewrite !lookup_not_in; [reflexivity | | assumption].
        intros Hd. apply Hn. apply (concat_index_iff _ _ d H).
        apply Exists_exists. now exists f.
Qed.

Lemma concat_rectangular (frames : list (DataFrame V)) (df : DataFrame V) :
  concat frames = Some df -> Forall rectangular frames -> rectangular df.
Proof.
  intros H Hr.
  pose proof H as H'.
  apply concat_inv in H' as (f & fs & cols & -> & Hm & _ & Hd).
  unfold rectangular. rewrite Hd. apply Forall_forall. intros [l c'] Hin.
  apply in_flat_map in Hin as (part & Hpart & Hin). cbn [snd].
  assert (Hex : exists g, In g (f :: fs)
                          /\ realign (index df) g = Some part).
  { clear - Hm Hpart. revert cols Hm Hpart.
    induction (f :: fs) as [|g r IH]; intros cols Hm Hpart;
      cbn [mapM] in Hm.
    - inversion Hm; subst. contradiction.
    - destruct (realign (index df) g) as [pg|] eqn:Eg; [|discriminate].
      cbn [bind] in Hm.
      destruct (mapM (realign (index df)) r) as [ps|]; [|discriminate].
      cbn [bind] in Hm. inversion Hm; subst; clear Hm.
      destruct Hpart as [-> | Hpart].
      + exists g. split; [now left | assumption].
      + destruct (IH ps eq_refl Hpart) as (g' & Hg' & E).
        exists g'. split; [now right | assumption]. }
  destruct Hex as (g & Hg & Hre).
  rewrite Forall_forall in Hr. specialize (Hr g Hg).
  unfold realign in Hre.
  destruct (same_index (index g) (index df)) eqn:Es.
  - apply same_index_eq in Es. inversion Hre; subst part.
    unfold rectangular in Hr. rewrite Forall_forall in Hr.
    specialize (Hr _ Hin). cbn [snd] in Hr. unfold n_rows in *.
    now rewrite <- Es.
  - destruct (is_unique (index g)); [|discriminate].
    inversion Hre; subst part. unfold reindex in Hin. cbn [data] in Hin.
    apply in_map_iff in Hin as ([l0 c0] & E & _). inversion E; subst.
    apply length_map.
Qed.

(** X3. The contract of [pd.concat(..., axis=1)].  It raises on an
    empty list.  On tables none of which repeats a date it returns
    a table whose dates are exactly the dates of the tables joined,
    none twice, in increasing order unless they are the dates of one
    of the tables as that table has them; whose column labels are
    theirs, table after table; and whose columns hold, at every
    date, the cell they held in their own table (a missing cell
    where that table has no such date). *)
Theorem concat_contract (frames : list (DataFrame V)) :
  concat (@nil (DataFrame V)) = None
  /\ (frames <> [] ->
      Forall (fun f => NoDup (index f)) frames ->
      exists df,
        concat frames = Some df
        /\ (forall d, In d (index df)
                      <-> Exists (fun f => In d (index f)) frames)
        /\ NoDup (index df)
        /\ (StronglySorted Z.lt (index df)
            \/ exists f, In f frames /\ index df = index f)
        /\ columns df = flat_map columns frames
        /\ (Forall rectangular frames -> rectangular df)
        /\ forall f l c,
             In f frames -> In (l, c) (data f) ->
             exists c',
               In (l, c') (data df)
               /\ forall d, lookup d (index df) c' = lookup d (index f) c).
Proof.
  split; [reflexivity|]. intros Hne Hnd.
  destruct (concat frames) as [df|] eqn:E.
  2:{ exfalso. revert E. apply concat_returns.
      destruct frames as [|f fs]; [contradiction|].
      exists f, fs. split; [reflexivity|]. intros g Hg. right.
      rewrite Forall_forall in Hnd. now apply Hnd. }
  exists df. split; [reflexivity|].
  assert (Hu : NoDup (index df)) by (eapply concat_index; eassumption).
  split; [intros d; now apply concat_index_iff|].
  split; [exact Hu|]. split; [|split; [|split]].
  - pose proof E as E'.
    apply concat_inv in E' as (f & fs & cols & -> & _ & Hi & _).
    destruct (fold_union_sorted (map index fs) (index f)) as [Hin | Hs].
    + right. rewrite <- Hi in Hin. destruct Hin as [E1 | Hin].
      * exists f. split; [now left | now symmetry].
      * apply in_map_iff in Hin as (g & Eg & Hg).
        exists g. split; [now right | now symmetry].
    + left. rewrite <- Hi in Hs. now apply sorted_nodup_strict.
  - now apply concat_columns.
  - now apply concat_rectangular.
  - intros f l c Hf Hc.
    destruct (concat_data _ _ f l c E Hf Hc) as (c' & H1 & _ & H2).
    now exists c'.
Qed.

End ConcatLaws.

Lemma concat_contract_witness :
  exists df,
    concat [SmallTables.unsorted; SmallTables.other] = Some df
    /\ index df = [1; 2; 3; 4]
    /\ (forall d, In d (index df)
                  <-> Exists (fun f => In d (index f))
                             [SmallTables.unsorted; SmallTables.other])
    /\ NoDup (index df)
    /\ columns df = ["a"; "b"; "c"].
Proof.
  destruct (proj2 (concat_contract
                     [SmallTables.unsorted; SmallTables.other]))
    as (df & E & Hd & Hu & _ & Hc & _).
  - discriminate.
  - repeat constructor; simpl; intuition discriminate.
  - exists df. split; [exact E|].
    split; [vm_compute in E; inversion E; reflexivity|].
    split; [exact Hd|]. split; [exact Hu | exact Hc].
Defined.

Section DropnaLaws.

Context {V : Type}.
Implicit Types df : DataFrame V.

Lemma dropna_no_na df (l : string) (c : list (cell V)) :
  In (l, c) (data (dropna df)) -> no_na c.
Proof.
  unfold dropna, take. cbn [data]. intros H.
  apply in_map_iff in H as ([l0 c0] & E & Hin). inversion E; subst; clear E.
  cbn [snd]. unfold no_na, take_col. rewrite Forall_map.
  apply Forall_forall. intros i Hi. apply filter_In in Hi as [_ Hi].
  unfold row_complete in Hi. rewrite forallb_forall in Hi.
  specialize (Hi _ Hin). cbn [snd] in Hi.
  intros E. unfold cell in *. rewrite E in Hi. discriminate Hi.
Qed.

Lemma dropna_complete df :
  rectangular df ->
  (forall l c, In (l, c) (data df) -> no_na c) ->
  dropna df = df.
Proof.
  intros Hr Hc. unfold dropna.
  rewrite forallb_filter_id; [now apply take_all|].
  apply forallb_forall. intros i Hi. apply in_seq in Hi.
  unfold row_complete. apply forallb_forall. intros [l c] Hin. cbn [snd].
  unfold rectangular in Hr. rewrite Forall_forall in Hr.
  pose proof (Hr _ Hin) as Hlen. cbn [snd] in Hlen.
  specialize (Hc l c Hin). unfold no_na in Hc. rewrite Forall_forall in Hc.
  unfold cell, n_rows in *.
  assert (Hn : nth i c None <> None) by (apply Hc, nth_In; lia).
  destruct (nth i c None); [reflexivity | contradiction].
Qed.

Lemma dropna_columns df : columns (dropna df) = columns df.
Proof.
  unfold dropna, take, columns. cbn [data]. rewrite map_map. reflexivity.
Qed.

(** X4. The contract of [dropna()]: the column labels stay, no column
    of the result holds a missing cell, no row is added, a second
    [dropna()] changes nothing, and a table that has a cell for every
    row of every column, none of them missing, comes out as it is. *)
Theorem dropna_contract df :
  columns (dropna df) = columns df
  /\ rectangular (dropna df)
  /\ (forall l c, In (l, c) (data (dropna df)) -> no_na c)
  /\ (n_rows (dropna df) <= n_rows df)%nat
  /\ dropna (dropna df) = dropna df
  /\ (rectangular df ->
      (forall l c, In (l, c) (data df) -> no_na c) ->
      dropna df = df).
Proof.
  split; [apply dropna_columns|].
  split; [apply take_rectangular|].
  split; [apply dropna_no_na|].
  split.
  - unfold dropna, take, n_rows. cbn [index]. rewrite length_map.
    etransitivity; [apply filter_length_le|]. now rewrite length_seq.
  - split; [|apply dropna_complete].
    apply dropna_complete; [apply take_rectangular | apply dropna_no_na].
Qed.

End DropnaLaws.

End PdLaws.

(** * Further properties of the merge pipeline *)

Module PipelineLaws.

Import Pd DataFetching PdFacts PipelineFacts PdLaws.

Section Laws.

Context {V : Type}.
Variable yf_download : YahooRequest -> YahooFrame V.
Variable DataReader : FredRequest -> DataFrame V.
Variable clock : nat -> Py.datetime.

Lemma set_columns_one (label : string) (df df' : DataFrame V) :
  set_columns [label] df = Some df' ->
  exists l0 c, data df = [(l0, c)]
               /\ df' = mkFrame (index df) [(label, c)].
Proof.
  intros H. apply set_columns_Some in H as [E ->].
  destruct (data df) as [|[l0 c] [|x r]]; try discriminate.
  exists l0, c. split; reflexivity.
Qed.

Lemma set_columns_one_Some (label l0 : string) (c : list (cell V))
      (df : DataFrame V) :
  data df = [(l0, c)] ->
  set_columns [label] df = Some (mkFrame (index df) [(label, c)]).
Proof.
  intros E. unfold set_columns. rewrite E. reflexivity.
Qed.

End Laws.

Section Frames.

Context {V : Type}.
Variable yf_download : YahooRequest -> YahooFrame V.
Variable DataReader : FredRequest -> DataFrame V.
Variable clock : nat -> Py.datetime.

Lemma fill_data_length (df : DataFrame V) :
  length (data (fill df)) = length (data df).
Proof.
  unfold fill, bfill, ffill, map_cols. cbn [data]. now rewrite !length_map.
Qed.

(** The frames of the FRED entries, one by one. *)
Lemma fetch_fred_frames_inv k entries period frames :
  fetch_fred_frames DataReader clock k entries period = Some frames ->
  Forall2 (fun e f =>
             exists i req l0 c,
               fred_request (clock i) (snd e) period = Some req
               /\ data (DataReader req) = [(l0, c)]
               /\ f = mkFrame (index (DataReader req))
                              [(fst e, bfill_col (ffill_col c))])
          entries frames.
Proof.
  revert k frames. induction entries as [|[label series] r IH];
    intros k frames H; cbn [fetch_fred_frames] in H.
  - inversion H. constructor.
  - bind_inv H. bind_inv H. bind_inv H. inversion H; subst; clear H.
    constructor; [|eapply IH; eassumption].
    unfold fetch_fred_series in E. bind_inv E. inversion E; subst; clear E.
    apply set_columns_one in E0 as (l0 & c0 & Hd & ->).
    unfold fill, bfill, ffill, map_cols in Hd. cbn [data] in Hd.
    rewrite map_map in Hd.
    destruct (data (DataReader x2)) as [|[l1 c1] [|y t]] eqn:Ed;
      try discriminate.
    cbn [map fst snd] in Hd. inversion Hd; subst.
    exists k, x2. eexists. eexists.
    split; [eassumption|]. split; [exact Ed | reflexivity].
Qed.

Lemma fetch_fred_frames_Some k entries period :
  (forall i label series,
      nth_error entries i = Some (label, series) ->
      exists req,
        fred_request (clock (k + i)) series period = Some req
        /\ length (data (DataReader req)) = 1%nat) ->
  exists frames,
    fetch_fred_frames DataReader clock k entries period = Some frames
    /\ length frames = length entries.
Proof.
  revert k. induction entries as [|[label series] r IH]; intros k H.
  - exists []. split; reflexivity.
  - destruct (H 0%nat label series eq_refl) as (req & Er & Hlen).
    rewrite Nat.add_0_r in Er.
    destruct (IH (S k)) as (rest & Erest & Hl).
    { intros i l s Hi. rewrite Nat.add_succ_comm. exact (H (S i) l s Hi). }
    cbn [fetch_fred_frames]. unfold fetch_fred_series. rewrite Er.
    cbn [bind].
    destruct (data (DataReader req)) as [|[l1 c1] [|y t]] eqn:Ed;
      try discriminate.
    rewrite (set_columns_one_Some label l1 (bfill_col (ffill_col c1)))
      by (unfold fill, bfill, ffill, map_cols; cbn [data];
          now rewrite map_map, Ed).
    cbn [bind]. rewrite Erest. cbn [bind].
    eexists. split; [reflexivity|]. cbn [length]. now rewrite Hl.
Qed.

Lemma fetch_fred_frames_ok k entries period frames :
  fetch_fred_frames DataReader clock k entries period = Some frames ->
  forall i label series,
    nth_error entries i = Some (label, series) ->
    exists req,
      fred_request (clock (k + i)) series period = Some req
      /\ length (data (DataReader req)) = 1%nat.
Proof.
  revert k frames. induction entries as [|[label0 series0] r IH];
    intros k frames H i label series Hi; [destruct i; discriminate|].
  cbn [fetch_fred_frames] in H. bind_inv H. bind_inv H. bind_inv H.
  destruct i as [|i].
  - inversion Hi; subst. rewrite Nat.add_0_r.
    unfold fetch_fred_series in E. bind_inv E. inversion E; subst; clear E.
    exists x2. split; [assumption|].
    apply set_columns_Some in E0 as [El _]. rewrite fill_data_length in El.
    now symmetry.
  - rewrite <- Nat.add_succ_comm. eapply IH; eassumption.
Qed.

End Frames.

Section Shape.

Context {V : Type}.
Variable yf_download : YahooRequest -> YahooFrame V.
Variable DataReader : FredRequest -> DataFrame V.
Variable clock : nat -> Py.datetime.

Lemma columns_sort_and_fill (m : DataFrame V) :
  columns (sort_and_fill m) = columns m.
Proof.
  unfold sort_and_fill, bfill, ffill, map_cols, sort_index, take, columns.
  cbn [data]. rewrite !map_map. reflexivity.
Qed.

Lemma data_sort_and_fill (m : DataFrame V) (l : string) (c : list (cell V)) :
  In (l, c) (data (sort_and_fill m)) <->
  exists c0, In (l, c0) (data m)
             /\ c = bfill_col (ffill_col (take_col (argsort (index m)) c0)).
Proof.
  unfold sort_and_fill, bfill, ffill, map_cols, sort_index, take.
  cbn [data index]. rewrite !map_map. cbn [fst snd]. rewrite in_map_iff.
  split.
  - intros ([l0 c0] & E & Hin). inversion E; subst. now exists c0.
  - intros (c0 & Hin & ->). now exists (l, c0).
Qed.

Lemma set_columns_columns labels (df df' : DataFrame V) :
  set_columns labels df = Some df' -> columns df' = labels.
Proof.
  intros H. apply set_columns_Some in H as [E ->].
  unfold columns. cbn [data].
  rewrite <- (length_map snd) in E. revert E.
  generalize (map snd (data df)) as cs. clear. intros cs. revert cs.
  induction labels as [|l r IH]; intros [|c cs] E; try discriminate;
    [reflexivity|].
  cbn [combine map fst]. f_equal. apply IH. simpl in E. congruence.
Qed.

Lemma fred_frames_columns (entries : Py.dict string string)
      (period : string) (frames : list (DataFrame V)) k :
  fetch_fred_frames DataReader clock k entries period = Some frames ->
  flat_map columns frames = Py.keys entries.
Proof.
  intros H. apply fetch_fred_frames_inv in H.
  induction H as [|e f es fs (i & req & l0 & c & _ & _ & ->) _ IH];
    [reflexivity|].
  cbn [flat_map Py.keys map]. unfold columns at 1. cbn [data map fst app].
  f_equal. exact IH.
Qed.

(** X5. The shape of every panel the pipeline returns: its columns
    are the five FRED labels followed by the six Yahoo labels, in the
    order of the two catalogs; every column has one cell per date; and
    every column is either without a missing cell or without a value. *)
Theorem panel_shape (period interval : string) (df : DataFrame V) :
  fetch_cross_asset_data yf_download DataReader clock period interval
  = Some df ->
  columns df = Py.keys FRED_TICKERS ++ Py.keys YAHOO_TICKERS
  /\ rectangular df
  /\ forall l c, In (l, c) (data df) -> no_na c \/ all_na c.
Proof.
  intros H.
  apply fetch_cross_asset_data_steps in H
    as (close0 & close & frames & fred_all & merged
        & Hc0 & Hc & Hf & Hfa & Hm & ->).
  split; [|split].
  - rewrite columns_sort_and_fill, (concat_columns _ _ Hm).
    cbn [flat_map]. rewrite app_nil_r.
    rewrite (concat_columns _ _ Hfa), (fred_frames_columns _ _ _ _ Hf).
    now rewrite (set_columns_columns _ _ _ Hc).
  - apply sort_and_fill_rectangular.
  - intros l c Hin. apply data_sort_and_fill in Hin as (c0 & _ & ->).
    apply fill_col_filled.
Qed.

Lemma fetch_succeeds (period interval : string) :
  PipelineSpec.unique_dates yf_download DataReader ->
  PipelineSpec.yahoo_ok yf_download period interval ->
  PipelineSpec.fred_ok DataReader clock period ->
  fetch_cross_asset_data yf_download DataReader clock period interval
  <> None.
Proof.
  unfold PipelineSpec.yahoo_ok, PipelineSpec.fred_ok.
  intros [Hfd Hyd] (close0 & Hc0 & Hlen) Hfred.
  unfold fetch_cross_asset_data. rewrite Hc0. cbn [bind].
  destruct (set_columns (Py.keys YAHOO_TICKERS) close0) as [close|] eqn:Ec.
  2:{ exfalso. revert Ec. unfold set_columns, Py.keys.
      rewrite length_map, Hlen, Nat.eqb_refl. discriminate. }
  cbn [bind].
  destruct (fetch_fred_frames_Some DataReader clock 0 FRED_TICKERS period)
    as (frames & Ef & Hl); [exact Hfred|].
  rewrite Ef. cbn [bind].
  assert (Hfn : Forall (fun f => NoDup (index f)) frames).
  { eapply Forall_impl; [|eapply fetch_fred_frames_index; exact Ef].
    intros f [req ->]. apply Hfd. }
  destruct (concat frames) as [fred_all|] eqn:Efa.
  2:{ exfalso. revert Efa. apply concat_returns.
      destruct frames as [|f fs]; [discriminate|].
      exists f, fs. split; [reflexivity|]. intros g Hg. right.
      rewrite Forall_forall in Hfn. now apply Hfn. }
  cbn [bind].
  destruct (concat [fred_all; close]) as [merged|] eqn:Em.
  2:{ exfalso. revert Em. apply concat_returns.
      exists fred_all, [close]. split; [reflexivity|].
      intros g [<- | [<- | []]]; right.
      - eapply concat_index; eassumption.
      - rewrite (set_columns_index _ _ _ Ec). eapply Hyd, Hc0. }
  cbn [bind]. discriminate.
Qed.

(** X6. When the pipeline raises.  For a period of ASCII characters
    and providers whose tables carry no date twice, it returns a
    panel exactly when the download has closing prices with one
    column per Yahoo ticker, and for each FRED entry the request can
    be built (the period parses, the start date exists) and is
    answered by a table of one column. *)
Theorem fetch_raises_exactly (period interval : string) :
  Py.is_ascii period = true ->
  PipelineSpec.unique_dates yf_download DataReader ->
  (fetch_cross_asset_data yf_download DataReader clock period interval
   <> None
   <-> PipelineSpec.yahoo_ok yf_download period interval
       /\ PipelineSpec.fred_ok DataReader clock period).
Proof.
  intros _ Hu. split.
  - unfold PipelineSpec.yahoo_ok, PipelineSpec.fred_ok. intros H.
    destruct (fetch_cross_asset_data yf_download DataReader clock
                                     period interval) as [df|] eqn:E;
      [clear H | contradiction].
    apply fetch_cross_asset_data_steps in E
      as (close0 & close & frames & fred_all & merged
          & Hc0 & Hc & Hf & Hfa & Hm & ->).
    split.
    + exists close0. split; [assumption|].
      apply set_columns_Some in Hc as [E _]. unfold Py.keys in E.
      rewrite length_map in E. now symmetry.
    + intros i label series Hi.
      exact (fetch_fred_frames_ok DataReader clock 0 _ _ _ Hf i label series Hi).
  - intros [Hy Hf]. now apply fetch_succeeds.
Qed.

End Shape.

Section Values.

Context {V : Type}.
Variable yf_download : YahooRequest -> YahooFrame V.
Variable DataReader : FredRequest -> DataFrame V.
Variable clock : nat -> Py.datetime.

Lemma lookup_first (d : date) (idx : list date) :
  In d idx ->
  exists i, (i < length idx)%nat
            /\ forall c : list (cell V), lookup d idx c = nth i c None.
Proof.
  induction idx as [|k r IH]; intros H; [contradiction|].
  destruct (Z.eqb_spec k d) as [E | Hne].
  - exists 0%nat. split; [simpl; lia|]. intros [|v c]; cbn [lookup nth];
      [reflexivity|]. subst. now rewrite Z.eqb_refl.
  - destruct H as [E | H]; [contradiction|].
    destruct (IH H) as (i & Hi & Hl). exists (S i). split; [simpl; lia|].
    intros [|v c]; cbn [lookup nth].
    + now destruct i.
    + destruct (Z.eqb_spec k d); [contradiction | apply Hl].
Qed.

Lemma lookup_Some_in (d : date) (idx : list date) (c : list (cell V)) v :
  lookup d idx c = Some v -> In d idx.
Proof.
  intros H. destruct (in_dec Z.eq_dec d idx) as [Hin | Hn]; [assumption|].
  rewrite (lookup_not_in d idx c Hn) in H. discriminate.
Qed.

Lemma lookup_keeps (d : date) (idx : list date) (c c' : list (cell V)) v :
  (forall i w, nth i c None = Some w -> nth i c' None = Some w) ->
  lookup d idx c = Some v -> lookup d idx c' = Some v.
Proof.
  intros Hk H. pose proof (lookup_Some_in _ _ _ _ H) as Hin.
  destruct (lookup_first d idx Hin) as (i & _ & Hl).
  rewrite Hl in *. now apply Hk.
Qed.

Lemma lookup_fill (d : date) (idx : list date) (c : list (cell V)) v :
  lookup d idx c = Some v ->
  lookup d idx (bfill_col (ffill_col c)) = Some v.
Proof.
  apply lookup_keeps. intros i w Hw. apply bfill_col_keeps.
  unfold ffill_col. now apply ffill_from_keeps.
Qed.

Lemma get_of_In {A : Type} (l : string) (x : A) (dct : Py.dict string A) :
  NoDup (Py.keys dct) -> In (l, x) dct -> Py.get l dct = Some x.
Proof.
  unfold Py.keys. induction dct as [|[k y] r IH]; intros Hnd Hin;
    [contradiction|].
  cbn [map fst] in Hnd. inversion Hnd as [|? ? Hk Hr]; subst.
  cbn [Py.get]. destruct (String.eqb_spec k l) as [-> | Hne].
  - destruct Hin as [E | Hin]; [now inversion E|].
    exfalso. apply Hk. apply in_map_iff. now exists (l, x).
  - destruct Hin as [E | Hin]; [inversion E; contradiction|].
    now apply IH.
Qed.

Lemma combine_nth_In {A B : Type} (a : list A) (b : list B) (j : nat) x y :
  nth_error a j = Some x -> nth_error b j = Some y -> In (x, y) (combine a b).
Proof.
  revert b j. induction a as [|a0 r IH]; intros [|b0 r'] [|j] Ha Hb;
    try discriminate.
  - inversion Ha; inversion Hb; subst. now left.
  - right. eapply IH; eassumption.
Qed.

(** A column of one of the two tables merged last comes out with its
    values at their dates. *)
Lemma merged_column_kept (g other merged : DataFrame V) (first : bool)
      (l : string) (c : list (cell V)) (d : date) v :
  concat (if first then [g; other] else [other; g]) = Some merged ->
  NoDup (index merged) ->
  In (l, c) (data g) -> lookup d (index g) c = Some v ->
  exists c', In (l, c') (data (sort_and_fill merged))
             /\ lookup d (index (sort_and_fill merged)) c' = Some v.
Proof.
  intros Hm Hnd Hin Hl.
  assert (Hg : In g (if first then [g; other] else [other; g]))
    by (destruct first; [now left | right; now left]).
  destruct (concat_data _ _ g l c Hm Hg Hin) as (col & Hcol & _ & Hlook).
  exists (bfill_col (ffill_col (take_col (argsort (index merged)) col))).
  split; [apply data_sort_and_fill; now exists col|].
  apply lookup_fill.
  change (index (sort_and_fill merged))
    with (map (fun p => nth p (index merged) 0) (argsort (index merged))).
  rewrite lookup_sort_index by assumption.
  now rewrite Hlook.
Qed.

Lemma fetch_fred_frames_nth k entries period frames :
  fetch_fred_frames DataReader clock k entries period = Some frames ->
  forall i label series req l0 c,
    nth_error entries i = Some (label, series) ->
    fred_request (clock (k + i)) series period = Some req ->
    data (DataReader req) = [(l0, c)] ->
    nth_error frames i
    = Some (mkFrame (index (DataReader req))
                    [(label, bfill_col (ffill_col c))]).
Proof.
  revert k frames. induction entries as [|[label0 series0] r IH];
    intros k frames H i label series req l0 c Hi Hr Hd;
    [destruct i; discriminate|].
  cbn [fetch_fred_frames] in H. bind_inv H. bind_inv H. bind_inv H.
  inversion H; subst; clear H. destruct i as [|i].
  - inversion Hi; subst. rewrite Nat.add_0_r in Hr. cbn [nth_error]. f_equal.
    unfold fetch_fred_series in E. rewrite Hr in E. cbn [bind] in E.
    inversion E; subst; clear E.
    apply set_columns_Some in E0 as [_ ->].
    unfold fill, bfill, ffill, map_cols. cbn [index data].
    rewrite map_map, Hd. reflexivity.
  - cbn [nth_error]. rewrite <- Nat.add_succ_comm in Hr.
    eapply IH; eassumption.
Qed.

Lemma merged_nodup (close fred_all merged : DataFrame V)
      (frames : list (DataFrame V)) (entries : Py.dict string string)
      (period : string) :
  PipelineSpec.unique_dates yf_download DataReader ->
  fetch_fred_frames DataReader clock 0 entries period = Some frames ->
  concat frames = Some fred_all ->
  NoDup (index close) ->
  concat [fred_all; close] = Some merged ->
  NoDup (index fred_all) /\ NoDup (index merged).
Proof.
  intros [Hfred _] Hf Hfa Hc Hm.
  assert (Hnd : NoDup (index fred_all)).
  { eapply concat_index; [exact Hfa|].
    eapply Forall_impl; [|eapply fetch_fred_frames_index; exact Hf].
    intros f [req ->]. apply Hfred. }
  split; [exact Hnd|].
  eapply concat_index; [exact Hm|]. repeat constructor; assumption.
Qed.

End Values.

Section Content.

Context {V : Type}.
Variable yf_download : YahooRequest -> YahooFrame V.
Variable DataReader : FredRequest -> DataFrame V.
Variable clock : nat -> Py.datetime.

Lemma fetch_fred_frames_nth_inv k entries period frames :
  fetch_fred_frames DataReader clock k entries period = Some frames ->
  forall i f,
    nth_error frames i = Some f ->
    exists label series req,
      nth_error entries i = Some (label, series)
      /\ fred_request (clock (k + i)) series period = Some req
      /\ index f = index (DataReader req).
Proof.
  revert k frames. induction entries as [|[label0 series0] r IH];
    intros k frames H i f Hi.
  - inversion H; subst. destruct i; discriminate.
  - cbn [fetch_fred_frames] in H. bind_inv H. bind_inv H. bind_inv H.
    inversion H; subst; clear H. destruct i as [|i].
    + inversion Hi; subst. exists label0, series0.
      unfold fetch_fred_series in E.
      destruct (fred_request (clock k) series0 period) as [req|] eqn:Er;
        [|discriminate].
      cbn [bind] in E. inversion E; subst; clear E.
      exists req. rewrite Nat.add_0_r.
      repeat split; [assumption|].
      now rewrite (set_columns_index _ _ _ E0).
    + cbn [nth_error] in Hi.
      destruct (IH _ _ E1 i f Hi) as (label & series & req & Hn & Hr & Hx).
      exists label, series, req. rewrite <- Nat.add_succ_comm.
      repeat split; assumption.
Qed.

Lemma fetch_fred_frames_nth_index k entries period frames :
  fetch_fred_frames DataReader clock k entries period = Some frames ->
  forall i label series req,
    nth_error entries i = Some (label, series) ->
    fred_request (clock (k + i)) series period = Some req ->
    exists f, nth_error frames i = Some f
              /\ index f = index (DataReader req).
Proof.
  revert k frames. induction entries as [|[label0 series0] r IH];
    intros k frames H i label series req Hi Hr;
    [destruct i; discriminate|].
  cbn [fetch_fred_frames] in H. bind_inv H. bind_inv H. bind_inv H.
  inversion H; subst; clear H. destruct i as [|i].
  - inversion Hi; subst. rewrite Nat.add_0_r in Hr.
    exists x0. split; [reflexivity|].
    unfold fetch_fred_series in E. rewrite Hr in E. cbn [bind] in E.
    inversion E; subst; clear E.
    now rewrite (set_columns_index _ _ _ E0).
  - cbn [nth_error]. rewrite <- Nat.add_succ_comm in Hr.
    eapply IH; eassumption.
Qed.

(** X7. The rows of the panel are the dates of the providers: a date
    is a row label of the panel the pipeline returns exactly when it
    is a row label of the table of closing prices or of the answer to
    one of the five FRED requests.  No date is invented and none is
    dropped. *)
Theorem panel_dates (period interval : string) (df : DataFrame V) :
  fetch_cross_asset_data yf_download DataReader clock period interval
  = Some df ->
  forall d,
    In d (index df)
    <-> (exists close0,
            close_prices (yf_download (yahoo_request period interval))
            = Some close0
            /\ In d (index close0))
        \/ (exists i label series req,
               nth_error FRED_TICKERS i = Some (label, series)
               /\ fred_request (clock i) series period = Some req
               /\ In d (index (DataReader req))).
Proof.
  intros H d.
  apply fetch_cross_asset_data_steps in H
    as (close0 & close & frames & fred_all & merged
        & Hc0 & Hc & Hf & Hfa & Hm & ->).
  rewrite index_sort_and_fill.
  assert (Hs : In d (sort_dates (index merged)) <-> In d (index merged)).
  { split; apply Permutation_in;
      [|apply Permutation_sym]; apply sort_dates_perm. }
  rewrite Hs, (concat_index_iff _ _ d Hm).
  rewrite Exists_cons, Exists_cons, Exists_nil.
  rewrite (concat_index_iff _ _ d Hfa), (set_columns_index _ _ _ Hc).
  split.
  - intros [Hfred | [Hy | []]].
    + right. apply Exists_exists in Hfred as (f & Hin & Hd).
      apply In_nth_error in Hin as [i Hi].
      destruct (fetch_fred_frames_nth_inv _ _ _ _ Hf i f Hi)
        as (label & series & req & Hn & Hr & Hx).
      exists i, label, series, req. rewrite <- Hx. now repeat split.
    + left. now exists close0.
  - intros [(c & Hc' & Hd) | (i & label & series & req & Hn & Hr & Hd)].
    + right. left. rewrite Hc0 in Hc'. now inversion Hc'; subst.
    + left.
      destruct (fetch_fred_frames_nth_index _ _ _ _ Hf i label series req
                  Hn Hr) as (f & Hi & Hx).
      apply Exists_exists. exists f. split;
        [eapply nth_error_In; eassumption | now rewrite Hx].
Qed.

Lemma panel_columns (period interval : string) (df : DataFrame V) :
  fetch_cross_asset_data yf_download DataReader clock period interval
  = Some df ->
  columns df = Py.keys FRED_TICKERS ++ Py.keys YAHOO_TICKERS.
Proof.
  intros H.
  apply fetch_cross_asset_data_steps in H
    as (close0 & close & frames & fred_all & merged
        & Hc0 & Hc & Hf & Hfa & Hm & ->).
  rewrite columns_sort_and_fill, (concat_columns _ _ Hm).
  cbn [flat_map]. rewrite app_nil_r.
  rewrite (concat_columns _ _ Hfa).
  rewrite (fred_frames_columns DataReader clock _ _ _ _ Hf).
  now rewrite (set_columns_columns _ _ _ Hc).
Qed.

Lemma panel_labels_nodup :
  NoDup (Py.keys FRED_TICKERS ++ Py.keys YAHOO_TICKERS).
Proof.
  cbn.
  repeat (constructor;
          [cbn; intros Hx;
           repeat (destruct Hx as [Hx | Hx]; [discriminate Hx|]);
           exact Hx|]).
  constructor.
Qed.

(** X8. No value of a provider is lost or altered.  When no provider
    table carries a date twice, a value [v] that the j-th column of
    the closing prices holds at date [d] is the value of the panel's
    column named by the j-th Yahoo label at [d], and a value that the
    answer to the i-th FRED request holds at [d] is the value of the
    panel's column named by the i-th FRED label at [d]: sorting and
    the two fills only touch cells that are missing. *)
Theorem panel_keeps_values (period interval : string) (df : DataFrame V) :
  PipelineSpec.unique_dates yf_download DataReader ->
  fetch_cross_asset_data yf_download DataReader clock period interval
  = Some df ->
  (forall close0 j l0 c d v,
      close_prices (yf_download (yahoo_request period interval))
      = Some close0 ->
      nth_error (data close0) j = Some (l0, c) ->
      lookup d (index close0) c = Some v ->
      exists label c',
        nth_error (Py.keys YAHOO_TICKERS) j = Some label
        /\ Py.get label (data df) = Some c'
        /\ lookup d (index df) c' = Some v)
  /\ (forall i label series req l0 c d v,
         nth_error FRED_TICKERS i = Some (label, series) ->
         fred_request (clock i) series period = Some req ->
         data (DataReader req) = [(l0, c)] ->
         lookup d (index (DataReader req)) c = Some v ->
         exists c',
           Py.get label (data df) = Some c'
           /\ lookup d (index df) c' = Some v).
Proof.
  intros Hu H.
  assert (Hcols : NoDup (Py.keys (data df))).
  { pose proof (panel_columns period interval df H) as Hcols.
    unfold columns in Hcols. unfold Py.keys at 1. rewrite Hcols.
    apply panel_labels_nodup. }
  apply fetch_cross_asset_data_steps in H
    as (close0 & close & frames & fred_all & merged
        & Hc0 & Hc & Hf & Hfa & Hm & ->).
  assert (Hclose : NoDup (index close)).
  { rewrite (set_columns_index _ _ _ Hc). destruct Hu as [_ Hy].
    eapply Hy, Hc0. }
  destruct (merged_nodup yf_download DataReader clock close fred_all merged
              frames FRED_TICKERS period Hu Hf Hfa Hclose Hm)
    as [Hnfa Hnm].
  split.
  - intros close0' j l0 c d v Hc0' Hj Hl.
    rewrite Hc0 in Hc0'. inversion Hc0'; subst close0'; clear Hc0'.
    pose proof (set_columns_Some _ _ _ Hc) as [Hlen Hcl].
    destruct (nth_error (Py.keys YAHOO_TICKERS) j) as [label|] eqn:Ek.
    2:{ apply nth_error_None in Ek.
        assert (Hlt : (j < length (data close0))%nat)
          by (apply nth_error_Some; rewrite Hj; discriminate).
        lia. }
    exists label.
    assert (Hin : In (label, c) (data close)).
    { rewrite Hcl. cbn [data]. eapply combine_nth_In; [exact Ek|].
      rewrite nth_error_map, Hj. reflexivity. }
    assert (Hl' : lookup d (index close) c = Some v)
      by (now rewrite (set_columns_index _ _ _ Hc)).
    destruct (merged_column_kept close fred_all merged false label c d v
                Hm Hnm Hin Hl') as (c' & Hin' & Hv).
    exists c'. split; [reflexivity|]. split; [|exact Hv].
    now apply get_of_In.
  - intros i label series req l0 c d v Hi Hr Hd Hl.
    pose proof (fetch_fred_frames_nth DataReader clock 0 _ _ _ Hf
                  i label series req l0 c Hi Hr Hd) as Hn.
    set (f := mkFrame (index (DataReader req))
                      [(label, bfill_col (ffill_col c))]) in *.
    assert (Hf_in : In f frames) by (eapply nth_error_In; exact Hn).
    assert (Hcol : In (label, bfill_col (ffill_col c)) (data f))
      by (now left).
    destruct (concat_data _ _ f label _ Hfa Hf_in Hcol)
      as (col & Hfa_col & _ & Hlook).
    assert (Hl' : lookup d (index fred_all) col = Some v).
    { rewrite Hlook. cbn [f index]. now apply lookup_fill. }
    destruct (merged_column_kept fred_all close merged true label _ d v
                Hm Hnm Hfa_col Hl') as (c' & Hin' & Hv).
    exists c'. split; [|exact Hv]. now apply get_of_In.
Qed.

End Content.

Lemma panel_shape_witness :
  exists df,
    fetch_cross_asset_data Samples.yahoo_three_days Samples.fred_two_days
                           Samples.clock "180d" "1h" = Some df
    /\ columns df = Py.keys FRED_TICKERS ++ Py.keys YAHOO_TICKERS
    /\ rectangular df
    /\ forall l c, In (l, c) (data df) -> no_na c \/ all_na c.
Proof.
  eexists. split; [vm_compute; reflexivity|].
  apply (panel_shape Samples.yahoo_three_days Samples.fred_two_days
                     Samples.clock "180d" "1h").
  vm_compute. reflexivity.
Defined.

Lemma fetch_raises_exactly_witness :
  fetch_cross_asset_data Samples.yahoo_three_days Samples.fred_two_days
                         Samples.clock "180d" "1d" <> None
  /\ fetch_cross_asset_data Samples.yahoo_three_days Samples.fred_two_days
                            Samples.clock "ytd" "1d" = None.
Proof.
  assert (Hu : PipelineSpec.unique_dates Samples.yahoo_three_days
                                         Samples.fred_two_days).
  { split.
    - intros req. simpl. repeat constructor; simpl; intuition discriminate.
    - intros req close H. simpl in H. inversion H; subst; simpl.
      repeat constructor; simpl; intuition discriminate. }
  split.
  - apply (fetch_raises_exactly Samples.yahoo_three_days
             Samples.fred_two_days Samples.clock "180d" "1d" eq_refl Hu).
    split.
    + eexists. split; reflexivity.
    + intros i label series Hi.
      do 5 (destruct i as [|i];
            [inversion Hi; subst; eexists;
             split; [vm_compute; reflexivity | reflexivity]|]).
      destruct i; discriminate.
  - destruct (fetch_cross_asset_data Samples.yahoo_three_days
                Samples.fred_two_days Samples.clock "ytd" "1d")
      as [df|] eqn:E; [exfalso | reflexivity].
    assert (H : fetch_cross_asset_data Samples.yahoo_three_days
                  Samples.fred_two_days Samples.clock "ytd" "1d" <> None)
      by (rewrite E; discriminate).
    apply (fetch_raises_exactly Samples.yahoo_three_days
             Samples.fred_two_days Samples.clock "ytd" "1d" eq_refl Hu)
      in H as [_ Hf].
    destruct (Hf 0%nat _ _ eq_refl) as (req & Hr & _).
    vm_compute in Hr. discriminate Hr.
Defined.

Lemma panel_dates_witness :
  exists df,
    fetch_cross_asset_data Samples.yahoo_three_days Samples.fred_two_days
                           Samples.clock "180d" "1h" = Some df
    /\ index df = [739613; 739614; 739615; 739616]
    /\ forall d,
        In d (index df)
        <-> (exists close0,
                close_prices (Samples.yahoo_three_days
                                (yahoo_request "180d" "1h")) = Some close0
                /\ In d (index close0))
            \/ (exists i label series req,
                   nth_error FRED_TICKERS i = Some (label, series)
                   /\ fred_request (Samples.clock i) series "180d" = Some req
                   /\ In d (index (Samples.fred_two_days req))).
Proof.
  eexists. split; [vm_compute; reflexivity|]. split; [reflexivity|].
  apply (panel_dates Samples.yahoo_three_days Samples.fred_two_days
                     Samples.clock "180d" "1h").
  vm_compute. reflexivity.
Defined.

Lemma panel_keeps_values_witness :
  exists df c',
    fetch_cross_asset_data Samples.yahoo_three_days Samples.fred_two_days
                           Samples.clock "180d" "1h" = Some df
    /\ Py.get "3M_Yield" (data df) = Some c'
    /\ lookup 739613 (index df) c' = Float.of_Z 4.
Proof.
  assert (Hu : PipelineSpec.unique_dates Samples.yahoo_three_days
                                         Samples.fred_two_days).
  { split.
    - intros req. simpl. repeat constructor; simpl; intuition discriminate.
    - intros req close H. simpl in H. inversion H; subst; simpl.
      repeat constructor; simpl; intuition discriminate. }
  destruct (fetch_cross_asset_data Samples.yahoo_three_days
              Samples.fred_two_days Samples.clock "180d" "1h")
    as [df|] eqn:E; [|vm_compute in E; discriminate E].
  destruct (panel_keeps_values Samples.yahoo_three_days Samples.fred_two_days
              Samples.clock "180d" "1h" df Hu E) as [_ Hfred].
  destruct (Hfred 0%nat "3M_Yield" "DGS3MO"
              (mkFredRequest "DGS3MO"
                 (Samples.clock 0 - 180 * Py.us_per_day) (Samples.clock 0))
              "DGS3MO" [Float.of_Z 4; None] 739613 (Float.Fin (4 # 1)))
    as (c' & Hg & Hl); try (vm_compute; reflexivity).
  exists df, c'. split; [reflexivity|]. split; assumption.
Defined.

End PipelineLaws.

(** * Properties of the callback of app.py *)

Module AppLaws.

Import Pd DataFetching App AppFacts PdFacts PdLaws PipelineFacts PipelineLaws.
Import MetricsFacts.

Section Selection.

Import CallbackSpec.

Lemma fold_press_counts (presses : list Button) (c : Clicks) :
  n_vol (fold_left press presses c) = n_vol c + times_pressed BtnVol presses
  /\ n_dd (fold_left press presses c) = n_dd c + times_pressed BtnDd presses
  /\ n_corr (fold_left press presses c)
     = n_corr c + times_pressed BtnCorr presses.
Proof.
  unfold times_pressed. revert c.
  induction presses as [|b r IH]; intros c; cbn [fold_left filter length].
  - cbn. lia.
  - destruct (IH (press c b)) as (Hv & Hd & Hc). rewrite Hv, Hd, Hc.
    destruct b; cbn [press n_vol n_dd n_corr button_eqb length]; lia.
Qed.

(** X9. What the selection shows after any sequence of presses: the
    three counters the callback receives are the numbers of presses
    of the three buttons, and the view selected is that of a button
    pressed most often; among several of those, the one that comes
    first in the dictionary (vol, dd, corr).  With no press at all it
    is the volatility view. *)
Theorem selected_view_most_pressed (presses : list Button) :
  let c := clicks_after presses in
  (forall b, match b with
             | BtnVol => n_vol c
             | BtnDd => n_dd c
             | BtnCorr => n_corr c
             end = times_pressed b presses)
  /\ exists b,
       selected_view (n_vol c) (n_dd c) (n_corr c) = Some (button_view b)
       /\ forall b',
            times_pressed b' presses <= times_pressed b presses
            /\ (times_pressed b' presses = times_pressed b presses ->
                (button_rank b <= button_rank b')%nat).
Proof.
  cbv zeta. unfold clicks_after.
  destruct (fold_press_counts presses (mkClicks 0 0 0)) as (Hv & Hd & Hc).
  cbn [n_vol n_dd n_corr] in Hv, Hd, Hc.
  split; [intros []; lia|].
  rewrite Hv, Hd, Hc. cbn [Z.add].
  destruct (selected_view_greatest (times_pressed BtnVol presses)
              (times_pressed BtnDd presses) (times_pressed BtnCorr presses))
    as (v & E & [(-> & H1 & H2) | [(-> & H1 & H2) | (-> & H1 & H2)]]).
  - exists BtnVol. split; [exact E|].
    intros []; cbn [button_rank]; split; lia.
  - exists BtnDd. split; [exact E|].
    intros []; cbn [button_rank]; split; lia.
  - exists BtnCorr. split; [exact E|].
    intros []; cbn [button_rank]; split; lia.
Qed.

End Selection.


Section Generic.

Context {V : Type}.

Lemma columns_all_or_some (cols : list (string * list (cell V))) :
  (forall l c, In (l, c) cols -> no_na c \/ all_na c) ->
  (forall l c, In (l, c) cols -> no_na c)
  \/ (exists l c, In (l, c) cols /\ all_na c).
Proof.
  induction cols as [|[l c] r IH]; intros H.
  - left. intros l c [].
  - destruct (H l c (or_introl eq_refl)) as [Hn | Ha].
    + destruct IH as [Hall | (l' & c' & Hin & Ha)].
      * intros l' c' Hin. apply (H l' c'). now right.
      * left. intros l' c' [E | Hin]; [now inversion E; subst | eauto].
      * right. exists l', c'. split; [now right | assumption].
    + right. exists l, c. split; [now left | assumption].
Qed.

Lemma mapM_Forall2 {A B : Type} (f : A -> option B) (l : list A) bs :
  mapM f l = Some bs -> Forall2 (fun a b => f a = Some b) l bs.
Proof.
  revert bs. induction l as [|a r IH]; intros bs H; cbn [mapM] in H.
  - inversion H. constructor.
  - bind_inv H. bind_inv H. inversion H; subst. constructor; auto.
Qed.

Lemma mapM_total {A B : Type} (f : A -> option B) (l : list A) :
  (forall a, In a l -> f a <> None) -> exists bs, mapM f l = Some bs.
Proof.
  induction l as [|a r IH]; intros H; cbn [mapM].
  - now exists [].
  - destruct (f a) as [b|] eqn:E; [|exfalso; apply (H a); [now left | exact E]].
    destruct IH as [bs Hbs]; [intros x Hx; apply H; now right|].
    rewrite Hbs. cbn [bind]. now exists (b :: bs).
Qed.

Lemma mapM_None {A B : Type} (f : A -> option B) (l : list A) (a : A) :
  In a l -> f a = None -> mapM f l = None.
Proof.
  induction l as [|x r IH]; intros Hin E; [contradiction|]. cbn [mapM].
  destruct Hin as [-> | Hin]; [now rewrite E|].
  destruct (f x); [|reflexivity]. cbn [bind]. now rewrite IH.
Qed.

Lemma get_of_key {A : Type} (l : string) (d : Py.dict string A) :
  In l (Py.keys d) -> exists x, Py.get l d = Some x.
Proof.
  unfold Py.keys. induction d as [|[k y] r IH]; intros H; [contradiction|].
  cbn [Py.get]. destruct (String.eqb_spec k l) as [-> | Hne]; [eauto|].
  destruct H as [E | H]; [contradiction | now apply IH].
Qed.

Lemma get_key {A : Type} (l : string) (d : Py.dict string A) x :
  Py.get l d = Some x -> In l (Py.keys d).
Proof.
  intros H. apply get_In in H. unfold Py.keys. apply in_map_iff.
  now exists (l, x).
Qed.

Lemma select_Some (labels : list string) (df df' : DataFrame V) :
  select labels df = Some df' ->
  index df' = index df
  /\ columns df' = labels
  /\ (forall l c, In (l, c) (data df') -> In (l, c) (data df)).
Proof.
  unfold select. intros H. bind_inv H. inversion H; subst; clear H.
  cbn [index data]. split; [reflexivity|].
  apply mapM_Forall2 in E. unfold columns. cbn [data].
  induction E as [|l [l' c] ls cs Hl _ [IH1 IH2]]; [split; [reflexivity | intros ? ? []]|].
  destruct (Py.get l (data df)) as [c0|] eqn:Eg; [|discriminate].
  cbn [bind] in Hl. inversion Hl; subst. split.
  - cbn [map fst]. now f_equal.
  - intros l0 c0 [E0 | Hin]; [inversion E0; subst; now apply get_In | auto].
Qed.

Lemma select_total (labels : list string) (df : DataFrame V) :
  (forall l, In l labels -> In l (columns df)) ->
  exists df', select labels df = Some df'.
Proof.
  intros H. unfold select.
  destruct (mapM_total (fun l => c <- Py.get l (data df) ;; Some (l, c)) labels)
    as [cs E].
  - intros l Hl. destruct (get_of_key l (data df) (H l Hl)) as [c Ec].
    rewrite Ec. discriminate.
  - rewrite E. cbn [bind]. eauto.
Qed.

(** X13. The second [dropna()] of the callback removes nothing: a
    selection of columns of a table that went through [dropna()]
    has no missing cell, so [df[cryptos].dropna()] on line 112 is
    [df[cryptos]], whatever the table and the labels. *)
Theorem select_after_dropna_complete (labels : list string)
        (df df' : DataFrame V) :
  select labels (dropna df) = Some df' -> dropna df' = df'.
Proof.
  intros H. apply select_Some in H as (Hi & _ & Hc).
  apply dropna_complete.
  - unfold rectangular, n_rows. rewrite Hi. apply Forall_forall.
    intros [l c] Hin. apply Hc in Hin.
    pose proof (take_rectangular
                  (filter (row_complete df) (seq 0 (n_rows df))) df) as Hr.
    unfold rectangular in Hr. rewrite Forall_forall in Hr.
    exact (Hr _ Hin).
  - intros l c Hin. eapply dropna_no_na. apply Hc. exact Hin.
Qed.

End Generic.

Lemma select_after_dropna_complete_witness :
  select ["b"] (dropna SmallTables.unsorted)
  = Some (mkFrame [3] [("b", [Some 3])])
  /\ dropna (mkFrame [3] [("b", [Some 3])]) = mkFrame [3] [("b", [Some 3])].
Proof.
  split; [reflexivity|].
  apply (select_after_dropna_complete ["b"] SmallTables.unsorted).
  reflexivity.
Defined.


Section Shapes.

Lemma columns_map_cols {V : Type} (f : list (cell V) -> list (cell V))
      (df : DataFrame V) :
  columns (map_cols f df) = columns df.
Proof.
  unfold columns, map_cols. cbn [data]. rewrite map_map. reflexivity.
Qed.

Lemma map_fst_fst_combine {A B C : Type} (a : list (A * B)) (b : list C) :
  length a = length b ->
  map (fun p => fst (fst p)) (combine a b) = map fst a.
Proof.
  revert b. induction a as [|x r IH]; intros [|y s] H;
    try discriminate; [reflexivity|].
  cbn [combine map]. f_equal. apply IH. now inversion H.
Qed.

Lemma maxdd_labels (df : Frame) : map fst (maxdd df) = columns df.
Proof.
  unfold maxdd, frame_min, drawdowns, sub_one, map_cols, div_frames,
    running_max, cummax, map_cols, columns.
  cbn [data index]. rewrite !map_map. cbn [fst snd].
  rewrite map_fst_fst_combine; [reflexivity|]. now rewrite length_map.
Qed.

Lemma ann_vol_labels (df : Frame) : map fst (ann_vol df) = columns df.
Proof.
  unfold ann_vol, frame_std, columns. rewrite !map_map. reflexivity.
Qed.

Lemma heatmap_shape (df : Frame) :
  map fst (round (corr df)) = columns df
  /\ Forall (fun row => length (snd row) = length (columns df))
            (round (corr df)).
Proof.
  unfold round, corr, columns. split.
  - rewrite !map_map. reflexivity.
  - rewrite !Forall_map. apply Forall_forall. intros ci _. cbn [snd].
    now rewrite !length_map.
Qed.

Lemma getitem_of_column {V : Type} (l : string) (df : DataFrame V) :
  In l (columns df) -> getitem l df <> None.
Proof.
  intros H. unfold getitem.
  destruct (get_of_key l (data df) H) as [c ->]. discriminate.
Qed.

Lemma corr_traces_total (df rc : Frame) (cs : list string) :
  (forall c, In c cs -> In c (columns rc)) ->
  exists traces, corr_traces df rc cs = Some traces.
Proof.
  intros H. unfold corr_traces.
  destruct (getitem "Nasdaq" df) as [nasdaq|]; [|now exists []].
  apply mapM_total. intros c Hc.
  destruct (getitem c rc) eqn:E; [discriminate|].
  exfalso. revert E. apply getitem_of_column. now apply H.
Qed.

Lemma corr_traces_labels (df rc : Frame) (cs : list string) traces :
  In "Nasdaq" (columns df) ->
  corr_traces df rc cs = Some traces -> map fst traces = cs.
Proof.
  intros Hn H. unfold corr_traces in H.
  destruct (getitem "Nasdaq" df) as [nasdaq|] eqn:E;
    [|exfalso; revert E; now apply getitem_of_column].
  apply mapM_Forall2 in H.
  induction H as [|c t r ts Hc _ IH]; [reflexivity|].
  cbn [map]. f_equal; [|exact IH].
  destruct (getitem c rc); [|discriminate]. inversion Hc. reflexivity.
Qed.

End Shapes.

Section Steps.

Variable yf_download : YahooRequest -> YahooFrame Float.t.
Variable DataReader : FredRequest -> Frame.
Variable clock : nat -> Py.datetime.

Lemma panel_complete_or_gap (period interval : string) (df : Frame) :
  fetch_cross_asset_data yf_download DataReader clock period interval
  = Some df ->
  (dropna df = df /\ forall l c, In (l, c) (data df) -> no_na c)
  \/ (index (dropna df) = [] /\ exists l c, In (l, c) (data df) /\ all_na c).
Proof.
  intros H.
  apply fetch_cross_asset_data_steps in H
    as (close0 & close & frames & fred_all & merged & _ & _ & _ & _ & _ & ->).
  destruct (columns_all_or_some (data (sort_and_fill merged)))
    as [Hall | (l & c & Hin & Ha)].
  - intros l c Hin. apply data_sort_and_fill in Hin as (c0 & _ & ->).
    apply fill_col_filled.
  - left. split; [|exact Hall].
    apply dropna_complete; [apply sort_and_fill_rectangular | exact Hall].
  - right. split; [eapply dropna_all_na_column; eassumption|].
    now exists l, c.
Qed.

Lemma update_dashboard_steps n date_key n_vol n_dd n_corr out :
  update_dashboard yf_download DataReader clock n date_key n_vol n_dd n_corr
  = Some out ->
  exists v period interval df,
    selected_view n_vol n_dd n_corr = Some v
    /\ Py.get (match date_key with None => "1y" | Some k => k end)
              DATE_OPTIONS = Some (period, interval)
    /\ fetch_cross_asset_data yf_download DataReader clock period interval
       = Some df
    /\ ((empty (dropna df) = true /\ out = no_data_output)
        \/ (empty (dropna df) = false
            /\ exists df_crypto fig,
                select ["BTC"; "ETH"; "SOL"; "XRP"] (dropna df)
                = Some df_crypto
                /\ ((v = "vol"
                     /\ fig = VolatilityFigure
                                (ann_vol (dropna (pct_change
                                                    (dropna df_crypto)))))
                    \/ (v = "dd"
                        /\ fig = DrawdownFigure (maxdd (dropna df_crypto)))
                    \/ (v <> "vol" /\ v <> "dd"
                        /\ exists traces,
                            corr_traces (dropna df)
                              (dropna (pct_change (dropna df_crypto)))
                              ["BTC"; "ETH"; "SOL"; "XRP"] = Some traces
                            /\ fig = CorrelationFigure traces))
                /\ out = mkOutput fig
                           (HeatmapFigure
                              (round (corr (dropna (pct_change (dropna df))))))
                           (LastUpdated (clock (length FRED_TICKERS))))).
Proof.
  unfold update_dashboard. intros H.
  bind_inv H. bind_inv H. destruct x0 as [period interval].
  cbn [fst snd] in H. bind_inv H.
  exists x, period, interval, x0.
  split; [exact E|]. split; [exact E0|]. split; [exact E1|].
  destruct (empty (dropna x0)) eqn:Ee.
  - left. inversion H. now split.
  - right. split; [reflexivity|]. bind_inv H. bind_inv H.
    inversion H; subst; clear H. exists x1, x2. split; [exact E2|].
    split; [|reflexivity].
    destruct (String.eqb_spec x "vol") as [-> | Hv].
    + left. inversion E3. now split.
    + destruct (String.eqb_spec x "dd") as [-> | Hd].
      * right; left. inversion E3. now split.
      * right; right. bind_inv E3. inversion E3; subst.
        split; [assumption|]. split; [assumption|]. now exists x3.
Qed.

End Steps.

Section Callback.

Variable yf_download : YahooRequest -> YahooFrame Float.t.
Variable DataReader : FredRequest -> Frame.
Variable clock : nat -> Py.datetime.

Lemma crypto_returns_columns (df df_crypto : Frame) :
  select ["BTC"; "ETH"; "SOL"; "XRP"] df = Some df_crypto ->
  columns (dropna (pct_change (dropna df_crypto)))
  = ["BTC"; "ETH"; "SOL"; "XRP"].
Proof.
  intros H. apply select_Some in H as (_ & Hc & _).
  unfold pct_change. now rewrite dropna_columns, columns_map_cols, dropna_columns.
Qed.

(** X10. When the dashboard shows "No data returned": exactly when
    the panel of the pipeline has no row, or one of its eleven
    columns holds no value in the whole period.  Because the pipeline
    fills every gap of a column that has a value, [dropna()] on line
    104 keeps all rows or none: whenever metrics are shown, they are
    computed on the whole panel. *)
Theorem no_data_exactly n date_key n_vol n_dd n_corr out :
  update_dashboard yf_download DataReader clock n date_key n_vol n_dd n_corr
  = Some out ->
  exists period interval df,
    Py.get (match date_key with None => "1y" | Some k => k end) DATE_OPTIONS
    = Some (period, interval)
    /\ fetch_cross_asset_data yf_download DataReader clock period interval
       = Some df
    /\ (out = no_data_output
        <-> index df = [] \/ exists l c, In (l, c) (data df) /\ all_na c)
    /\ (out <> no_data_output -> dropna df = df).
Proof.
  intros H.
  apply update_dashboard_steps in H
    as (v & period & interval & df & _ & Hk & Hf & Hout).
  exists period, interval, df. split; [exact Hk|]. split; [exact Hf|].
  pose proof (panel_columns yf_download DataReader clock _ _ _ Hf) as Hcols.
  assert (Hdata : (length (data (dropna df)) =? 0)%nat = false).
  { pose proof (dropna_columns df) as Hd. unfold columns in Hd, Hcols.
    rewrite <- (length_map fst), Hd, Hcols. reflexivity. }
  assert (Hempty : empty (dropna df) = true <-> index (dropna df) = []).
  { unfold empty, n_rows. rewrite Hdata, orb_false_r, Nat.eqb_eq.
    apply length_zero_iff_nil. }
  assert (Hgap : index (dropna df) = []
                 <-> index df = []
                     \/ exists l c, In (l, c) (data df) /\ all_na c).
  { split.
    - intros Hi.
      destruct (panel_complete_or_gap yf_download DataReader clock _ _ _ Hf)
        as [[Hd _] | [_ Hg]]; [left; now rewrite <- Hd | now right].
    - intros [Hi | (l & c & Hin & Ha)].
      + unfold dropna, take, n_rows. cbn [index]. rewrite Hi. reflexivity.
      + eapply dropna_all_na_column; eassumption. }
  destruct Hout as [[He ->] | [He (dfc & fig & _ & _ & ->)]].
  - split.
    + split; [intros _; now apply Hgap, Hempty | reflexivity].
    + intros Hc. now contradiction Hc.
  - split.
    + split; [discriminate|]. intros Hg. apply Hgap, Hempty in Hg.
      rewrite Hg in He. discriminate.
    + intros _.
      destruct (panel_complete_or_gap yf_download DataReader clock _ _ _ Hf)
        as [[Hd _] | [Hi _]]; [exact Hd|].
      apply Hempty in Hi. rewrite Hi in He. discriminate.
Qed.

Lemma update_dashboard_total n date_key n_vol n_dd n_corr period interval df :
  Py.get (match date_key with None => "1y" | Some k => k end) DATE_OPTIONS
  = Some (period, interval) ->
  fetch_cross_asset_data yf_download DataReader clock period interval
  = Some df ->
  exists out,
    update_dashboard yf_download DataReader clock n date_key n_vol n_dd n_corr
    = Some out.
Proof.
  intros Hk E. unfold update_dashboard.
  destruct (selected_view_Some n_vol n_dd n_corr) as [v ->].
  cbn [bind]. rewrite Hk. cbn [bind fst snd]. rewrite E. cbn [bind].
  destruct (empty (dropna df)); [eexists; reflexivity|].
  pose proof (panel_columns yf_download DataReader clock _ _ _ E) as Hcols.
  destruct (select_total ["BTC"; "ETH"; "SOL"; "XRP"] (dropna df))
    as [dfc Hs].
  { intros l Hl. rewrite dropna_columns, Hcols. cbn.
    cbn in Hl. intuition. }
  rewrite Hs. cbn [bind].
  destruct (String.eqb v "vol"); [eexists; reflexivity|].
  destruct (String.eqb v "dd"); [eexists; reflexivity|].
  destruct (corr_traces_total (dropna df)
              (dropna (pct_change (dropna dfc)))
              ["BTC"; "ETH"; "SOL"; "XRP"]) as [traces ->].
  { intros c Hc. now rewrite (crypto_returns_columns _ _ Hs). }
  eexists. reflexivity.
Qed.

(** X11. When the callback raises: it returns its three outputs
    exactly when the date key is absent or one of the keys of
    [DATE_OPTIONS], and the pipeline returns a panel for the period
    and interval of that key.  After a successful fetch nothing can
    fail: the four crypto columns and the Nasdaq column are always
    there. *)
Theorem update_dashboard_raises_exactly n date_key n_vol n_dd n_corr :
  update_dashboard yf_download DataReader clock n date_key n_vol n_dd n_corr
  <> None
  <-> exists period interval,
        Py.get (match date_key with None => "1y" | Some k => k end)
               DATE_OPTIONS = Some (period, interval)
        /\ fetch_cross_asset_data yf_download DataReader clock
                                  period interval <> None.
Proof.
  split.
  - intros H.
    destruct (update_dashboard yf_download DataReader clock n date_key
                               n_vol n_dd n_corr) as [out|] eqn:E;
      [clear H | contradiction].
    apply update_dashboard_steps in E
      as (v & period & interval & df & _ & Hk & Hf & _).
    exists period, interval. split; [exact Hk|]. rewrite Hf. discriminate.
  - intros (period & interval & Hk & Hf).
    destruct (fetch_cross_asset_data yf_download DataReader clock
                                     period interval) as [df|] eqn:E;
      [clear Hf | contradiction].
    destruct (update_dashboard_total n date_key n_vol n_dd n_corr
                period interval df Hk E) as [out ->].
    discriminate.
Qed.

(** X12. What the callback returns when it shows data: the risk
    chart is the one of the selected view and carries the four
    cryptos BTC, ETH, SOL, XRP in this order; the heatmap is an
    11 x 11 matrix labelled by the five FRED and the six Yahoo
    columns; and the time shown is the clock reading after the five
    FRED requests. *)
Theorem update_dashboard_output n date_key n_vol n_dd n_corr out :
  update_dashboard yf_download DataReader clock n date_key n_vol n_dd n_corr
  = Some out ->
  out = no_data_output
  \/ ((exists v,
          selected_view n_vol n_dd n_corr = Some v
          /\ match risk_chart out with
             | VolatilityFigure bars =>
                 v = "vol" /\ map fst bars = ["BTC"; "ETH"; "SOL"; "XRP"]
             | DrawdownFigure bars =>
                 v = "dd" /\ map fst bars = ["BTC"; "ETH"; "SOL"; "XRP"]
             | CorrelationFigure traces =>
                 v = "corr" /\ map fst traces = ["BTC"; "ETH"; "SOL"; "XRP"]
             | _ => False
             end)
      /\ (exists m,
             correlation_heatmap out = HeatmapFigure m
             /\ map fst m = Py.keys FRED_TICKERS ++ Py.keys YAHOO_TICKERS
             /\ Forall (fun row => length (snd row) = 11%nat) m)
      /\ last_update out = LastUpdated (clock 5)).
Proof.
  intros H.
  apply update_dashboard_steps in H
    as (v & period & interval & df & Hv & Hk & Hf
        & [[_ ->] | [_ (dfc & fig & Hs & Hfig & ->)]]); [now left|].
  right. cbn [risk_chart correlation_heatmap last_update].
  pose proof (panel_columns yf_download DataReader clock _ _ _ Hf) as Hcols.
  assert (Hr : columns (dropna (pct_change (dropna df)))
               = Py.keys FRED_TICKERS ++ Py.keys YAHOO_TICKERS).
  { unfold pct_change.
    now rewrite dropna_columns, columns_map_cols, dropna_columns. }
  split; [|split; [|reflexivity]].
  - exists v. split; [exact Hv|].
    destruct Hfig as [[-> ->] | [[-> ->] | (Hnv & Hnd & traces & Ht & ->)]].
    + split; [reflexivity|].
      now rewrite ann_vol_labels, (crypto_returns_columns _ _ Hs).
    + split; [reflexivity|].
      rewrite maxdd_labels, dropna_columns.
      now apply select_Some in Hs as (_ & Hc & _).
    + split.
      * destruct (selected_view_greatest n_vol n_dd n_corr)
          as (v' & Hv' & Hcase).
        rewrite Hv in Hv'. inversion Hv'; subst v'.
        destruct Hcase as [[E _] | [[E _] | [E _]]];
          [contradiction | contradiction | exact E].
      * eapply corr_traces_labels; [|exact Ht].
        rewrite dropna_columns, Hcols. cbn. intuition.
  - exists (round (corr (dropna (pct_change (dropna df))))).
    split; [reflexivity|].
    destruct (heatmap_shape (dropna (pct_change (dropna df)))) as [H1 H2].
    split; [now rewrite H1|].
    rewrite Hr in H2. exact H2.
Qed.

End Callback.

Lemma no_data_exactly_witness :
  exists out,
    update_dashboard Samples.yahoo_three_days Samples.fred_two_days
                     Samples.clock 0 (Some "180d") 0 1 0 = Some out
    /\ exists period interval df,
         Py.get "180d" DATE_OPTIONS = Some (period, interval)
         /\ fetch_cross_asset_data Samples.yahoo_three_days
              Samples.fred_two_days Samples.clock period interval = Some df
         /\ (out = no_data_output
             <-> index df = [] \/ exists l c, In (l, c) (data df) /\ all_na c)
         /\ (out <> no_data_output -> dropna df = df).
Proof.
  edestruct (update_dashboard_total Samples.yahoo_three_days
               Samples.fred_two_days Samples.clock 0 (Some "180d") 0 1 0
               "180d" "1d") as [out E];
    [reflexivity | vm_compute; reflexivity |].
  exists out. split; [exact E|].
  exact (no_data_exactly Samples.yahoo_three_days Samples.fred_two_days
           Samples.clock 0 (Some "180d") 0 1 0 out E).
Defined.

Lemma update_dashboard_output_witness :
  exists out,
    update_dashboard Samples.yahoo_three_days Samples.fred_two_days
                     Samples.clock 0 None 0 0 1 = Some out
    /\ (out = no_data_output
        \/ ((exists v,
                selected_view 0 0 1 = Some v
                /\ match risk_chart out with
                   | VolatilityFigure bars =>
                       v = "vol" /\ map fst bars = ["BTC"; "ETH"; "SOL"; "XRP"]
                   | DrawdownFigure bars =>
                       v = "dd" /\ map fst bars = ["BTC"; "ETH"; "SOL"; "XRP"]
                   | CorrelationFigure traces =>
                       v = "corr"
                       /\ map fst traces = ["BTC"; "ETH"; "SOL"; "XRP"]
                   | _ => False
                   end)
            /\ (exists m,
                   correlation_heatmap out = HeatmapFigure m
                   /\ map fst m
                      = Py.keys FRED_TICKERS ++ Py.keys YAHOO_TICKERS
                   /\ Forall (fun row => length (snd row) = 11%nat) m)
            /\ last_update out = LastUpdated (Samples.clock 5))).
Proof.
  edestruct (update_dashboard_total Samples.yahoo_three_days
               Samples.fred_two_days Samples.clock 0 None 0 0 1
               "1y" "1d") as [out E];
    [reflexivity | vm_compute; reflexivity |].
  exists out. split; [exact E|].
  exact (update_dashboard_output Samples.yahoo_three_days
           Samples.fred_two_days Samples.clock 0 None 0 0 1 out E).
Defined.

End AppLaws.

(** * Properties of the numbers on the charts *)

Module MetricsLaws.

Import Pd App Stats StatsFacts MetricsFacts.
Import Float (Fin, of_Q).

Section Range.

Local Open Scope R_scope.

(** Cauchy-Schwarz for two real functions over a list. *)
Lemma sum_quadratic {A : Type} (f g : A -> R) (l : list A) (t : R) :
  sum (map (fun a => (f a * t + g a) * (f a * t + g a)) l)
  = sum (map (fun a => f a * f a) l) * (t * t)
    + 2 * sum (map (fun a => f a * g a) l) * t
    + sum (map (fun a => g a * g a) l).
Proof.
  induction l as [|a r IH]; cbn [map sum fold_right].
  - ring.
  - fold (sum (map (fun a => (f a * t + g a) * (f a * t + g a)) r)).
    fold (sum (map (fun a => f a * f a) r)).
    fold (sum (map (fun a => f a * g a) r)).
    fold (sum (map (fun a => g a * g a) r)).
    rewrite IH. ring.
Qed.

Lemma cauchy_schwarz {A : Type} (f g : A -> R) (l : list A) :
  sum (map (fun a => f a * g a) l) * sum (map (fun a => f a * g a) l)
  <= sum (map (fun a => f a * f a) l) * sum (map (fun a => g a * g a) l).
Proof.
  set (P := sum (map (fun a => f a * g a) l)).
  set (A0 := sum (map (fun a => f a * f a) l)).
  set (B := sum (map (fun a => g a * g a) l)).
  assert (Hq : forall t, 0 <= A0 * (t * t) + 2 * P * t + B).
  { intros t. unfold A0, P, B. rewrite <- sum_quadratic.
    apply sum_map_nonneg. intros a _. apply square_nonneg. }
  assert (HA : 0 <= A0)
    by (apply sum_map_nonneg; intros a _; apply square_nonneg).
  assert (HB : 0 <= B)
    by (apply sum_map_nonneg; intros a _; apply square_nonneg).
  destruct (Req_dec A0 0) as [E | N].
  - destruct (Req_dec P 0) as [EP | NP]; [rewrite EP, E; lra|].
    exfalso. specialize (Hq (- (B + 1) / (2 * P))). rewrite E in Hq.
    replace (0 * (- (B + 1) / (2 * P) * (- (B + 1) / (2 * P)))
             + 2 * P * (- (B + 1) / (2 * P)) + B)
      with (-1) in Hq by (field; exact NP).
    lra.
  - assert (HA' : 0 < A0) by lra.
    specialize (Hq (- P / A0)).
    replace (A0 * (- P / A0 * (- P / A0)) + 2 * P * (- P / A0) + B)
      with (B - P * P / A0) in Hq by (field; exact N).
    assert (Hle : P * P / A0 <= B) by lra.
    apply (Rmult_le_compat_r A0) in Hle; [|lra].
    replace (P * P / A0 * A0) with (P * P) in Hle by (field; exact N).
    lra.
Qed.

Lemma ssqd_combine (x y : list R) (m : R) :
  length x = length y ->
  sum (map (fun p => (fst p - m) * (fst p - m)) (combine x y))
  = sum (map (fun a => (a - m) * (a - m)) x).
Proof.
  revert y. induction x as [|a r IH]; intros [|b s] E; try discriminate;
    [reflexivity|].
  cbn [combine map sum fold_right fst].
  fold (sum (map (fun p => (fst p - m) * (fst p - m)) (combine r s))).
  fold (sum (map (fun a => (a - m) * (a - m)) r)).
  rewrite IH; [reflexivity | now inversion E].
Qed.

Lemma ssqd_combine_r (x y : list R) (m : R) :
  length x = length y ->
  sum (map (fun p => (snd p - m) * (snd p - m)) (combine x y))
  = sum (map (fun a => (a - m) * (a - m)) y).
Proof.
  revert y. induction x as [|a r IH]; intros [|b s] E; try discriminate;
    [reflexivity|].
  cbn [combine map sum fold_right snd].
  fold (sum (map (fun p => (snd p - m) * (snd p - m)) (combine r s))).
  fold (sum (map (fun a => (a - m) * (a - m)) s)).
  rewrite IH; [reflexivity | now inversion E].
Qed.

Lemma sprod_bound (x y : list R) :
  length x = length y -> sprod x y * sprod x y <= ssqd x * ssqd y.
Proof.
  intros E. unfold sprod, ssqd.
  rewrite <- (ssqd_combine x y (mean x) E), <- (ssqd_combine_r x y (mean y) E).
  apply (cauchy_schwarz (fun p => fst p - mean x) (fun p => snd p - mean y)).
Qed.

Lemma pearson_range (x y : list R) (r : R) :
  length x = length y -> pearson x y = Some r -> -1 <= r <= 1.
Proof.
  intros E. unfold pearson.
  destruct (Req_dec_T (sqrt (ssqd x * ssqd y)) 0) as [|N]; [discriminate|].
  intros H. inversion H; subst r; clear H.
  set (D := sqrt (ssqd x * ssqd y)) in *. set (P := sprod x y).
  assert (HD : 0 < D).
  { pose proof (sqrt_pos (ssqd x * ssqd y)). fold D in H. lra. }
  assert (Habs : Rabs P <= D).
  { rewrite <- sqrt_Rsqr_abs. unfold D. apply sqrt_le_1.
    - apply Rle_0_sqr.
    - apply Rmult_le_pos; apply ssqd_nonneg.
    - unfold Rsqr. now apply sprod_bound. }
  assert (Hlo : - D <= P) by (unfold Rabs in Habs; destruct (Rcase_abs P); lra).
  assert (Hhi : P <= D) by (unfold Rabs in Habs; destruct (Rcase_abs P); lra).
  split.
  - apply (Rmult_le_reg_r D); [exact HD|].
    replace (P / D * D) with P by (field; lra). lra.
  - apply (Rmult_le_reg_r D); [exact HD|].
    replace (P / D * D) with P by (field; lra). lra.
Qed.

Lemma pair_observations_length (a b : list Float.cell) :
  length (fst (pair_observations a b)) = length (snd (pair_observations a b)).
Proof.
  revert b. induction a as [|x a' IH]; intros [|y b']; try reflexivity.
  cbn [pair_observations]. specialize (IH b').
  destruct x as [[p| |]|], y as [[q| |]|]; cbn [fst snd length];
    congruence.
Qed.

Lemma rint_range (lo hi : Z) (x : R) :
  IZR lo <= x <= IZR hi -> (lo <= rint x <= hi)%Z.
Proof.
  intros [Hlo Hhi]. unfold rint.
  pose proof (Zfloor_bound x) as [Hf1 Hf2].
  assert (Hl : (lo <= Zfloor x)%Z) by (now apply Zfloor_lub).
  assert (Hh : (Zfloor x <= hi)%Z).
  { apply le_IZR. lra. }
  destruct (Z.eq_dec (Zfloor x) hi) as [E | N].
  - assert (x - IZR (Zfloor x) <= 0) by (rewrite E; lra).
    destruct (Rlt_dec (x - IZR (Zfloor x)) (1 / 2)); [lia | lra].
  - destruct (Rlt_dec (x - IZR (Zfloor x)) (1 / 2)); [lia|].
    destruct (Rlt_dec (1 / 2) (x - IZR (Zfloor x))); [lia|].
    destruct (Z.even (Zfloor x)); lia.
Qed.

Lemma round3_range (x : R) : -1 <= x <= 1 -> -1 <= round3 x <= 1.
Proof.
  intros H. unfold round3.
  destruct (rint_range (-1000) 1000 (x * 1000)) as [Hlo Hhi]; [lra|].
  apply IZR_le in Hlo, Hhi. lra.
Qed.

(** X15. Every number of the heatmap lies within the colour scale
    [zmin=-1, zmax=1] of line 188-189: an entry of
    [returns_all.corr().round(3)] that is not NaN is between -1 and
    1, whatever the panel. *)
Theorem heatmap_within_scale (df : Frame) (i j : nat) (r : R) :
  entry (round (corr df)) i j = Some r -> -1 <= r <= 1.
Proof.
  rewrite entry_round_corr.
  destruct (nth_error (data df) i) as [ci|]; [|discriminate].
  destruct (nth_error (data df) j) as [cj|]; [|discriminate].
  unfold corr_cols. cbv zeta.
  destruct (pearson _ _) as [r0|] eqn:Ep; [|discriminate].
  cbn [option_map]. intros H. inversion H; subst r; clear H.
  apply round3_range. eapply pearson_range; [|exact Ep].
  apply pair_observations_length.
Qed.

End Range.

Lemma heatmap_within_scale_witness :
  entry (round (corr Samples.two_returns)) 1 1 = Some 1%R
  /\ (-1 <= 1 <= 1)%R.
Proof.
  assert (E : entry (round (corr Samples.two_returns)) 1 1 = Some 1%R).
  { apply (corr_matrix_diagonal Samples.two_returns 1 "BTC"
             (map of_Q Samples.btc_returns)); [reflexivity|].
    exists Samples.btc_returns. split; [reflexivity|].
    exists (1 # 10)%Q, (-1 # 10)%Q. simpl. intuition discriminate. }
  split; [exact E|].
  exact (heatmap_within_scale Samples.two_returns 1 1 1%R E).
Defined.

Section ReturnLaws.

Lemma nth_combine {A B : Type} (a : list A) (b : list B) (i : nat) da db :
  (i < length a)%nat -> (i < length b)%nat ->
  nth i (combine a b) (da, db) = (nth i a da, nth i b db).
Proof.
  revert b i. induction a as [|x r IH]; intros [|y s] [|i] Ha Hb;
    cbn [length] in *; try lia; [reflexivity|].
  cbn [combine nth]. apply IH; lia.
Qed.

Lemma nth_map_in {A B : Type} (f : A -> B) (l : list A) (i : nat) d d' :
  (i < length l)%nat -> nth i (map f l) d = f (nth i l d').
Proof.
  revert i. induction l as [|a r IH]; intros [|i] H; cbn [length] in H;
    try lia; [reflexivity|].
  cbn [map nth]. apply IH. lia.
Qed.

Lemma q_returns_nth (ps : list Q) (i : nat) :
  (i + 1 < length ps)%nat ->
  nth i (q_returns ps) 0%Q = (nth (i + 1) ps 0 / nth i ps 0 - 1)%Q.
Proof.
  intros H. unfold q_returns.
  assert (Ht : length (tl ps) = (length ps - 1)%nat)
    by (destruct ps; cbn; lia).
  rewrite (nth_map_in _ _ i 0%Q (0%Q, 0%Q)) by (rewrite length_combine; lia).
  rewrite nth_combine by lia. cbn [fst snd].
  replace (nth i (tl ps) 0%Q) with (nth (i + 1) ps 0%Q); [reflexivity|].
  destruct ps as [|p r]; [cbn in H; lia|]. cbn [tl].
  now rewrite Nat.add_1_r.
Qed.

(** X23. The returns the metrics are computed from.  For a panel of
    finite, positive prices, [df.pct_change().dropna()] loses
    exactly the first date and keeps the labels in place; the return
    of a column at the date after position [i] is the price there
    over the price at [i], minus 1. *)
Theorem returns_contract (idx : list date) (cols : list (string * list Q)) :
  idx <> [] -> cols <> [] -> positive_prices idx cols ->
  let r := dropna (pct_change (fin_frame idx cols)) in
  index r = tl idx
  /\ columns r = map fst cols
  /\ forall k l ps,
       nth_error cols k = Some (l, ps) ->
       exists c,
         nth_error (data r) k = Some (l, c)
         /\ length c = (length idx - 1)%nat
         /\ forall i, (i + 1 < length idx)%nat ->
                      nth i c None
                      = of_Q (nth (i + 1) ps 0 / nth i ps 0 - 1)%Q.
Proof.
  intros Hidx Hcols Hpos r. unfold r.
  rewrite (returns_panel_positive idx cols Hidx Hcols Hpos).
  unfold fin_frame, columns. cbn [index data].
  split; [reflexivity|]. split.
  - rewrite !map_map. reflexivity.
  - intros k l ps Hk. rewrite map_map, nth_error_map, Hk.
    cbn [option_map fst snd]. eexists. split; [reflexivity|].
    unfold positive_prices in Hpos. rewrite Forall_forall in Hpos.
    destruct (Hpos (l, ps) (nth_error_In _ _ Hk)) as [Hlen _].
    cbn [snd] in Hlen. split.
    + rewrite length_map. unfold q_returns.
      rewrite length_map, length_combine.
      destruct ps; cbn [tl length] in *; lia.
    + intros i Hi.
      rewrite (nth_map_in of_Q _ i None 0%Q).
      * f_equal. f_equal. apply q_returns_nth. lia.
      * unfold q_returns.
        rewrite length_map, length_combine.
        destruct ps; cbn [tl length] in *; lia.
Qed.

End ReturnLaws.

Lemma returns_contract_witness :
  let r := dropna (pct_change
                     (fin_frame (index Samples.btc_panel)
                                [("BTC", [100; 110; 99; 105]%Q)])) in
  index r = tl (index Samples.btc_panel)
  /\ columns r = map fst [("BTC", [100; 110; 99; 105]%Q)]
  /\ forall k l ps,
       nth_error [("BTC", [100; 110; 99; 105]%Q)] k = Some (l, ps) ->
       exists c,
         nth_error (data r) k = Some (l, c)
         /\ length c = (length (index Samples.btc_panel) - 1)%nat
         /\ forall i,
              (i + 1 < length (index Samples.btc_panel))%nat ->
              nth i c None
              = of_Q (nth (i + 1) ps 0 / nth i ps 0 - 1)%Q.
Proof.
  apply (returns_contract (index Samples.btc_panel)
                          [("BTC", [100; 110; 99; 105]%Q)]).
  - discriminate.
  - discriminate.
  - repeat constructor.
Defined.

End MetricsLaws.

(** * Properties of data_fetching_v1.py *)

Module DataFetchingV1Laws.

Import Pd DataFetching App PdFacts PdLaws PipelineFacts PipelineLaws.
Import MetricsFacts AppLaws DataFetchingV1.

Section Scaling.

Lemma existsb_eqb_In (col : string) (l : list string) :
  existsb (String.eqb col) l = true <-> In col l.
Proof.
  rewrite existsb_exists. split.
  - intros (x & Hx & E). apply String.eqb_eq in E. now subst.
  - intros H. exists col. split; [assumption | apply String.eqb_refl].
Qed.

Lemma keys_unique {A : Type} (d : Py.dict string A) (k : string) (a b : A) :
  NoDup (Py.keys d) -> In (k, a) d -> In (k, b) d -> a = b.
Proof.
  intros Hnd Ha Hb. apply (get_of_In k a d Hnd) in Ha.
  apply (get_of_In k b d Hnd) in Hb. congruence.
Qed.

Lemma scale_column_map (close : Frame) (col : string) :
  NoDup (columns close) ->
  scale_column close col
  = Some (mkFrame (index close)
            (map (fun lc => if String.eqb (fst lc) col
                            then (fst lc, div_ten_col (snd lc)) else lc)
                 (data close))).
Proof.
  intros Hnd. unfold scale_column.
  destruct (existsb (String.eqb col) (columns close)) eqn:E.
  - apply existsb_eqb_In in E.
    destruct (get_of_key col (data close) E) as [c Hc].
    unfold getitem. rewrite Hc. cbn [bind s_values]. f_equal.
    unfold setitem.
    replace (existsb (String.eqb col) (columns close)) with true
      by (symmetry; now apply existsb_eqb_In).
    f_equal. apply map_ext_in. intros [l c0] Hin. cbn [fst snd].
    destruct (String.eqb_spec l col) as [-> | _]; [|reflexivity].
    f_equal. f_equal. apply get_In in Hc.
    exact (keys_unique (data close) col c c0 Hnd Hc Hin).
  - destruct close as [idx cols]. cbn [index data]. f_equal. f_equal.
    rewrite <- (map_id cols) at 1. apply map_ext_in.
    intros [l c0] Hin. cbn [fst].
    destruct (String.eqb_spec l col) as [-> | _]; [|reflexivity].
    exfalso. apply Bool.not_true_iff_false in E. apply E.
    apply existsb_eqb_In. unfold columns. cbn [data].
    apply in_map_iff. now exists (col, c0).
Qed.

Lemma scale_columns_map (cols : list string) (close : Frame) :
  NoDup cols -> NoDup (columns close) ->
  scale_columns cols close
  = Some (mkFrame (index close)
            (map (fun lc => if existsb (String.eqb (fst lc)) cols
                            then (fst lc, div_ten_col (snd lc)) else lc)
                 (data close))).
Proof.
  revert close. induction cols as [|col r IH]; intros close Hc Hnd.
  - cbn [scale_columns existsb]. destruct close as [idx cs]. cbn [index data].
    now rewrite map_id.
  - cbn [scale_columns]. rewrite (scale_column_map close col Hnd).
    cbn [bind]. inversion Hc as [|? ? Hcol Hr]; subst.
    rewrite IH; [|assumption|].
    + cbn [index data]. f_equal. f_equal. rewrite map_map.
      apply map_ext. intros [l c]. cbn [fst snd existsb].
      rewrite (String.eqb_sym l col).
      destruct (String.eqb_spec col l) as [<- | Hne]; cbn [fst snd orb].
      * replace (existsb (String.eqb col) r) with false; [reflexivity|].
        symmetry. apply Bool.not_true_iff_false. intros H.
        apply existsb_eqb_In in H. contradiction.
      * reflexivity.
    + unfold columns. cbn [data]. rewrite map_map.
      erewrite map_ext; [exact Hnd|].
      intros [l c]. cbn [fst]. now destruct (String.eqb l col).
Qed.

Lemma div_ten_finite (x : Float.cell) (q : Q) :
  x = Float.of_Q q ->
  Float.cell_div x (Float.of_Z 10) = Float.of_Q (q / 10).
Proof.
  intros ->. reflexivity.
Qed.

Lemma scaled_columns_nodup : NoDup scaled_columns.
Proof.
  unfold scaled_columns.
  repeat (constructor;
          [cbn; intros Hx;
           repeat (destruct Hx as [Hx | Hx]; [discriminate Hx|]);
           exact Hx|]).
  constructor.
Qed.

(** X17. The loop that rescales the Yahoo yields (lines 63-65 of
    data_fetching_v1.py).  On a table whose column labels are all
    different it never raises, keeps the dates, the labels and the
    place and length of every column, divides each cell of the four
    columns 3M_TBill, 2Y_Yield, 10Y_Yield and 30Y_Yield by ten, once,
    and leaves every other column as it is. *)
Theorem scale_columns_contract (close : Frame) :
  NoDup (columns close) ->
  exists close',
    scale_columns scaled_columns close = Some close'
    /\ index close' = index close
    /\ columns close' = columns close
    /\ forall k l c,
         nth_error (data close) k = Some (l, c) ->
         exists c',
           nth_error (data close') k = Some (l, c')
           /\ length c' = length c
           /\ forall i,
                if existsb (String.eqb l) scaled_columns
                then nth i c' None
                     = Float.cell_div (nth i c None) (Float.of_Z 10)
                     /\ (forall q, nth i c None = Float.of_Q q ->
                                   nth i c' None = Float.of_Q (q / 10))
                else nth i c' None = nth i c None.
Proof.
  intros Hnd. eexists. split.
  - apply scale_columns_map; [apply scaled_columns_nodup | exact Hnd].
  - cbn [index]. split; [reflexivity|]. split.
    + unfold columns. cbn [data]. rewrite map_map. apply map_ext.
      intros [l c]. cbn [fst]. now destruct (existsb _ scaled_columns).
    + intros k l c Hk. cbn [data]. rewrite nth_error_map.
      unfold Float.cell, cell in *. rewrite Hk. cbn [option_map fst snd].
      destruct (existsb (String.eqb l) scaled_columns) eqn:E.
      * eexists. split; [reflexivity|]. split.
        -- unfold div_ten_col. now rewrite length_map.
        -- intros i.
           assert (Hi : nth i (div_ten_col c) None
                        = Float.cell_div (nth i c None) (Float.of_Z 10)).
           { unfold div_ten_col.
             change None with (Float.cell_div (@None Float.t) (Float.of_Z 10)) at 1.
             exact (map_nth (fun x : Float.cell =>
                               Float.cell_div x (Float.of_Z 10)) c None i). }
           split; [exact Hi|]. intros q Hq.
           etransitivity; [exact Hi|]. now apply div_ten_finite.
      * exists c. split; [reflexivity|]. split; [reflexivity|]. reflexivity.
Qed.

End Scaling.

Lemma scale_columns_contract_witness :
  exists close',
    scale_columns scaled_columns SamplesV1.quotes = Some close'
    /\ index close' = index SamplesV1.quotes
    /\ columns close' = columns SamplesV1.quotes
    /\ forall k l c,
         nth_error (data SamplesV1.quotes) k = Some (l, c) ->
         exists c',
           nth_error (data close') k = Some (l, c')
           /\ length c' = length c
           /\ forall i,
                if existsb (String.eqb l) scaled_columns
                then nth i c' None
                     = Float.cell_div (nth i c None) (Float.of_Z 10)
                     /\ (forall q, nth i c None = Float.of_Q q ->
                                   nth i c' None = Float.of_Q (q / 10))
                else nth i c' None = nth i c None.
Proof.
  apply (scale_columns_contract SamplesV1.quotes).
  simpl. repeat constructor; simpl; intuition discriminate.
Defined.

Section Pipeline.

Variable yf_download : YahooRequest -> YahooFrame Float.t.
Variable DataReader : FredRequest -> Frame.
Variable clock : nat -> Py.datetime.

Lemma yahoo_labels_nodup : NoDup (Py.keys yahoo_tickers).
Proof.
  cbn.
  repeat (constructor;
          [cbn; intros Hx;
           repeat (destruct Hx as [Hx | Hx]; [discriminate Hx|]);
           exact Hx|]).
  constructor.
Qed.

Lemma v1_labels_nodup : NoDup (Py.keys yahoo_tickers ++ ["1Y_Yield"]).
Proof.
  cbn.
  repeat (constructor;
          [cbn; intros Hx;
           repeat (destruct Hx as [Hx | Hx]; [discriminate Hx|]);
           exact Hx|]).
  constructor.
Qed.

Lemma fetch_fred_series_v1_Some now series period df :
  fetch_fred_series DataReader now series period = Some df ->
  exists req l0 c,
    fred_request now series period = Some req
    /\ data (DataReader req) = [(l0, c)]
    /\ df = mkFrame (index (DataReader req))
                    [("1Y_Yield", bfill_col (ffill_col c))].
Proof.
  unfold fetch_fred_series. intros H. bind_inv H. bind_inv H.
  inversion H; subst; clear H.
  apply set_columns_Some in E0 as [Hlen ->].
  exists x. cbn [length] in Hlen.
  destruct (data (DataReader x)) as [|[l0 c] [|? ?]] eqn:Ed;
    try discriminate.
  exists l0, c. split; [exact E|]. split; [reflexivity|].
  reflexivity.
Qed.

Lemma v1_steps period interval df :
  fetch_cross_asset_data yf_download DataReader clock period interval
  = Some df ->
  exists close0 close1 close df_1y merged,
    close_prices (yf_download (yahoo_request period interval)) = Some close0
    /\ set_columns (Py.keys yahoo_tickers) close0 = Some close1
    /\ scale_columns scaled_columns close1 = Some close
    /\ fetch_fred_series DataReader (clock 0) "DGS1" period = Some df_1y
    /\ concat [close; df_1y] = Some merged
    /\ df = sort_and_fill merged.
Proof.
  unfold fetch_cross_asset_data. intros H.
  bind_inv H. bind_inv H. bind_inv H. bind_inv H. bind_inv H.
  inversion H; subst.
  exists x, x0, x1, x2, x3. repeat split; assumption.
Qed.

Lemma v1_scaled close0 close1 close :
  set_columns (Py.keys yahoo_tickers) close0 = Some close1 ->
  scale_columns scaled_columns close1 = Some close ->
  close = mkFrame (index close0)
            (map (fun lc => if existsb (String.eqb (fst lc)) scaled_columns
                            then (fst lc, div_ten_col (snd lc)) else lc)
                 (combine (Py.keys yahoo_tickers) (map snd (data close0)))).
Proof.
  intros H1 H2.
  pose proof (set_columns_columns _ _ _ H1) as Hc.
  rewrite scale_columns_map in H2;
    [|apply scaled_columns_nodup | rewrite Hc; apply yahoo_labels_nodup].
  inversion H2; subst; clear H2.
  apply set_columns_Some in H1 as [_ ->]. reflexivity.
Qed.

Lemma v1_close_columns close0 close1 close :
  set_columns (Py.keys yahoo_tickers) close0 = Some close1 ->
  scale_columns scaled_columns close1 = Some close ->
  columns close = Py.keys yahoo_tickers /\ index close = index close0.
Proof.
  intros H1 H2. pose proof (set_columns_columns _ _ _ H1) as Hc.
  rewrite (v1_scaled _ _ _ H1 H2). unfold columns. cbn [data index].
  split; [|reflexivity].
  rewrite map_map. erewrite map_ext.
  - apply set_columns_Some in H1 as [_ ->]. exact Hc.
  - intros [l c]. cbn [fst]. now destruct (existsb _ scaled_columns).
Qed.

Lemma v1_panel_columns (period interval : string) (df : Frame) :
  fetch_cross_asset_data yf_download DataReader clock period interval
  = Some df ->
  columns df = Py.keys yahoo_tickers ++ ["1Y_Yield"].
Proof.
  intros H.
  apply v1_steps in H
    as (close0 & close1 & close & df_1y & merged
        & Hc0 & Hc1 & Hsc & Hf & Hm & ->).
  rewrite columns_sort_and_fill, (concat_columns _ _ Hm).
  cbn [flat_map]. rewrite app_nil_r.
  destruct (v1_close_columns _ _ _ Hc1 Hsc) as [-> _].
  apply fetch_fred_series_v1_Some in Hf as (req & l0 & c & _ & _ & ->).
  reflexivity.
Qed.

(** X18. The shape of the panel of the first version of the
    pipeline: the ten Yahoo labels in the order of [TICKERS], then
    the FRED column, always named "1Y_Yield"; every column has one
    cell per date, and is either without a missing cell or without a
    value. *)
Theorem v1_panel_layout (period interval : string) (df : Frame) :
  fetch_cross_asset_data yf_download DataReader clock period interval
  = Some df ->
  columns df = Py.keys yahoo_tickers ++ ["1Y_Yield"]
  /\ rectangular df
  /\ forall l c, In (l, c) (data df) -> no_na c \/ all_na c.
Proof.
  intros H. split; [exact (v1_panel_columns period interval df H)|].
  apply v1_steps in H
    as (close0 & close1 & close & df_1y & merged
        & Hc0 & Hc1 & Hsc & Hf & Hm & ->).
  split.
  - apply sort_and_fill_rectangular.
  - intros l c Hin. apply data_sort_and_fill in Hin as (c0 & _ & ->).
    apply fill_col_filled.
Qed.

(** X19. When the first version of the pipeline raises.  For a
    period of ASCII characters and providers whose tables carry no
    date twice, it returns a panel exactly when the download has
    closing prices with ten columns, and the request for DGS1 can be
    built (the period parses, the start date exists) and is answered
    by a table of one column. *)
Theorem v1_fetch_succeeds_exactly (period interval : string) :
  Py.is_ascii period = true ->
  PipelineSpec.unique_dates yf_download DataReader ->
  (fetch_cross_asset_data yf_download DataReader clock period interval
   <> None
   <-> (exists close0,
           close_prices (yf_download (yahoo_request period interval))
           = Some close0
           /\ length (data close0) = 10%nat)
       /\ (exists req,
              fred_request (clock 0) "DGS1" period = Some req
              /\ length (data (DataReader req)) = 1%nat)).
Proof.
  intros _ [Hfd Hyd]. split.
  - intros H.
    destruct (fetch_cross_asset_data yf_download DataReader clock
                                     period interval) as [df|] eqn:E;
      [clear H | contradiction].
    apply v1_steps in E
      as (close0 & close1 & close & df_1y & merged
          & Hc0 & Hc1 & Hsc & Hf & Hm & ->).
    split.
    + exists close0. split; [assumption|].
      apply set_columns_Some in Hc1 as [E _]. now symmetry.
    + apply fetch_fred_series_v1_Some in Hf as (req & l0 & c & Hr & Hd & _).
      exists req. split; [assumption|]. now rewrite Hd.
  - intros [(close0 & Hc0 & Hlen) (req & Hr & Hd)].
    unfold fetch_cross_asset_data. rewrite Hc0. cbn [bind].
    destruct (set_columns (Py.keys yahoo_tickers) close0) as [close1|] eqn:E1.
    2:{ exfalso. revert E1. unfold set_columns. rewrite Hlen. discriminate. }
    cbn [bind].
    destruct (scale_columns scaled_columns close1) as [close|] eqn:E2.
    2:{ exfalso. revert E2. rewrite scale_columns_map;
          [discriminate | apply scaled_columns_nodup|].
        rewrite (set_columns_columns _ _ _ E1). apply yahoo_labels_nodup. }
    cbn [bind].
    destruct (fetch_fred_series DataReader (clock 0) "DGS1" period)
      as [df_1y|] eqn:E3.
    2:{ exfalso. revert E3. unfold fetch_fred_series. rewrite Hr.
        cbn [bind]. unfold set_columns. rewrite Hd.
        cbn [Nat.eqb length bind]. discriminate. }
    cbn [bind].
    destruct (concat [close; df_1y]) as [merged|] eqn:E4;
      [cbn [bind]; discriminate|].
    exfalso. revert E4. apply concat_returns.
    exists close, [df_1y]. split; [reflexivity|].
    intros g [<- | [<- | []]]; right.
    + destruct (v1_close_columns _ _ _ E1 E2) as [_ ->]. eapply Hyd, Hc0.
    + apply fetch_fred_series_v1_Some in E3 as (r & l0 & c & _ & _ & ->).
      cbn [index]. apply Hfd.
Qed.

End Pipeline.

Lemma v1_panel_layout_witness :
  exists df,
    fetch_cross_asset_data Samples.yahoo_three_days Samples.fred_two_days
                           Samples.clock "180d" "1h" = Some df
    /\ columns df = Py.keys yahoo_tickers ++ ["1Y_Yield"]
    /\ rectangular df
    /\ forall l c, In (l, c) (data df) -> no_na c \/ all_na c.
Proof.
  eexists. split; [vm_compute; reflexivity|].
  apply (v1_panel_layout Samples.yahoo_three_days Samples.fred_two_days
                        Samples.clock "180d" "1h").
  vm_compute. reflexivity.
Defined.

Lemma v1_fetch_succeeds_exactly_witness :
  fetch_cross_asset_data Samples.yahoo_three_days Samples.fred_two_days
                         Samples.clock "180d" "1d" <> None
  /\ fetch_cross_asset_data Samples.yahoo_three_days Samples.fred_two_days
                            Samples.clock "ytd" "1d" = None.
Proof.
  assert (Hu : PipelineSpec.unique_dates Samples.yahoo_three_days
                                         Samples.fred_two_days).
  { split.
    - intros req. simpl. repeat constructor; simpl; intuition discriminate.
    - intros req close H. simpl in H. inversion H; subst; simpl.
      repeat constructor; simpl; intuition discriminate. }
  split.
  - apply (v1_fetch_succeeds_exactly Samples.yahoo_three_days
             Samples.fred_two_days Samples.clock "180d" "1d" eq_refl Hu).
    split.
    + eexists. split; reflexivity.
    + eexists. split; [vm_compute; reflexivity | reflexivity].
  - destruct (fetch_cross_asset_data Samples.yahoo_three_days
                Samples.fred_two_days Samples.clock "ytd" "1d")
      as [df|] eqn:E; [exfalso | reflexivity].
    assert (H : fetch_cross_asset_data Samples.yahoo_three_days
                  Samples.fred_two_days Samples.clock "ytd" "1d" <> None)
      by (rewrite E; discriminate).
    apply (v1_fetch_succeeds_exactly Samples.yahoo_three_days
             Samples.fred_two_days Samples.clock "ytd" "1d" eq_refl Hu)
      in H as [_ (req & Hr & _)].
    vm_compute in Hr. discriminate Hr.
Defined.

Section Values.

Variable yf_download : YahooRequest -> YahooFrame Float.t.
Variable DataReader : FredRequest -> Frame.
Variable clock : nat -> Py.datetime.

Lemma lookup_map_strict {V : Type} (f : cell V -> cell V) (d : date)
      (idx : list date) (c : list (cell V)) :
  f None = None -> lookup d idx (map f c) = f (lookup d idx c).
Proof.
  intros Hf. revert c. induction idx as [|k r IH]; intros [|v c];
    cbn [map lookup]; try (now rewrite Hf).
  destruct (k =? d); [reflexivity | apply IH].
Qed.

(** X20. The values of the panel of the first version.  When no
    provider table carries a date twice, a finite closing price [q]
    of the j-th downloaded column at date [d] appears in the panel's
    column of the j-th Yahoo label at [d] as [q / 10] for the four
    Yahoo yields and as [q] for every other instrument, and a value
    of the FRED answer at [d] appears unchanged in the column
    "1Y_Yield". *)
Theorem v1_panel_values (period interval : string) (df : Frame) :
  PipelineSpec.unique_dates yf_download DataReader ->
  fetch_cross_asset_data yf_download DataReader clock period interval
  = Some df ->
  (forall close0 j l0 c d q,
      close_prices (yf_download (yahoo_request period interval))
      = Some close0 ->
      nth_error (data close0) j = Some (l0, c) ->
      lookup d (index close0) c = Float.of_Q q ->
      exists label c',
        nth_error (Py.keys yahoo_tickers) j = Some label
        /\ Py.get label (data df) = Some c'
        /\ lookup d (index df) c'
           = Float.of_Q (if existsb (String.eqb label) scaled_columns
                         then q / 10 else q))
  /\ (forall req l0 c d v,
         fred_request (clock 0) "DGS1" period = Some req ->
         data (DataReader req) = [(l0, c)] ->
         lookup d (index (DataReader req)) c = Some v ->
         exists c',
           Py.get "1Y_Yield" (data df) = Some c'
           /\ lookup d (index df) c' = Some v).
Proof.
  intros Hu H.
  assert (Hcols : NoDup (Py.keys (data df))).
  { pose proof (v1_panel_columns yf_download DataReader clock _ _ _ H)
      as Hcols.
    unfold columns in Hcols. unfold Py.keys at 1. rewrite Hcols.
    apply v1_labels_nodup. }
  apply v1_steps in H
    as (close0 & close1 & close & df_1y & merged
        & Hc0 & Hc1 & Hsc & Hf & Hm & ->).
  destruct (v1_close_columns _ _ _ Hc1 Hsc) as [Hcc Hci].
  pose proof (fetch_fred_series_v1_Some DataReader _ _ _ _ Hf)
    as (req0 & l1 & c1 & Hr0 & Hd0 & Hdf).
  assert (Hnm : NoDup (index merged)).
  { destruct Hu as [Hfred Hy].
    eapply concat_index; [exact Hm|].
    constructor; [|constructor; [|constructor]].
    - rewrite Hci. eapply Hy, Hc0.
    - rewrite Hdf. cbn [index]. apply Hfred. }
  split.
  - intros close0' j l0 c d q Hc0' Hj Hl.
    rewrite Hc0 in Hc0'. inversion Hc0'; subst close0'; clear Hc0'.
    pose proof (set_columns_Some _ _ _ Hc1) as [Hlen _].
    destruct (nth_error (Py.keys yahoo_tickers) j) as [label|] eqn:Ek.
    2:{ apply nth_error_None in Ek.
        assert (Hlt : (j < length (data close0))%nat)
          by (apply nth_error_Some; rewrite Hj; discriminate).
        lia. }
    exists label.
    set (c2 := if existsb (String.eqb label) scaled_columns
               then div_ten_col c else c).
    assert (Hin : In (label, c2) (data close)).
    { rewrite (v1_scaled _ _ _ Hc1 Hsc). cbn [data]. apply in_map_iff.
      exists (label, c). split.
      - cbn [fst snd]. unfold c2.
        now destruct (existsb (String.eqb label) scaled_columns).
      - eapply combine_nth_In; [exact Ek|].
        rewrite nth_error_map. unfold Float.cell, cell in *. rewrite Hj.
        reflexivity. }
    assert (Hl' : lookup d (index close) c2
                  = Some (Float.Fin
                            (if existsb (String.eqb label) scaled_columns
                             then q / 10 else q))).
    { rewrite Hci. unfold c2.
      destruct (existsb (String.eqb label) scaled_columns); [|exact Hl].
      etransitivity;
        [exact (lookup_map_strict (V := Float.t)
                  (fun x => Float.cell_div x (Float.of_Z 10))
                  d (index close0) c eq_refl)|].
      unfold Float.cell, cell in *. rewrite Hl. reflexivity. }
    destruct (merged_column_kept close df_1y merged true label c2 d _
                Hm Hnm Hin Hl') as (c' & Hin' & Hv).
    exists c'. split; [reflexivity|]. split; [|exact Hv].
    now apply get_of_In.
  - intros req l0 c d v Hr Hd Hl.
    rewrite Hr0 in Hr. inversion Hr; subst req0; clear Hr.
    rewrite Hd0 in Hd. inversion Hd; subst l1 c1; clear Hd.
    assert (Hin : In ("1Y_Yield", bfill_col (ffill_col c)) (data df_1y))
      by (rewrite Hdf; now left).
    assert (Hl' : lookup d (index df_1y) (bfill_col (ffill_col c)) = Some v)
      by (rewrite Hdf; cbn [index]; now apply lookup_fill).
    destruct (merged_column_kept df_1y close merged false "1Y_Yield" _ d v
                Hm Hnm Hin Hl') as (c' & Hin' & Hv).
    exists c'. split; [|exact Hv]. now apply get_of_In.
Qed.

End Values.

Lemma v1_panel_values_witness :
  exists df c',
    fetch_cross_asset_data Samples.yahoo_three_days Samples.fred_two_days
                           Samples.clock "180d" "1h" = Some df
    /\ Py.get "3M_TBill" (data df) = Some c'
    /\ lookup 739616 (index df) c' = Float.of_Q (103 / 10).
Proof.
  assert (Hu : PipelineSpec.unique_dates Samples.yahoo_three_days
                                         Samples.fred_two_days).
  { split.
    - intros req. simpl. repeat constructor; simpl; intuition discriminate.
    - intros req close H. simpl in H. inversion H; subst; simpl.
      repeat constructor; simpl; intuition discriminate. }
  destruct (fetch_cross_asset_data Samples.yahoo_three_days
              Samples.fred_two_days Samples.clock "180d" "1h")
    as [df|] eqn:E; [|vm_compute in E; discriminate E].
  destruct (v1_panel_values Samples.yahoo_three_days Samples.fred_two_days
              Samples.clock "180d" "1h" df Hu E) as [Hyahoo _].
  destruct (Hyahoo
              (mkFrame [739616; 739615; 739614]
                 (map (fun t => (t, map Float.of_Z [103; 102; 101]))
                      (Py.values yahoo_tickers)))
              0%nat "^IRX" (map Float.of_Z [103; 102; 101]) 739616
              (inject_Z 103))
    as (label & c' & Hl & Hg & Hv); try reflexivity.
  cbn in Hl. inversion Hl; subst label.
  exists df, c'. split; [reflexivity|]. split; [exact Hg | exact Hv].
Defined.

End DataFetchingV1Laws.

(** * Properties of app_v3.py *)

Module AppV3Laws.

Import Pd DataFetching PdFacts PdLaws PipelineFacts PipelineLaws.
Import MetricsFacts AppLaws AppV3.

Section Chart.

Lemma combine_map_self {A B : Type} (g : A -> B) (l : list A) :
  combine l (map g l) = map (fun a => (a, g a)) l.
Proof.
  induction l as [|a r IH]; [reflexivity|]. cbn [map combine]. now rewrite IH.
Qed.

(** [df / df.iloc[0]] column by column. *)
Lemma div_by_first_row (df : App.Frame) first :
  iloc0 df = Some first ->
  div_by_row df first
  = map_cols (fun c => map (fun v => Float.cell_div v (hd None c)) c) df.
Proof.
  unfold iloc0. destruct (index df); [discriminate|].
  intros H. inversion H; subst; clear H.
  unfold div_by_row, map_cols. f_equal.
  rewrite combine_map_self, map_map. reflexivity.
Qed.

Lemma add_traces_spec (axis : string) (cols : list string)
      (df_norm : App.Frame) :
  (forall col, In col cols -> In col (columns df_norm)) ->
  Forall2 (fun col t =>
             name t = col /\ yaxis t = axis /\ x t = index df_norm
             /\ Py.get col (data df_norm) = Some (y t))
          cols (add_traces axis cols df_norm).
Proof.
  induction cols as [|col r IH]; intros H; [constructor|].
  unfold add_traces. cbn [flat_map]. fold (add_traces axis r df_norm).
  destruct (get_of_key col (data df_norm) (H col (or_introl eq_refl)))
    as [c Hc].
  unfold getitem. rewrite Hc. cbn [bind app s_index s_values].
  constructor.
  - cbn [name yaxis x y]. repeat split; assumption.
  - apply IH. intros c0 Hc0. apply H. now right.
Qed.

End Chart.

Section Traces.

Lemma trace_of_normalized (df : App.Frame) (axis col : string) (t : Trace) :
  name t = col /\ yaxis t = axis
  /\ x t = index (map_cols (fun c => map (fun v =>
                               Float.cell_div v (hd None c)) c) df)
  /\ Py.get col (data (map_cols (fun c => map (fun v =>
                                   Float.cell_div v (hd None c)) c) df))
     = Some (y t) ->
  name t = col /\ yaxis t = axis /\ x t = index df
  /\ exists c,
       Py.get col (data df) = Some c
       /\ y t = map (fun v => Float.cell_div v (hd None c)) c.
Proof.
  intros (Hn & Ha & Hx & Hy). repeat split; try assumption.
  assert (Hy' : option_map
                  (fun c : list Float.cell =>
                     map (fun v => Float.cell_div v (hd None c)) c)
                  (Py.get col (data df)) = Some (y t)).
  { rewrite <- Hy. symmetry.
    exact (get_map_snd
             (fun c : list Float.cell =>
                map (fun v => Float.cell_div v (hd None c)) c)
             col (data df)). }
  destruct (Py.get col (data df)) as [c|]; [|discriminate Hy'].
  exists c. split; [reflexivity|]. cbn [option_map] in Hy'.
  injection Hy' as Hy'. now symmetry.
Qed.

Lemma v3_traces (df : App.Frame) first :
  iloc0 df = Some first ->
  columns df = Py.keys FRED_TICKERS ++ Py.keys YAHOO_TICKERS ->
  Forall2
    (fun col t =>
       name t = col
       /\ yaxis t = (if existsb (String.eqb col) yields then "y1" else "y2")
       /\ x t = index df
       /\ exists c,
            Py.get col (data df) = Some c
            /\ y t = map (fun v => Float.cell_div v (hd None c)) c)
    (yields ++ assets)
    (add_traces "y1" yields (div_by_row df first)
     ++ add_traces "y2" assets (div_by_row df first)).
Proof.
  intros Hf Hcols. rewrite (div_by_first_row df first Hf).
  set (dfn := map_cols _ df).
  assert (Hin : forall col, In col (yields ++ assets) -> In col (columns dfn)).
  { intros col Hcol. unfold dfn. rewrite columns_map_cols, Hcols.
    cbn in Hcol |- *. intuition. }
  apply Forall2_app.
  - pose proof (add_traces_spec "y1" yields dfn) as H.
    specialize (H (fun col Hc => Hin col (in_or_app _ _ _ (or_introl Hc)))).
    revert H. generalize (add_traces "y1" yields dfn). intros ts H.
    unfold yields in *.
    repeat match goal with
           | H : Forall2 _ (_ :: _) _ |- _ => inversion H; subst; clear H
           | H : Forall2 _ [] _ |- _ => inversion H; subst; clear H
           end.
    repeat (constructor;
            [apply (trace_of_normalized df "y1"); assumption|]).
    constructor.
  - pose proof (add_traces_spec "y2" assets dfn) as H.
    specialize (H (fun col Hc => Hin col (in_or_app _ _ _ (or_intror Hc)))).
    revert H. generalize (add_traces "y2" assets dfn). intros ts H.
    unfold assets in *.
    repeat match goal with
           | H : Forall2 _ (_ :: _) _ |- _ => inversion H; subst; clear H
           | H : Forall2 _ [] _ |- _ => inversion H; subst; clear H
           end.
    repeat (constructor;
            [apply (trace_of_normalized df "y2"); assumption|]).
    constructor.
Qed.

End Traces.

Section Callback.

Variable yf_download : YahooRequest -> YahooFrame Float.t.
Variable DataReader : FredRequest -> App.Frame.
Variable clock : nat -> Py.datetime.

Lemma fill_idempotent_panel period interval (df : App.Frame) :
  fetch_cross_asset_data yf_download DataReader clock period interval
  = Some df ->
  DataFetching.fill df = df.
Proof.
  intros H.
  apply fetch_cross_asset_data_steps in H
    as (close0 & close & frames & fred_all & merged & _ & _ & _ & _ & _ & ->).
  apply (fill_idempotent (sort_index merged)).
Qed.

Lemma panel_empty_iff period interval (df : App.Frame) :
  fetch_cross_asset_data yf_download DataReader clock period interval
  = Some df ->
  empty df = true <-> index df = [].
Proof.
  intros H.
  pose proof (panel_columns yf_download DataReader clock _ _ _ H) as Hc.
  unfold empty, n_rows.
  replace (length (data df) =? 0)%nat with false.
  - rewrite orb_false_r, Nat.eqb_eq. apply length_zero_iff_nil.
  - unfold columns in Hc. rewrite <- (length_map fst), Hc. reflexivity.
Qed.

Lemma v3_total n date_key period interval df :
  Py.get (match date_key with None => "1y" | Some k => k end)
         App.DATE_OPTIONS = Some (period, interval) ->
  fetch_cross_asset_data yf_download DataReader clock period interval
  = Some df ->
  exists out, update_dashboard yf_download DataReader clock n date_key
              = Some out.
Proof.
  intros Hk E. unfold update_dashboard. rewrite Hk. cbn [bind fst snd].
  rewrite E. cbn [bind]. destruct (empty df) eqn:Ee; [eexists; reflexivity|].
  unfold iloc0. destruct (index df) eqn:Ei.
  - exfalso. apply (panel_empty_iff _ _ _ E) in Ei. congruence.
  - cbn [bind]. eexists. reflexivity.
Qed.

(** X21. When the callback of app_v3.py raises: it returns its three
    outputs exactly when the date key is absent or one of the keys
    of [DATE_OPTIONS], and the pipeline returns a panel for the
    period and interval of that key; [df.iloc[0]] is only reached on
    a panel that has a row. *)
Theorem v3_raises_exactly n date_key :
  update_dashboard yf_download DataReader clock n date_key <> None
  <-> exists period interval,
        Py.get (match date_key with None => "1y" | Some k => k end)
               App.DATE_OPTIONS = Some (period, interval)
        /\ fetch_cross_asset_data yf_download DataReader clock
                                  period interval <> None.
Proof.
  unfold update_dashboard. split.
  - intros H.
    destruct (Py.get _ App.DATE_OPTIONS) as [[period interval]|];
      [|contradiction].
    cbn [bind fst snd] in H. exists period, interval.
    split; [reflexivity|]. intros E. rewrite E in H. now apply H.
  - intros (period & interval & Hk & Hf).
    destruct (fetch_cross_asset_data yf_download DataReader clock
                                     period interval) as [df|] eqn:E;
      [clear Hf | contradiction].
    fold (update_dashboard yf_download DataReader clock n date_key).
    destruct (v3_total n date_key period interval df Hk E) as [out ->].
    discriminate.
Qed.

(** X22. What the callback of app_v3.py returns.  It shows "No data
    returned" exactly when the panel has no row: there is no
    [dropna()] before the test, so a column without any value does
    not blank the dashboard as it does in app.py.  Otherwise the
    normalized chart has six lines, 3M_Yield and 10Y_Yield on the
    axis y1 and BTC, ETH, SOL, XRP on y2, each over the dates of the
    panel and holding the column divided by its first cell; and the
    heatmap is computed from the panel itself, the [ffill().bfill()]
    of line 173 changing nothing. *)
Theorem v3_output n date_key out :
  update_dashboard yf_download DataReader clock n date_key = Some out ->
  exists period interval df,
    Py.get (match date_key with None => "1y" | Some k => k end)
           App.DATE_OPTIONS = Some (period, interval)
    /\ fetch_cross_asset_data yf_download DataReader clock period interval
       = Some df
    /\ (out = no_data_output <-> index df = [])
    /\ (out <> no_data_output ->
        (exists title traces,
            normalized_chart out = NormalizedFigure title traces
            /\ Forall2
                 (fun col t =>
                    name t = col
                    /\ yaxis t = (if existsb (String.eqb col) yields
                                  then "y1" else "y2")
                    /\ x t = index df
                    /\ exists c,
                         Py.get col (data df) = Some c
                         /\ y t = map (fun v => Float.cell_div v (hd None c)) c)
                 (yields ++ assets) traces)
        /\ correlation_heatmap out
           = HeatmapFigure
               (App.round (App.corr (dropna (App.pct_change df))))
        /\ last_update out = App.LastUpdated (clock 5)).
Proof.
  unfold update_dashboard. intros H.
  bind_inv H. destruct x0 as [period interval]. cbn [fst snd] in H.
  bind_inv H. rename x0 into df.
  exists period, interval, df. split; [exact E|]. split; [exact E0|].
  pose proof (panel_empty_iff _ _ _ E0) as Hemp.
  pose proof (panel_columns yf_download DataReader clock _ _ _ E0) as Hcols.
  destruct (empty df) eqn:Ee.
  - inversion H; subst; clear H. split.
    + split; [intros _; now apply Hemp | reflexivity].
    + intros Hc. now contradiction Hc.
  - bind_inv H. rename x0 into first. inversion H; subst; clear H.
    split.
    + split; [discriminate|]. intros Hi. apply Hemp in Hi. discriminate.
    + intros _. cbn [normalized_chart correlation_heatmap last_update].
      split; [|split; [|reflexivity]].
      * eexists. eexists. split; [reflexivity|].
        exact (v3_traces df first E1 Hcols).
      * rewrite (fill_idempotent_panel _ _ _ E0). reflexivity.
Qed.


End Callback.

Lemma v3_output_witness :
  exists out,
    update_dashboard Samples.yahoo_three_days Samples.fred_two_days
                     Samples.clock 0 (Some "180d") = Some out
    /\ exists period interval df,
         Py.get "180d" App.DATE_OPTIONS = Some (period, interval)
         /\ fetch_cross_asset_data Samples.yahoo_three_days
              Samples.fred_two_days Samples.clock period interval = Some df
         /\ (out = no_data_output <-> index df = [])
         /\ (out <> no_data_output ->
             (exists title traces,
                 normalized_chart out = NormalizedFigure title traces
                 /\ Forall2
                      (fun col t =>
                         name t = col
                         /\ yaxis t = (if existsb (String.eqb col) yields
                                       then "y1" else "y2")
                         /\ x t = index df
                         /\ exists c,
                              Py.get col (data df) = Some c
                              /\ y t = map (fun v =>
                                              Float.cell_div v (hd None c)) c)
                      (yields ++ assets) traces)
             /\ correlation_heatmap out
                = HeatmapFigure
                    (App.round (App.corr (dropna (App.pct_change df))))
             /\ last_update out = App.LastUpdated (Samples.clock 5)).
Proof.
  edestruct (v3_total Samples.yahoo_three_days Samples.fred_two_days
               Samples.clock 0 (Some "180d") "180d" "1d") as [out E];
    [reflexivity | vm_compute; reflexivity |].
  exists out. split; [exact E|].
  exact (v3_output Samples.yahoo_three_days Samples.fred_two_days
           Samples.clock 0 (Some "180d") out E).
Defined.

End AppV3Laws.
